(** * SimAlign: similarity-matrix refinement (simalign.py)

    A shallow embedding of the algorithmic core of [simalign.py]:
    [apply_distortion], [gather_null_aligns],
    [apply_percentile_null_aligns], [iter_max] and the two-phase
    calibration protocol of the [__main__] block.

    numpy arrays of shape (m, n) are lists of m rows of n numbers.  The
    number type (numpy's float64) is an interface [Arith]; every
    definition and every general theorem is stated over an arbitrary
    instance.  Two instances are given: binary64 floats (the kernel's
    primitive floats, on which the definitions evaluate exactly as the
    program does), and the real numbers (the idealisation in which the
    arithmetic facts are proved).

    The functions of scipy, scikit-learn and numpy behind the entropy
    code, and the matchers of [utils/bertalign.py], are parameters
    ([External], [Matchers]).  Exceptions are values ([outcome]); the
    [while] loop of [iter_max] runs on fuel, and is proved never to
    exhaust it. *)

From Stdlib Require Import String.
From Stdlib Require Import List ZArith Bool Permutation Sorted Lia.
From Stdlib Require Import Reals Lra.
From Stdlib Require Import Uint63 Floats.PrimFloat Floats.SpecFloat Floats.FloatOps
  Floats.FloatAxioms.
Import ListNotations.

Set Implicit Arguments.

(** ** Outcomes of a Python call *)

Inductive exn : Set :=
| NameError
| ValueError
| IndexError
| KeyError
| OverflowError.

(** [Ok v]: the call returns [v]; [Raise e]: it raises [e];
    [OutOfFuel]: the model of a [while] loop ran out of steps. *)
Inductive outcome (A : Type) : Type :=
| Ok (v : A)
| Raise (e : exn)
| OutOfFuel.

Arguments Ok {A} v.
Arguments Raise {A} e.
Arguments OutOfFuel {A}.

Definition bind {A B : Type} (c : outcome A) (k : A -> outcome B) : outcome B :=
  match c with
  | Ok v => k v
  | Raise e => Raise e
  | OutOfFuel => OutOfFuel
  end.

Notation "x <- c ;; k" := (bind c (fun x => k))
  (at level 61, c at next level, right associativity).

(** [for x in l: acc = body(acc, x)], stopping at the first exception. *)
Fixpoint for_each {A S : Type} (l : list A) (body : S -> A -> outcome S)
         (acc : S) : outcome S :=
  match l with
  | [] => Ok acc
  | x :: t => acc' <- body acc x ;; for_each t body acc'
  end.

(** [[f(x) for x in l]], stopping at the first exception. *)
Fixpoint map_each {A B : Type} (f : A -> outcome B) (l : list A)
  : outcome (list B) :=
  match l with
  | [] => Ok []
  | x :: t => y <- f x ;; ys <- map_each f t ;; Ok (y :: ys)
  end.

(** ** The number interface *)

(** The operations of float64 the program uses.  [F09] is the literal
    [0.9]; [Fofnat] is [float(i)] on a non-negative [int]; [Ftrunc] is
    [int(x)], which raises on a NaN or an infinity. *)
Class Arith (F : Type) : Type := {
  F0 : F;
  F1 : F;
  F09 : F;
  Fadd : F -> F -> F;
  Fsub : F -> F -> F;
  Fmul : F -> F -> F;
  Fdiv : F -> F -> F;
  Fltb : F -> F -> bool;
  Fleb : F -> F -> bool;
  Feqb : F -> F -> bool;
  Fofnat : nat -> F;
  Ftrunc : F -> outcome Z
}.

(** The functions of scipy, scikit-learn and numpy that the entropy
    code calls: [np.log], [scipy.stats.entropy] of a vector, and
    [sklearn.preprocessing.normalize(., norm='l1')] on one row (or one
    column, for [axis=0]). *)
Class External (F : Type) : Type := {
  np_log : F -> F;
  entropy : list F -> F;
  normalize_l1 : list F -> list F
}.

(** A numpy array of shape (m, n): m rows of n numbers. *)
Definition matrix (F : Type) : Type := list (list F).

(** The matchers of [utils/bertalign.py], which the program calls and
    this file does not look into: [get_alignment_matrix] (the forward
    and the backward one-hot matrices), [symmetrize], and
    [Alignment.from_similarity_matrix(., method="max_weight_matching")]. *)
Class Matchers (F : Type) : Type := {
  get_alignment_matrix : matrix F -> matrix F * matrix F;
  symmetrize : matrix F -> matrix F -> matrix F;
  max_weight_matching : matrix F -> matrix F
}.

(** A [dict] with string keys, in insertion order. *)
Definition dict (V : Type) : Type := list (string * V).

Fixpoint lookup {V : Type} (d : dict V) (k : string) : outcome V :=
  match d with
  | [] => Raise KeyError
  | (k', v) :: t => if String.eqb k' k then Ok v else lookup t k
  end.

(** [d[k] = v] *)
Fixpoint dict_set {V : Type} (d : dict V) (k : string) (v : V) : dict V :=
  match d with
  | [] => [(k, v)]
  | (k', v') :: t =>
      if String.eqb k' k then (k', v) :: t else (k', v') :: dict_set t k v
  end.

Definition keys {V : Type} (d : dict V) : list string := map fst d.

(** [{k: v for (k, v) in l}] *)
Definition dict_of {V : Type} (l : list (string * V)) : dict V :=
  fold_left (fun d kv => dict_set d (fst kv) (snd kv)) l [].

(** [l[i]] on a Python list: a negative index counts from the end. *)
Definition py_index {A : Type} (l : list A) (i : Z) : outcome A :=
  let len := Z.of_nat (length l) in
  let j := if (i <? 0)%Z then (i + len)%Z else i in
  if ((0 <=? j)%Z && (j <? len)%Z)%bool
  then match nth_error l (Z.to_nat j) with
       | Some v => Ok v
       | None => Raise IndexError
       end
  else Raise IndexError.

Fixpoint map2 {A B C : Type} (f : A -> B -> C) (l1 : list A) (l2 : list B)
  : list C :=
  match l1, l2 with
  | a :: t1, b :: t2 => f a b :: map2 f t1 t2
  | _, _ => []
  end.

(** ** Matrices *)

Section Program.

Context {F : Type} {AF : Arith F}.

Local Abbreviation matrix := (matrix F).

(** [sim.shape].  An array with no row is the empty list, whatever its
    number of columns: its shape reads (0, 0). *)
Definition shape (M : matrix) : nat * nat :=
  (length M, length (hd [] M)).

(** numpy arrays are rectangular. *)
Definition rect (m n : nat) (M : matrix) : Prop :=
  length M = m /\ Forall (fun r => length r = n) M.

Definition get (M : matrix) (i j : nat) : F := nth j (nth i M []) F0.

(** The m x n array whose cell (i, j) is [f i j]. *)
Definition build (m n : nat) (f : nat -> nat -> F) : matrix :=
  map (fun i => map (fun j => f i j) (seq 0 n)) (seq 0 m).

(** Elementwise operations.  The program applies them to arrays of one
    shape, where numpy neither broadcasts nor raises. *)
Definition mmap (f : F -> F) (M : matrix) : matrix := map (map f) M.
Definition mmap2 (f : F -> F -> F) (A B : matrix) : matrix :=
  map2 (map2 f) A B.

Definition madd : matrix -> matrix -> matrix := mmap2 Fadd.
Definition mmul : matrix -> matrix -> matrix := mmap2 Fmul.

(** Column [j] of an array, [M[:, j]]. *)
Definition col (j : nat) (M : matrix) : list F :=
  map (fun r => nth j r F0) M.

(** [M.transpose()] of an array with [c] columns. *)
Definition transpose (c : nat) (M : matrix) : matrix :=
  map (fun j => col j M) (seq 0 c).

(** [np.zeros((m, n))], [np.ones((m, n))] *)
Definition zeros (m n : nat) : matrix := build m n (fun _ _ => F0).
Definition ones (m n : nat) : matrix := build m n (fun _ _ => F1).

(** [x.sum()] of a vector and of a whole array: numpy's reduction starts
    from the first element (the values the program sums are small
    integers, on which the order of the additions does not matter). *)
Definition Fsum (l : list F) : F :=
  match l with
  | [] => F0
  | x :: t => fold_left Fadd t x
  end.
Definition msum (M : matrix) : F := Fsum (concat M).

(** A NaN is the one value that differs from itself. *)
Definition Fisnan (x : F) : bool := negb (Feqb x x).

(** [np.clip(x, lo, hi)] = [minimum(maximum(x, lo), hi)]. *)
Definition Fclip (lo hi x : F) : F :=
  if Fisnan x then x
  else if Fltb x lo then lo
  else if Fltb hi x then hi
  else x.

(** [np.minimum(a, b)]: the smaller one; a NaN wins. *)
Definition Fminimum (a b : F) : F :=
  if Fisnan a then a
  else if Fisnan b then b
  else if Fltb b a then b else a.

(** [np.array_equal(A, B)]: same shape and equal everywhere. *)
Fixpoint list_eqb (l1 l2 : list F) : bool :=
  match l1, l2 with
  | [], [] => true
  | a :: t1, b :: t2 => Feqb a b && list_eqb t1 t2
  | _, _ => false
  end.

Fixpoint array_equal (A B : matrix) : bool :=
  match A, B with
  | [], [] => true
  | a :: t1, b :: t2 => list_eqb a b && array_equal t1 t2
  | _, _ => false
  end.

(** [x.argmax()] of a non-empty vector: the index of the first
    maximum, a NaN counting as the maximum.  [argmax_from] is numpy's
    scan: [mp] is the best value so far, found at [best]. *)
Fixpoint argmax_from (best : nat) (mp : F) (i : nat) (l : list F) : nat :=
  match l with
  | [] => best
  | x :: t =>
      if negb (Fleb x mp)
      then (if Fisnan x then i else argmax_from i x (S i) t)
      else argmax_from best mp (S i) t
  end.

Definition argmax (l : list F) : nat :=
  match l with
  | [] => 0
  | x :: t => if Fisnan x then 0 else argmax_from 0 x 1 t
  end.

(** [np.eye(n)[k]] *)
Definition one_hot (n k : nat) : list F :=
  map (fun j => if Nat.eqb j k then F1 else F0) (seq 0 n).

(** [np.eye(n)[M.argmax(axis=1)]]: one row per row of [M]. *)
Definition argmax_rows (n : nat) (M : matrix) : matrix :=
  map (fun r => one_hot n (argmax r)) M.

(** [np.eye(m)[M.argmax(axis=0)]]: one row per column of [M]. *)
Definition argmax_cols (m n : nat) (M : matrix) : matrix :=
  map (fun j => one_hot m (argmax (col j M))) (seq 0 n).

(** *** apply_distortion *)

Definition pos_x (m n : nat) : matrix :=
  map (fun _ => map (fun y => Fdiv (Fofnat y) (Fofnat (n - 1))) (seq 0 n))
      (seq 0 m).

Definition pos_y (m n : nat) : matrix :=
  map (fun _ => map (fun x => Fdiv (Fofnat x) (Fofnat (m - 1))) (seq 0 m))
      (seq 0 n).

Definition distortion_mask (m n : nat) (ratio : F) : matrix :=
  mmap (fun d => Fsub F1 (Fmul (Fmul d d) ratio))
       (mmap2 Fsub (pos_x m n) (transpose m (pos_y m n))).

Definition apply_distortion (sim_matrix : matrix) (ratio : F) : matrix :=
  let '(m, n) := shape sim_matrix in
  if (Nat.ltb m 2 || Nat.ltb n 2) || Feqb ratio F0
  then sim_matrix
  else mmul sim_matrix (distortion_mask m n ratio).

(** *** iter_max *)

(** The module-level names [iter_max] can see: [sim] is bound by the
    [__main__] block, and by nothing else. *)
Record globals : Type := { g_sim : option matrix }.

(** Round 0: [forward * backward.transpose()]. *)
Definition intersection0 (sim : matrix) : matrix :=
  let '(m, n) := shape sim in
  let forward := argmax_rows n sim in
  let backward := argmax_cols m n sim in
  mmul forward (transpose m backward).

(** [mask_x]: 1 on the rows that have no match yet. *)
Definition unmatched_rows (m n : nat) (inter : matrix) : matrix :=
  build m n (fun i _ => Fsub F1 (Fclip F0 F1 (nth i (map Fsum inter) F0))).

(** [mask_y]: 1 on the columns that have no match yet. *)
Definition unmatched_cols (m n : nat) (inter : matrix) : matrix :=
  build m n (fun _ j =>
    Fsub F1 (Fclip F0 F1 (nth j (map (fun j => Fsum (col j inter)) (seq 0 n)) F0))).

(** [if mask_x.sum() < 1.0 or mask_y.sum() < 1.0] *)
Definition exhausted (mask_x mask_y : matrix) : bool :=
  Fltb (msum mask_x) F1 || Fltb (msum mask_y) F1.

(** [mask], after the guard *)
Definition competition_mask (mask_x mask_y : matrix) : matrix :=
  let mask :=
    mmap (Fclip F0 F1)
         (madd (mmap (Fmul F09) mask_x) (mmap (Fmul F09) mask_y)) in
  if exhausted mask_x mask_y then mmap (fun v => Fmul v F0) mask else mask.

(** [mask_zeros], after the guard *)
Definition zero_mask (mask_x mask_y : matrix) : matrix :=
  let mask_zeros :=
    mmap (Fsub F1) (mmul (mmap (Fsub F1) mask_x) (mmap (Fsub F1) mask_y)) in
  if exhausted mask_x mask_y
  then mmap (fun v => Fmul v F0) mask_zeros else mask_zeros.

(** [new_sim] of a round whose accumulator is [inter] *)
Definition damped_sim (sim : matrix) (m n : nat) (inter : matrix) : matrix :=
  mmul sim (competition_mask (unmatched_rows m n inter) (unmatched_cols m n inter)).

(** [new_inter]: the matches one round adds to the accumulator [inter]. *)
Definition new_matches (sim : matrix) (m n : nat) (inter : matrix) : matrix :=
  let mask_zeros :=
    zero_mask (unmatched_rows m n inter) (unmatched_cols m n inter) in
  let new_sim := damped_sim sim m n inter in
  let fwd := mmul (argmax_rows n new_sim) mask_zeros in
  let bac := mmul (transpose m (argmax_cols m n new_sim)) mask_zeros in
  mmul fwd bac.

(** The [while count <= max_count] loop, on its three variables. *)
Fixpoint while_loop (fuel : nat) (sim : matrix) (m n : nat) (max_count : Z)
         (inter new_inter : matrix) (count : Z) : outcome matrix :=
  match fuel with
  | O => OutOfFuel
  | S fuel' =>
      if (count <=? max_count)%Z then
        let inter := madd inter new_inter in
        let new_inter := new_matches sim m n inter in
        if array_equal (madd inter new_inter) inter
        then Ok inter
        else while_loop fuel' sim m n max_count inter new_inter (count + 1)
      else Ok inter
  end.

(** [iter_max(sim_matrix, max_count)], called where the module-level
    names are [g].  The body never mentions [sim_matrix]: it reads the
    name [sim].  An array with no row or no column has no argmax. *)
Definition iter_max_fuel (fuel : nat) (g : globals) (sim_matrix : matrix)
           (max_count : Z) : outcome matrix :=
  match g_sim g with
  | None => Raise NameError
  | Some sim =>
      let '(m, n) := shape sim in
      if Nat.eqb m 0 || Nat.eqb n 0 then Raise ValueError
      else
        let inter := intersection0 sim in
        if Nat.leb (Nat.min m n) 2 then Ok inter
        else while_loop fuel sim m n max_count inter (zeros m n) 0
  end.

Definition iter_max (g : globals) (sim_matrix : matrix) (max_count : Z)
  : outcome matrix :=
  iter_max_fuel (Z.to_nat (max_count + 1) + 1) g sim_matrix max_count.

(** The accumulator after round 0 and [j] refinement rounds. *)
Fixpoint accumulated (sim : matrix) (m n : nat) (j : nat) : matrix :=
  match j with
  | O => madd (intersection0 sim) (zeros m n)
  | S j' =>
      let acc := accumulated sim m n j' in
      madd acc (new_matches sim m n acc)
  end.

(** [np.array_equal(inter + new_inter, inter)]: a round that adds
    nothing to the accumulator [acc]. *)
Definition converged (sim : matrix) (m n : nat) (acc : matrix) : bool :=
  array_equal (madd acc (new_matches sim m n acc)) acc.

(** The masks of a refinement round as the specification words them,
    from the satisfied rows and columns: [rowSatisfied[i]] is the
    clipped row sum of the accumulator, 1 on a row that has a match. *)
Definition row_satisfied (inter : matrix) (i : nat) : F :=
  Fclip F0 F1 (Fsum (nth i inter [])).

Definition col_satisfied (inter : matrix) (j : nat) : F :=
  Fclip F0 F1 (Fsum (col j inter)).

Definition spec_damping_mask (m n : nat) (inter : matrix) : matrix :=
  build m n (fun i j =>
    Fclip F0 F1 (Fadd (Fmul F09 (row_satisfied inter i))
                      (Fmul F09 (col_satisfied inter j)))).

Definition spec_damped_sim (sim : matrix) (m n : nat) (inter : matrix) : matrix :=
  build m n (fun i j =>
    Fmul (get sim i j) (Fsub F1 (get (spec_damping_mask m n inter) i j))).

Definition spec_zero_mask (m n : nat) (inter : matrix) : matrix :=
  build m n (fun i j =>
    Fsub F1 (Fmul (Fsub F1 (row_satisfied inter i))
                  (Fsub F1 (col_satisfied inter j)))).

(** *** Entropy scoring and mask construction *)

Context {EF : External F}.

(** [entropy_x]: one normalised entropy per row. *)
Definition entropy_x (sim : matrix) : list F :=
  let '(m, n) := shape sim in
  let norm_x := map normalize_l1 sim in
  map (fun i => Fdiv (entropy (nth i norm_x [])) (np_log (Fofnat n))) (seq 0 m).

(** [entropy_y]: one normalised entropy per column; column [j] of
    [norm_y] is the normalised column [j] of [sim]. *)
Definition entropy_y (sim : matrix) : list F :=
  let '(m, n) := shape sim in
  map (fun j => Fdiv (entropy (normalize_l1 (col j sim))) (np_log (Fofnat m)))
      (seq 0 n).

(** [np.minimum(mask_x, mask_y)] *)
Definition min_entropy (sim : matrix) : matrix :=
  let '(m, n) := shape sim in
  build m n (fun i j =>
    Fminimum (nth i (entropy_x sim) F0) (nth j (entropy_y sim) F0)).

Definition gather_null_aligns (sim_matrix inter_matrix : matrix) : list F :=
  let '(m, n) := shape sim_matrix in
  if Nat.leb (Nat.min m n) 2 then []
  else
    let all_ents := mmul inter_matrix (min_entropy sim_matrix) in
    filter (fun x => Fltb F0 x) (concat all_ents).

(** [rowEntropy[i]]: the entropy of the L1-normalised row [i], over
    [log n]; [colEntropy[j]]: that of column [j], over [log m]. *)
Definition row_entropy (sim : matrix) (i : nat) : F :=
  let '(m, n) := shape sim in
  Fdiv (entropy (normalize_l1 (nth i sim []))) (np_log (Fofnat n)).

Definition col_entropy (sim : matrix) (j : nat) : F :=
  let '(m, n) := shape sim in
  Fdiv (entropy (normalize_l1 (col j sim))) (np_log (Fofnat m)).

(** The confidence score of cell (i, j). *)
Definition cell_score (sim : matrix) (i j : nat) : F :=
  Fminimum (row_entropy sim i) (col_entropy sim j).

(** Entropy scoring as the specification words it: one score
    [min(rowEntropy[i], colEntropy[j])] per cell with [A[i,j] > 0]. *)
Definition spec_scores (sim_matrix inter_matrix : matrix) : list F :=
  let '(m, n) := shape sim_matrix in
  if Nat.leb (Nat.min m n) 2 then []
  else
    flat_map (fun i =>
      flat_map (fun j =>
        if Fltb F0 (get inter_matrix i j)
        then [cell_score sim_matrix i j]
        else [])
        (seq 0 n))
      (seq 0 m).

Definition apply_percentile_null_aligns (sim_matrix : matrix) (ratio : F)
  : matrix :=
  let '(m, n) := shape sim_matrix in
  if Nat.leb (Nat.min m n) 2 then ones m n
  else mmap (fun e => if Fltb ratio e then F0 else F1) (min_entropy sim_matrix).

(** *** The calibration protocol of [__main__] *)

(** [sorted(l)]: a stable sort by [<]. *)
Fixpoint insert_sorted (x : F) (l : list F) : list F :=
  match l with
  | [] => [x]
  | y :: t => if Fltb x y then x :: y :: t else y :: insert_sorted x t
  end.

Definition sorted (l : list F) : list F :=
  fold_left (fun acc x => insert_sorted x acc) l [].

(** [int(k * len(pool))] *)
Definition threshold_rank (k : F) (len : nat) : outcome Z :=
  Ftrunc (Fmul k (Fofnat len)).

(** [sorted(pool)[int(k * len(pool))]] *)
Definition percentile_threshold (k : F) (pool : list F) : outcome F :=
  let s := sorted pool in
  i <- threshold_rank k (length pool) ;;
  py_index s i.

Context {MF : Matchers F}.

(** The command line: [--null-align], [-distortion], and the names
    that [--matching-methods] selects. *)
Record args : Type := {
  null_align : F;
  distortion : F;
  matching_methods : list string
}.

(** The body of the first loop, for one sentence pair whose similarity
    matrix is [raw]: add the scores of each method to its pool. *)
Definition pool_sentence (a : args) (entropies : dict (list F)) (raw : matrix)
  : outcome (dict (list F)) :=
  let sim := apply_distortion raw (distortion a) in
  let '(forward, backward) := get_alignment_matrix sim in
  let inter := symmetrize forward backward in
  let mwmf := max_weight_matching sim in
  itermax <- iter_max {| g_sim := Some sim |} sim 1 ;;
  let methods_matrix :=
    [("forward", forward); ("backward", backward); ("inter", inter);
     ("mwmf", mwmf); ("itermax", itermax)]%string in
  for_each (keys entropies)
    (fun ents m =>
       pool <- lookup ents m ;;
       mat <- lookup methods_matrix m ;;
       Ok (dict_set ents m (pool ++ gather_null_aligns sim mat)))
    entropies.

(** Phase 1: the pools, then [null_thresh]. *)
Definition calibrate (a : args) (corpus : list matrix) : outcome (dict F) :=
  let entropies := dict_of (map (fun x => (x, [])) (matching_methods a)) in
  entropies <- for_each corpus (pool_sentence a) entropies ;;
  pairs <- map_each
             (fun m => pool <- lookup entropies m ;;
                       t <- percentile_threshold (null_align a) pool ;;
                       Ok (m, t))
             (keys entropies) ;;
  Ok (dict_of pairs).

(** The body of the second loop, up to [all_mats]. *)
Definition align_sentence (a : args) (null_thresh : dict F) (raw : matrix)
  : outcome (dict matrix) :=
  let sim := apply_distortion raw (distortion a) in
  mask_nulls <-
    (if Fltb (null_align a) F1
     then pairs <- map_each
                     (fun mmethod =>
                        t <- lookup null_thresh mmethod ;;
                        Ok (mmethod, apply_percentile_null_aligns sim t))
                     (matching_methods a) ;;
          Ok (dict_of pairs)
     else Ok []) ;;
  let '(fwd, rev) := get_alignment_matrix sim in
  let inter := symmetrize fwd rev in
  let mwmf := max_weight_matching sim in
  itermax <- iter_max {| g_sim := Some sim |} sim 1 ;;
  if Fltb (null_align a) F1
  then
    mask_inter <- lookup mask_nulls "inter"%string ;;
    let inter := mmul inter mask_inter in
    mask_mwmf <- lookup mask_nulls "mwmf"%string ;;
    let mwmf := mmul mwmf mask_mwmf in
    mask_itermax <- lookup mask_nulls "itermax"%string ;;
    let itermax := mmul itermax mask_itermax in
    Ok [("fwd", fwd); ("rev", rev); ("inter", inter); ("mwmf", mwmf);
        ("itermax", itermax)]%string
  else
    Ok [("fwd", fwd); ("rev", rev); ("inter", inter); ("mwmf", mwmf);
        ("itermax", itermax)]%string.

(** The run: [all_mats] of every sentence pair, in corpus order. *)
Definition main (a : args) (corpus : list matrix)
  : outcome (list (dict matrix)) :=
  null_thresh <-
    (if Fltb (null_align a) F1 then calibrate a corpus else Ok []) ;;
  map_each (align_sentence a null_thresh) corpus.

(** A run with no null-alignment filter, as the specification describes
    it: distortion, then the matchers, whose matrices pass through. *)
Definition run_unfiltered (a : args) (corpus : list matrix)
  : outcome (list (dict matrix)) :=
  map_each
    (fun raw =>
       let sim := apply_distortion raw (distortion a) in
       let '(fwd, rev) := get_alignment_matrix sim in
       itermax <- iter_max {| g_sim := Some sim |} sim 1 ;;
       Ok [("fwd", fwd); ("rev", rev); ("inter", symmetrize fwd rev);
           ("mwmf", max_weight_matching sim); ("itermax", itermax)]%string)
    corpus.

End Program.

(** ** Binary64 floats *)

(** [float(i)] *)
Definition float_of_nat (n : nat) : float :=
  PrimFloat.of_uint63 (Uint63.of_Z (Z.of_nat n)).

(** [int(x)]: truncation toward zero; [ValueError] on a NaN,
    [OverflowError] on an infinity. *)
Definition float_trunc (x : float) : outcome Z :=
  match Prim2SF x with
  | S754_zero _ => Ok 0%Z
  | S754_finite s mant e =>
      let a := match e with
               | Z0 => Zpos mant
               | Zpos p => Z.shiftl (Zpos mant) (Zpos p)
               | Zneg p => Z.shiftr (Zpos mant) (Zpos p)
               end in
      Ok (if s then Z.opp a else a)
  | S754_infinity _ => Raise OverflowError
  | S754_nan => Raise ValueError
  end.

(** The literal [0.9] is the binary64 number 0x1.ccccccccccccdp-1. *)
#[export] Instance float_arith : Arith float := {|
  F0 := 0%float;
  F1 := 1%float;
  F09 := 0x1.ccccccccccccdp-1%float;
  Fadd := PrimFloat.add;
  Fsub := PrimFloat.sub;
  Fmul := PrimFloat.mul;
  Fdiv := PrimFloat.div;
  Fltb := PrimFloat.ltb;
  Fleb := PrimFloat.leb;
  Feqb := PrimFloat.eqb;
  Fofnat := float_of_nat;
  Ftrunc := float_trunc
|}.

(** ** Real numbers *)

Definition Rltb (x y : R) : bool := if Rlt_dec x y then true else false.
Definition Rleb (x y : R) : bool := if Rle_dec x y then true else false.
Definition Reqb (x y : R) : bool := if Req_dec_T x y then true else false.

(** Truncation toward zero. *)
Definition R_trunc (x : R) : Z :=
  if Rle_dec 0 x then Zfloor x else (- Zfloor (- x))%Z.

#[export] Instance real_arith : Arith R := {|
  F0 := 0%R;
  F1 := 1%R;
  F09 := (9 / 10)%R;
  Fadd := Rplus;
  Fsub := Rminus;
  Fmul := Rmult;
  Fdiv := Rdiv;
  Fltb := Rltb;
  Fleb := Rleb;
  Feqb := Reqb;
  Fofnat := INR;
  Ftrunc := fun x => Ok (R_trunc x)
|}.

(** The library functions on the reals, for vectors with no negative
    entry: the L1 normalisation of scikit-learn (a vector of norm 0 is
    left as it is) and the Shannon entropy of scipy, which first
    divides the vector by its sum, with [0 * log 0 = 0]. *)
Definition R_normalize_l1 (v : list R) : list R :=
  let norm := fold_right Rplus 0%R (map Rabs v) in
  let norm := if Req_dec_T norm 0 then 1%R else norm in
  map (fun x => (x / norm)%R) v.

Definition R_entr (x : R) : R :=
  if Rlt_dec 0 x then (- x * ln x)%R else 0%R.

Definition R_entropy (pk : list R) : R :=
  let total := fold_right Rplus 0%R pk in
  fold_right Rplus 0%R (map (fun x => R_entr (x / total)) pk).

#[export] Instance real_external : External R := {|
  np_log := ln;
  entropy := R_entropy;
  normalize_l1 := R_normalize_l1
|}.

(** ** The value of a binary64 number *)

(** A finite binary64 number is a sign, a mantissa and an exponent; its
    value is [m * 2^e]. *)
Definition bpow (e : Z) : R := powerRZ 2 e.
Definition fval (m e : Z) : R := (IZR m * bpow e)%R.
Definition SF2R (x : spec_float) : R :=
  match x with
  | S754_finite s m e => if s then (- fval (Zpos m) e)%R else fval (Zpos m) e
  | _ => 0%R
  end.

(** The state of the right shift of the mantissa [m] by [k] bits: what
    is left of the mantissa, the last bit shifted out, and whether a
    bit shifted out before it was set. *)
Definition shr_inv (m k : Z) (mrs : shr_record) : Prop :=
  exists low : Z,
    (0 <= shr_m mrs /\
     2 * m = 2 * shr_m mrs * 2 ^ k + Z.b2z (shr_r mrs) * 2 ^ k + low /\
     0 <= low < 2 ^ k /\
     (shr_s mrs = false -> low = 0))%Z.

(** ** Sample inputs *)

(** The 2 x 3 matrix of the specification's end-to-end example. *)
Definition sim_2x3 : matrix float :=
  [[0x1.ccccccccccccdp-1; 0x1.999999999999ap-4; 0];
   [0; 0x1.999999999999ap-3; 0x1.999999999999ap-1]]%float.

Definition sim_3x3 : matrix float := [[3; 2; 1]; [2; 1; 0]; [1; 0; 0]]%float.

Definition sim_diag : matrix float := [[1; 0]; [0; 1]]%float.
Definition sim_anti : matrix float := [[0; 1]; [1; 0]]%float.

(** The 3 x 3 identity over the reals. *)
Definition eye3 : matrix R := [[1; 0; 0]; [0; 1; 0]; [0; 0; 1]]%R.

(** A 0/1 matrix of shape (m, n). *)
Definition binary (m n : nat) (M : matrix R) : Prop :=
  rect m n M /\
  forall i j, i < m -> j < n -> get M i j = 0%R \/ get M i j = 1%R.

(** Command lines with the filter on, over the reals, and a table of
    thresholds. *)
Definition filter_args : args (F := R) :=
  {| null_align := (1 / 2)%R; distortion := 0%R;
     matching_methods := ["inter"; "mwmf"; "itermax"]%string |}.

Definition filter_args_fwd : args (F := R) :=
  {| null_align := (1 / 2)%R; distortion := 0%R;
     matching_methods := ["inter"; "fwd"]%string |}.

Definition filter_thresholds : dict R :=
  [("inter", 0%R); ("mwmf", 0%R); ("itermax", 0%R)]%string.

(** The external matchers are opaque here; where a run has to be
    evaluated they are stood in for by the argmax matchers of this
    file. *)
Definition argmax_matchers {F : Type} {AF : Arith F} : Matchers F := {|
  get_alignment_matrix := fun sim =>
    let '(m, n) := shape sim in
    (argmax_rows n sim, transpose m (argmax_cols m n sim));
  symmetrize := mmul;
  max_weight_matching := intersection0
|}.

(** ** The glue of [__main__] *)

(** *** The model name *)

Definition TR_Models : list string :=
  ["bert-base-uncased"; "bert-base-multilingual-cased";
   "bert-base-multilingual-uncased"; "xlm-mlm-100-1280"; "roberta-base";
   "xlm-roberta-base"; "xlm-roberta-large"]%string.

(** [s[3:]] *)
Definition drop3 (s : string) : string :=
  substring 3 (String.length s - 3) s.

(** Lines 151-157: the two short names are expanded, then the name
    without its first three characters is looked up in [TR_Models].
    [None] is the [exit()] after "The model ... is not recognised!". *)
Definition resolve_model (model : string) : option string :=
  let model :=
    if String.eqb model "bert" then "tr:bert-base-multilingual-cased"%string
    else if String.eqb model "xlmr" then "tr:xlm-roberta-base"%string
    else model in
  if negb (existsb (String.eqb (drop3 model)) TR_Models)
  then None
  else Some model.

(** [EmbeddingLoader.__init__] builds a model and a tokenizer only
    under [model.startswith("tr:")]. *)
Definition loader_has_tokenizer (model : string) : bool :=
  prefix "tr:" model.

(** *** Loading the two corpora *)

(** [l[:k]] *)
Definition py_slice_to {A : Type} (l : list A) (k : Z) : list A :=
  let len := Z.of_nat (length l) in
  let stop := if (k <? 0)%Z then Z.max 0 (k + len) else Z.min k len in
  firstn (Z.to_nat stop) l.

(** Lines 169-197, on the sentences of the two files: both corpora are
    cut at [max_sent_id], the sentences are tokenized pair by pair
    over the length of the first corpus, and the lengths are compared
    afterwards.  [tokenize] stands for the split into words and the
    tokenizer of the model. *)
Definition load_corpora {Sent Toks : Type} (tokenize : Sent -> Toks)
           (corpus1 corpus2 : list Sent) (max_sent_id : Z)
  : outcome (list (Toks * Toks)) :=
  let c1 := py_slice_to corpus1 max_sent_id in
  let c2 := py_slice_to corpus2 max_sent_id in
  words_tokens <-
    map_each (fun sent_id =>
                s1 <- py_index c1 (Z.of_nat sent_id) ;;
                s2 <- py_index c2 (Z.of_nat sent_id) ;;
                Ok (tokenize s1, tokenize s2))
             (seq 0 (length c1)) ;;
  if negb (Nat.eqb (Nat.min (length c1) (length c2))
                   (Nat.max (length c1) (length c2)))
  then Raise ValueError
  else Ok words_tokens.

(** *** The maps between sub-tokens and words *)

(** [l[-1].append(x)] on a list of lists. *)
Fixpoint append_last {A : Type} (ll : list (list A)) (x : A) : list (list A) :=
  match ll with
  | [] => []
  | [l] => [l ++ [x]]
  | l :: t => l :: append_last t x
  end.

(** Lines 255-257: [b2w_map += [i for x in wlist]] for the word [i]. *)
Fixpoint b2w_words {T : Type} (i : nat) (tokens : list (list T))
         (b2w_map : list nat) : list nat :=
  match tokens with
  | [] => b2w_map
  | wlist :: rest => b2w_words (S i) rest (b2w_map ++ map (fun _ => i) wlist)
  end.

Definition b2w_map {T : Type} (tokens : list (list T)) : list nat :=
  b2w_words 0 tokens [].

(** Lines 217-221: the inner loop appends [cnt] to the last list and
    counts on; the outer loop opens a list for each word. *)
Fixpoint w2b_word {T : Type} (wlist : list T) (st : list (list nat) * nat)
  : list (list nat) * nat :=
  match wlist with
  | [] => st
  | _ :: rest => w2b_word rest (append_last (fst st) (snd st), S (snd st))
  end.

Fixpoint w2b_words {T : Type} (tokens : list (list T))
         (st : list (list nat) * nat) : list (list nat) * nat :=
  match tokens with
  | [] => st
  | wlist :: rest => w2b_words rest (w2b_word wlist (fst st ++ [[]], snd st))
  end.

Definition w2b_map {T : Type} (tokens : list (list T)) : list (list nat) :=
  fst (w2b_words tokens ([], 0)).

(** The two maps in closed form: the sub-token positions of each word,
    counted from [cnt], and the word of each sub-token, the first word
    being [i]. *)
Fixpoint word_spans {T : Type} (cnt : nat) (tokens : list (list T))
  : list (list nat) :=
  match tokens with
  | [] => []
  | wlist :: rest =>
      seq cnt (length wlist) :: word_spans (cnt + length wlist) rest
  end.

Fixpoint token_owners {T : Type} (i : nat) (tokens : list (list T)) : list nat :=
  match tokens with
  | [] => []
  | wlist :: rest => repeat i (length wlist) ++ token_owners (S i) rest
  end.

(** * Properties *)

(** ** Lists and arrays *)

Lemma length_map2 {A B C : Type} (f : A -> B -> C) (l1 : list A) (l2 : list B) :
  length (map2 f l1 l2) = Nat.min (length l1) (length l2).
Proof.
  revert l2; induction l1 as [|a t IH]; intros [|b t2]; simpl; auto.
Qed.

Lemma nth_map2 {A B C : Type} (f : A -> B -> C) (l1 : list A) (l2 : list B)
      (i : nat) (da : A) (db : B) (dc : C) :
  i < length l1 -> i < length l2 ->
  nth i (map2 f l1 l2) dc = f (nth i l1 da) (nth i l2 db).
Proof.
  revert l2 i; induction l1 as [|a t IH]; intros [|b t2] [|i]; simpl;
    intros H1 H2; try lia; auto.
  apply IH; lia.
Qed.

Lemma nth_map_seq {A : Type} (f : nat -> A) (n i : nat) (d : A) :
  i < n -> nth i (map f (seq 0 n)) d = f i.
Proof.
  intros Hi.
  rewrite (nth_indep _ d (f 0)) by (rewrite length_map, length_seq; exact Hi).
  rewrite (map_nth f (seq 0 n) 0 i), seq_nth by exact Hi.
  reflexivity.
Qed.

Lemma map_each_ext {A B : Type} (f g : A -> outcome B) (l : list A) :
  (forall x, f x = g x) -> map_each f l = map_each g l.
Proof.
  intros E; induction l as [|x t IH]; simpl; [reflexivity|].
  rewrite E, IH; reflexivity.
Qed.

Lemma flat_map_ext_in {A B : Type} (f g : A -> list B) (l : list A) :
  (forall x, In x l -> f x = g x) -> flat_map f l = flat_map g l.
Proof.
  induction l as [|x t IH]; intros E; simpl; [reflexivity|].
  rewrite (E x (or_introl eq_refl)), IH; [reflexivity|].
  intros y Hy; apply E; right; exact Hy.
Qed.

Lemma filter_map_cells {A B : Type} (p : B -> bool) (f : A -> B) (l : list A) :
  filter p (map f l) = flat_map (fun x => if p (f x) then [f x] else []) l.
Proof.
  induction l as [|x t IH]; simpl; [reflexivity|].
  destruct (p (f x)); rewrite IH; reflexivity.
Qed.

Lemma filter_concat_map {A B : Type} (p : B -> bool) (f : A -> list B) (l : list A) :
  filter p (concat (map f l)) = flat_map (fun x => filter p (f x)) l.
Proof.
  induction l as [|x t IH]; simpl; [reflexivity|].
  rewrite filter_app, IH; reflexivity.
Qed.

Section Theory.

Context {F : Type} {AF : Arith F}.

Local Abbreviation matrix := (matrix F).

Lemma rect_row (m n : nat) (M : matrix) (i : nat) :
  rect m n M -> i < m -> length (nth i M []) = n.
Proof.
  intros [Hm Hr] Hi.
  rewrite Forall_forall in Hr; apply Hr, nth_In; lia.
Qed.

Lemma shape_rect (m n : nat) (M : matrix) :
  rect m n M -> 0 < m -> shape M = (m, n).
Proof.
  intros [Hm Hr] Hpos; unfold shape; rewrite Hm; f_equal.
  destruct M as [|r t]; simpl in *; [lia|].
  inversion Hr; assumption.
Qed.

Lemma rect_build (m n : nat) (f : nat -> nat -> F) : rect m n (build m n f).
Proof.
  split.
  - unfold build; rewrite length_map, length_seq; reflexivity.
  - apply Forall_forall; intros r Hin; unfold build in Hin.
    apply in_map_iff in Hin as [i [<- _]].
    rewrite length_map, length_seq; reflexivity.
Qed.

Lemma get_build (m n : nat) (f : nat -> nat -> F) (i j : nat) :
  i < m -> j < n -> get (build m n f) i j = f i j.
Proof.
  intros Hi Hj; unfold get, build.
  rewrite (nth_map_seq (fun i => map (fun j => f i j) (seq 0 n))) by exact Hi.
  apply (nth_map_seq (f i)); exact Hj.
Qed.

Lemma rect_mmap (m n : nat) (f : F -> F) (M : matrix) :
  rect m n M -> rect m n (mmap f M).
Proof.
  intros [Hm Hr]; split; unfold mmap.
  - rewrite length_map; exact Hm.
  - apply Forall_forall; intros r Hin.
    apply in_map_iff in Hin as [r' [<- Hin]].
    rewrite length_map; rewrite Forall_forall in Hr; auto.
Qed.

Lemma get_mmap (m n : nat) (f : F -> F) (M : matrix) (i j : nat) :
  rect m n M -> i < m -> j < n -> get (mmap f M) i j = f (get M i j).
Proof.
  intros HM Hi Hj; unfold get, mmap.
  assert (Hlen : length (nth i M []) = n) by (eapply rect_row; eauto).
  destruct HM as [Hm _].
  rewrite (nth_indep _ [] (map f [])) by (rewrite length_map; lia).
  rewrite map_nth.
  rewrite (nth_indep _ F0 (f F0)) by (rewrite length_map; lia).
  apply map_nth.
Qed.

Lemma rect_mmap2 (m n : nat) (f : F -> F -> F) (A B : matrix) :
  rect m n A -> rect m n B -> rect m n (mmap2 f A B).
Proof.
  intros [HA HrA] [HB HrB]; split; unfold mmap2.
  - rewrite length_map2; lia.
  - clear HA HB; revert B HrB.
    induction HrA as [|a t Ha _ IH]; intros [|b t2] HrB; simpl; constructor.
    + inversion HrB; subst. rewrite length_map2; lia.
    + apply IH; inversion HrB; assumption.
Qed.

Lemma get_mmap2 (m n : nat) (f : F -> F -> F) (A B : matrix) (i j : nat) :
  rect m n A -> rect m n B -> i < m -> j < n ->
  get (mmap2 f A B) i j = f (get A i j) (get B i j).
Proof.
  intros HA HB Hi Hj; unfold get, mmap2.
  assert (La : length (nth i A []) = n) by (eapply rect_row; eauto).
  assert (Lb : length (nth i B []) = n) by (eapply rect_row; eauto).
  destruct HA as [HA _], HB as [HB _].
  rewrite (nth_map2 (map2 f) A B [] [] []) by lia.
  apply nth_map2; lia.
Qed.

Lemma rect_transpose (r c : nat) (M : matrix) :
  rect r c M -> rect c r (transpose c M).
Proof.
  intros [Hm _]; split; unfold transpose.
  - rewrite length_map, length_seq; reflexivity.
  - apply Forall_forall; intros l Hin.
    apply in_map_iff in Hin as [j [<- _]].
    unfold col; rewrite length_map; exact Hm.
Qed.

Lemma get_transpose (r c : nat) (M : matrix) (i j : nat) :
  rect r c M -> i < r -> j < c -> get (transpose c M) j i = get M i j.
Proof.
  intros [Hm _] Hi Hj; unfold get, transpose.
  rewrite (nth_map_seq (fun j => col j M)) by exact Hj.
  unfold col.
  rewrite (nth_indep _ F0 (nth j [] F0)) by (rewrite length_map; lia).
  apply (map_nth (fun r => nth j r F0)).
Qed.

(** Two arrays of one shape with the same cells are the same array. *)
Lemma matrix_ext (m n : nat) (A B : matrix) :
  rect m n A -> rect m n B ->
  (forall i j, i < m -> j < n -> get A i j = get B i j) -> A = B.
Proof.
  intros HA HB E.
  apply (nth_ext A B [] []).
  - destruct HA, HB; lia.
  - intros i Hi.
    assert (Hi' : i < m) by (destruct HA; lia).
    apply (nth_ext _ _ F0 F0).
    + rewrite (rect_row HA Hi'), (rect_row HB Hi'); reflexivity.
    + intros j Hj; rewrite (rect_row HA Hi') in Hj; apply (E i j); assumption.
Qed.

(** ** apply_distortion *)

Lemma pos_x_build (m n : nat) :
  pos_x m n = build m n (fun _ y => Fdiv (Fofnat y) (Fofnat (n - 1))).
Proof. reflexivity. Qed.

Lemma pos_y_build (m n : nat) :
  pos_y m n = build n m (fun _ x => Fdiv (Fofnat x) (Fofnat (m - 1))).
Proof. reflexivity. Qed.

Lemma rect_distortion_mask (m n : nat) (r : F) : rect m n (distortion_mask m n r).
Proof.
  unfold distortion_mask; rewrite pos_x_build, pos_y_build.
  apply rect_mmap, rect_mmap2; [|apply rect_transpose]; apply rect_build.
Qed.

Lemma get_distortion_mask (m n : nat) (r : F) (i j : nat) :
  i < m -> j < n ->
  get (distortion_mask m n r) i j =
  let d := Fsub (Fdiv (Fofnat j) (Fofnat (n - 1)))
                (Fdiv (Fofnat i) (Fofnat (m - 1))) in
  Fsub F1 (Fmul (Fmul d d) r).
Proof.
  intros Hi Hj; unfold distortion_mask; rewrite pos_x_build, pos_y_build.
  set (px := fun (_ y : nat) => Fdiv (Fofnat y) (Fofnat (n - 1))).
  set (py := fun (_ x : nat) => Fdiv (Fofnat x) (Fofnat (m - 1))).
  pose proof (rect_build m n px) as Hx.
  pose proof (rect_build n m py) as Hy.
  rewrite (get_mmap _ (rect_mmap2 Fsub Hx (rect_transpose Hy)) Hi Hj).
  rewrite (get_mmap2 Fsub Hx (rect_transpose Hy) Hi Hj).
  rewrite (get_transpose Hy Hj Hi).
  rewrite (get_build px Hi Hj), (get_build py Hj Hi).
  reflexivity.
Qed.

(** [apply_distortion], branch by branch. *)
Lemma apply_distortion_cells (S : matrix) (r : F) (m n : nat) :
  shape S = (m, n) ->
  (m < 2 \/ n < 2 \/ Feqb r F0 = true -> apply_distortion S r = S) /\
  (2 <= m -> 2 <= n -> Feqb r F0 = false -> rect m n S ->
   rect m n (apply_distortion S r) /\
   forall i j, i < m -> j < n ->
     get (apply_distortion S r) i j =
     Fmul (get S i j)
          (Fsub F1
             (Fmul (Fmul (Fsub (Fdiv (Fofnat j) (Fofnat (n - 1)))
                               (Fdiv (Fofnat i) (Fofnat (m - 1))))
                         (Fsub (Fdiv (Fofnat j) (Fofnat (n - 1)))
                               (Fdiv (Fofnat i) (Fofnat (m - 1)))))
                   r))).
Proof.
  intros Hs; unfold apply_distortion; rewrite Hs; split.
  - intros [Hm | [Hn | Hr]].
    + apply Nat.ltb_lt in Hm; rewrite Hm; reflexivity.
    + apply Nat.ltb_lt in Hn; rewrite Hn, orb_true_r; reflexivity.
    + rewrite Hr, orb_true_r; reflexivity.
  - intros Hm Hn Hr HS.
    apply Nat.ltb_ge in Hm, Hn; rewrite Hm, Hn, Hr; simpl.
    pose proof (rect_distortion_mask m n r) as HD.
    split; [apply rect_mmap2; assumption|].
    intros i j Hi Hj; unfold mmul.
    rewrite (get_mmap2 Fmul HS HD Hi Hj), (get_distortion_mask r Hi Hj).
    reflexivity.
Qed.

(** ** iter_max *)

(** The parameter [sim_matrix] is dead: the result is a function of the
    module-level [sim] and of the round budget alone. *)
Lemma iter_max_ignores_parameter (g : globals) (p1 p2 : matrix) (K : Z) :
  iter_max g p1 K = iter_max g p2 K.
Proof. reflexivity. Qed.

Lemma iter_max_unbound (p : matrix) (K : Z) :
  iter_max {| g_sim := None |} p K = Raise NameError.
Proof. reflexivity. Qed.

Lemma iter_max_small (g : globals) (p S : matrix) (K : Z) (m n : nat) :
  g_sim g = Some S -> shape S = (m, n) -> 0 < m -> 0 < n ->
  Nat.min m n <= 2 ->
  iter_max g p K = Ok (intersection0 S).
Proof.
  intros Hg Hs Hm Hn Hmin; unfold iter_max, iter_max_fuel.
  rewrite Hg, Hs.
  destruct (Nat.eqb_spec m 0) as [E|_]; [lia|].
  destruct (Nat.eqb_spec n 0) as [E|_]; [lia|]; simpl.
  apply Nat.leb_le in Hmin; rewrite Hmin; reflexivity.
Qed.

(** More fuel does not change a result. *)
Lemma while_loop_fuel_mono (sim : matrix) (m n : nat) (K : Z) (fuel fuel' : nat) :
  forall inter new_inter count R,
    while_loop fuel sim m n K inter new_inter count = Ok R ->
    fuel <= fuel' ->
    while_loop fuel' sim m n K inter new_inter count = Ok R.
Proof.
  revert fuel'; induction fuel as [|f IH]; intros fuel' inter nw c R HR Hle.
  - discriminate HR.
  - destruct fuel' as [|f']; [lia|]; simpl in *.
    destruct (c <=? K)%Z; [|exact HR].
    destruct (array_equal _ _); [exact HR|].
    apply IH; [exact HR | lia].
Qed.

(** The loop entered with [count = c] and [inter + new_inter] equal to
    the accumulator of round [c], with [d] passes of the guard left. *)
Lemma while_loop_rounds (sim : matrix) (m n : nat) (K : Z) :
  forall d c fuel inter new_inter,
    (Z.of_nat c + Z.of_nat d = K + 1)%Z ->
    d < fuel ->
    madd inter new_inter = accumulated sim m n c ->
    exists R,
      while_loop fuel sim m n K inter new_inter (Z.of_nat c) = Ok R /\
      ((d = 0 /\ R = inter) \/
       exists j, c <= j /\ (Z.of_nat j <= K)%Z /\
                 R = accumulated sim m n j /\
                 (forall i, c <= i < j ->
                    converged sim m n (accumulated sim m n i) = false) /\
                 (Z.of_nat j = K \/
                  converged sim m n (accumulated sim m n j) = true)).
Proof.
  induction d as [|d IH]; intros c fuel inter nw Hc Hf Hacc.
  - destruct fuel as [|f]; [lia|]; simpl.
    destruct (Z.leb_spec (Z.of_nat c) K) as [Hle|_]; [lia|].
    exists inter; split; [reflexivity | left; split; reflexivity].
  - destruct fuel as [|f]; [lia|]; simpl.
    destruct (Z.leb_spec (Z.of_nat c) K) as [_|Hgt]; [|lia].
    rewrite Hacc.
    fold (converged sim m n (accumulated sim m n c)).
    destruct (converged sim m n (accumulated sim m n c)) eqn:Hfix.
    + exists (accumulated sim m n c); split; [reflexivity|right].
      exists c; repeat split; auto; lia.
    + destruct (IH (S c) f (accumulated sim m n c)
                   (new_matches sim m n (accumulated sim m n c)))
        as [R [HR Hcase]]; [lia | lia | reflexivity |].
      replace (Z.of_nat c + 1)%Z with (Z.of_nat (S c)) by lia.
      exists R; split; [exact HR|right].
      destruct Hcase as [[Hd HRi] | [j [Hj [HjK [HRj [Hbefore Hstop]]]]]].
      * exists c; subst d; repeat split; auto; lia.
      * exists j; split; [lia|]; split; [exact HjK|]; split; [exact HRj|].
        split; [|exact Hstop].
        intros i Hi.
        destruct (Nat.eq_dec i c) as [->|Hne]; [exact Hfix|].
        apply Hbefore; lia.
Qed.

(** The loop does not run when the budget is negative. *)
Lemma while_loop_negative (sim : matrix) (m n : nat) (K : Z) (fuel : nat)
      (inter new_inter : matrix) :
  (K < 0)%Z -> 0 < fuel ->
  while_loop fuel sim m n K inter new_inter 0 = Ok inter.
Proof.
  intros HK Hf; destruct fuel as [|f]; [lia|]; simpl.
  destruct (Z.leb_spec 0 K); [lia | reflexivity].
Qed.

Lemma while_loop_returns (sim : matrix) (m n : nat) (K : Z) (fuel : nat) :
  Z.to_nat (K + 1) + 1 <= fuel ->
  exists R, while_loop fuel sim m n K (intersection0 sim) (zeros m n) 0 = Ok R.
Proof.
  intros Hf.
  destruct (Z.lt_ge_cases K 0) as [Hneg|Hpos].
  - exists (intersection0 sim); apply while_loop_negative; lia.
  - destruct (@while_loop_rounds sim m n K (Z.to_nat (K + 1)) 0 fuel
                (intersection0 sim) (zeros m n)) as [R [HR _]];
      [lia | lia | reflexivity |].
    exists R; exact HR.
Qed.

(** C7.  [iter_max] terminates on every input and every budget: its
    loop never runs out of steps, and more steps change nothing.  With
    a budget [K >= 0], on a matrix with more than two rows and
    columns, the result is the accumulator of round 0 and [j <= K]
    refinement rounds, where [j] is the first round that adds nothing
    to the accumulator, or [K] when there is none. *)
Theorem iter_max_terminates (g : globals) (p : matrix) (K : Z) :
  iter_max g p K <> OutOfFuel /\
  (forall fuel, Z.to_nat (K + 1) + 1 <= fuel ->
     iter_max_fuel fuel g p K = iter_max g p K) /\
  (forall S m n,
     (0 <= K)%Z -> g_sim g = Some S -> shape S = (m, n) ->
     2 < Nat.min m n ->
     exists j,
       j <= Z.to_nat K /\
       iter_max g p K = Ok (accumulated S m n j) /\
       (forall i, i < j -> converged S m n (accumulated S m n i) = false) /\
       (j = Z.to_nat K \/ converged S m n (accumulated S m n j) = true)).
Proof.
  split; [|split].
  - unfold iter_max, iter_max_fuel.
    destruct (g_sim g) as [sim|]; [|discriminate].
    destruct (shape sim) as [m n].
    destruct (Nat.eqb m 0 || Nat.eqb n 0); [discriminate|].
    destruct (Nat.leb (Nat.min m n) 2); [discriminate|].
    destruct (@while_loop_returns sim m n K (Z.to_nat (K + 1) + 1)) as [R HR];
      [lia|].
    rewrite HR; discriminate.
  - intros fuel Hf; unfold iter_max, iter_max_fuel.
    destruct (g_sim g) as [sim|]; [|reflexivity].
    destruct (shape sim) as [m n].
    destruct (Nat.eqb m 0 || Nat.eqb n 0); [reflexivity|].
    destruct (Nat.leb (Nat.min m n) 2); [reflexivity|].
    destruct (@while_loop_returns sim m n K (Z.to_nat (K + 1) + 1)) as [R HR];
      [lia|].
    rewrite HR; eapply while_loop_fuel_mono; eauto.
  - intros S m n HK Hg Hs Hmin; unfold iter_max, iter_max_fuel.
    rewrite Hg, Hs.
    destruct (Nat.eqb_spec m 0) as [E|_]; [lia|].
    destruct (Nat.eqb_spec n 0) as [E|_]; [lia|]; simpl.
    destruct (Nat.leb_spec (Nat.min m n) 2) as [Hle|_]; [lia|].
    destruct (@while_loop_rounds S m n K (Z.to_nat (K + 1)) 0
                (Z.to_nat (K + 1) + 1) (intersection0 S) (zeros m n))
      as [R [HR Hcase]]; [lia | lia | reflexivity |].
    simpl in HR; rewrite HR.
    destruct Hcase as [[Hd _] | [j [_ [HjK [HRj [Hbefore Hstop]]]]]]; [lia|].
    exists j; split; [lia|]; split; [rewrite HRj; reflexivity|].
    split; [intros i Hi; apply Hbefore; lia|].
    destruct Hstop as [Hlast | Hfix]; [left; lia | right; exact Hfix].
Qed.

(** *** The masks of a refinement round *)

Lemma nth_row_sums (inter : matrix) (i : nat) :
  nth i (map Fsum inter) F0 = Fsum (nth i inter []).
Proof. exact (map_nth Fsum inter [] i). Qed.

Lemma get_unmatched_rows (m n : nat) (inter : matrix) (i j : nat) :
  i < m -> j < n ->
  get (unmatched_rows m n inter) i j = Fsub F1 (row_satisfied inter i).
Proof.
  intros Hi Hj; unfold unmatched_rows.
  rewrite (get_build _ Hi Hj), nth_row_sums; reflexivity.
Qed.

Lemma get_unmatched_cols (m n : nat) (inter : matrix) (i j : nat) :
  i < m -> j < n ->
  get (unmatched_cols m n inter) i j = Fsub F1 (col_satisfied inter j).
Proof.
  intros Hi Hj; unfold unmatched_cols.
  rewrite (get_build _ Hi Hj).
  rewrite (nth_map_seq (fun j => Fsum (col j inter))) by exact Hj.
  reflexivity.
Qed.

(** The masks before the guard is applied. *)
Lemma get_soft_mask (m n : nat) (mx my : matrix) (i j : nat) :
  rect m n mx -> rect m n my -> i < m -> j < n ->
  get (mmap (Fclip F0 F1) (madd (mmap (Fmul F09) mx) (mmap (Fmul F09) my))) i j =
  Fclip F0 F1 (Fadd (Fmul F09 (get mx i j)) (Fmul F09 (get my i j))).
Proof.
  intros Hx Hy Hi Hj.
  pose proof (rect_mmap (Fmul F09) Hx) as Hx'.
  pose proof (rect_mmap (Fmul F09) Hy) as Hy'.
  unfold madd.
  rewrite (get_mmap _ (rect_mmap2 Fadd Hx' Hy') Hi Hj).
  rewrite (get_mmap2 Fadd Hx' Hy' Hi Hj).
  rewrite (get_mmap _ Hx Hi Hj), (get_mmap _ Hy Hi Hj).
  reflexivity.
Qed.

Lemma get_hard_mask (m n : nat) (mx my : matrix) (i j : nat) :
  rect m n mx -> rect m n my -> i < m -> j < n ->
  get (mmap (Fsub F1) (mmul (mmap (Fsub F1) mx) (mmap (Fsub F1) my))) i j =
  Fsub F1 (Fmul (Fsub F1 (get mx i j)) (Fsub F1 (get my i j))).
Proof.
  intros Hx Hy Hi Hj.
  pose proof (rect_mmap (Fsub F1) Hx) as Hx'.
  pose proof (rect_mmap (Fsub F1) Hy) as Hy'.
  unfold mmul.
  rewrite (get_mmap _ (rect_mmap2 Fmul Hx' Hy') Hi Hj).
  rewrite (get_mmap2 Fmul Hx' Hy' Hi Hj).
  rewrite (get_mmap _ Hx Hi Hj), (get_mmap _ Hy Hi Hj).
  reflexivity.
Qed.

Lemma rect_competition_mask (m n : nat) (mx my : matrix) :
  rect m n mx -> rect m n my -> rect m n (competition_mask mx my).
Proof.
  intros Hx Hy; unfold competition_mask.
  assert (rect m n (mmap (Fclip F0 F1)
            (madd (mmap (Fmul F09) mx) (mmap (Fmul F09) my)))) as Hm
    by (apply rect_mmap, rect_mmap2; apply rect_mmap; assumption).
  destruct (exhausted mx my); [apply rect_mmap|]; exact Hm.
Qed.

(** The round of [iter_max] whose accumulator is [inter], cell by
    cell.  [ux] is 1 when row [i] has no match yet, [uy] is 1 when
    column [j] has none. *)
Lemma round_masks_cells (S : matrix) (m n : nat) (inter : matrix) (i j : nat) :
  rect m n S -> i < m -> j < n ->
  let mask_x := unmatched_rows m n inter in
  let mask_y := unmatched_cols m n inter in
  let ux := Fsub F1 (row_satisfied inter i) in
  let uy := Fsub F1 (col_satisfied inter j) in
  let soft := Fclip F0 F1 (Fadd (Fmul F09 ux) (Fmul F09 uy)) in
  let hard := Fsub F1 (Fmul (Fsub F1 ux) (Fsub F1 uy)) in
  (exhausted mask_x mask_y = false ->
     get (competition_mask mask_x mask_y) i j = soft /\
     get (zero_mask mask_x mask_y) i j = hard) /\
  (exhausted mask_x mask_y = true ->
     get (competition_mask mask_x mask_y) i j = Fmul soft F0 /\
     get (zero_mask mask_x mask_y) i j = Fmul hard F0) /\
  get (damped_sim S m n inter) i j =
    Fmul (get S i j) (get (competition_mask mask_x mask_y) i j).
Proof.
  intros HS Hi Hj mask_x mask_y ux uy soft hard.
  assert (Hx : rect m n mask_x) by apply rect_build.
  assert (Hy : rect m n mask_y) by apply rect_build.
  assert (Ex : get mask_x i j = ux) by (apply get_unmatched_rows; assumption).
  assert (Ey : get mask_y i j = uy) by (apply get_unmatched_cols; assumption).
  assert (Hsoft : get (mmap (Fclip F0 F1)
             (madd (mmap (Fmul F09) mask_x) (mmap (Fmul F09) mask_y))) i j = soft)
    by (rewrite (get_soft_mask Hx Hy Hi Hj), Ex, Ey; reflexivity).
  assert (Hhard : get (mmap (Fsub F1)
             (mmul (mmap (Fsub F1) mask_x) (mmap (Fsub F1) mask_y))) i j = hard)
    by (rewrite (get_hard_mask Hx Hy Hi Hj), Ex, Ey; reflexivity).
  split; [|split].
  - intros Hg; unfold competition_mask, zero_mask; rewrite Hg; auto.
  - intros Hg; unfold competition_mask, zero_mask; rewrite Hg.
    split.
    + erewrite get_mmap; [rewrite Hsoft; reflexivity | | exact Hi | exact Hj].
      apply rect_mmap, rect_mmap2; apply rect_mmap; assumption.
    + erewrite get_mmap; [rewrite Hhard; reflexivity | | exact Hi | exact Hj].
      apply rect_mmap, rect_mmap2; apply rect_mmap; assumption.
  - unfold damped_sim, mmul.
    apply (get_mmap2 Fmul HS (rect_competition_mask Hx Hy) Hi Hj).
Qed.

(** ** Entropy scoring and mask construction *)

Context {EF : External F}.

Lemma nth_entropy_x (S : matrix) (m n i : nat) :
  shape S = (m, n) -> i < m ->
  nth i (entropy_x S) F0 = row_entropy S i.
Proof.
  intros Hs Hi; unfold entropy_x, row_entropy; rewrite Hs.
  rewrite (nth_map_seq
             (fun i => Fdiv (entropy (nth i (map normalize_l1 S) []))
                            (np_log (Fofnat n)))) by exact Hi.
  assert (Hlen : length S = m) by (unfold shape in Hs; congruence).
  rewrite (nth_indep _ [] (normalize_l1 [])) by (rewrite length_map; lia).
  rewrite map_nth; reflexivity.
Qed.

Lemma nth_entropy_y (S : matrix) (m n j : nat) :
  shape S = (m, n) -> j < n ->
  nth j (entropy_y S) F0 = col_entropy S j.
Proof.
  intros Hs Hj; unfold entropy_y, col_entropy; rewrite Hs.
  apply (nth_map_seq
           (fun j => Fdiv (entropy (normalize_l1 (col j S)))
                          (np_log (Fofnat m)))); exact Hj.
Qed.

Lemma rect_min_entropy (S : matrix) (m n : nat) :
  shape S = (m, n) -> rect m n (min_entropy S).
Proof. intros Hs; unfold min_entropy; rewrite Hs; apply rect_build. Qed.

Lemma get_min_entropy (S : matrix) (m n i j : nat) :
  shape S = (m, n) -> i < m -> j < n ->
  get (min_entropy S) i j = cell_score S i j.
Proof.
  intros Hs Hi Hj; unfold min_entropy, cell_score; rewrite Hs.
  rewrite (get_build _ Hi Hj).
  rewrite (nth_entropy_x Hs Hi), (nth_entropy_y Hs Hj); reflexivity.
Qed.

Lemma gather_null_aligns_small (S A : matrix) (m n : nat) :
  shape S = (m, n) -> Nat.min m n <= 2 -> gather_null_aligns S A = [].
Proof.
  intros Hs Hle; unfold gather_null_aligns; rewrite Hs.
  apply Nat.leb_le in Hle; rewrite Hle; reflexivity.
Qed.

Lemma gather_null_aligns_cells (S A : matrix) (m n : nat) :
  shape S = (m, n) -> 2 < Nat.min m n -> rect m n A ->
  gather_null_aligns S A =
  filter (fun x => Fltb F0 x)
         (concat (build m n (fun i j => Fmul (get A i j) (cell_score S i j)))).
Proof.
  intros Hs Hgt HA; unfold gather_null_aligns; rewrite Hs.
  destruct (Nat.leb_spec (Nat.min m n) 2) as [Hle|_]; [lia|].
  do 2 f_equal.
  apply (@matrix_ext m n).
  - apply rect_mmap2; [exact HA | apply rect_min_entropy; exact Hs].
  - apply rect_build.
  - intros i j Hi Hj; unfold mmul.
    rewrite (get_mmap2 Fmul HA (rect_min_entropy Hs) Hi Hj).
    rewrite (get_min_entropy Hs Hi Hj), (get_build _ Hi Hj).
    reflexivity.
Qed.

(** C8.  Mask construction returns the all-ones m x n array when
    [min(m, n) <= 2], for any threshold; otherwise the mask is m x n
    and its cell (i, j) is 0 when [min(rowEntropy[i], colEntropy[j])]
    is greater than the threshold and 1 when it is not, the entropies
    being those of entropy scoring ([cell_score]). *)
Theorem apply_percentile_null_aligns_spec (S : matrix) (ratio : F) (m n : nat) :
  shape S = (m, n) ->
  (Nat.min m n <= 2 ->
   apply_percentile_null_aligns S ratio = ones m n /\
   forall i j, i < m -> j < n ->
     get (apply_percentile_null_aligns S ratio) i j = F1) /\
  (2 < Nat.min m n ->
   rect m n (apply_percentile_null_aligns S ratio) /\
   forall i j, i < m -> j < n ->
     get (apply_percentile_null_aligns S ratio) i j =
     if Fltb ratio (cell_score S i j) then F0 else F1).
Proof.
  intros Hs; unfold apply_percentile_null_aligns; rewrite Hs; split.
  - intros Hle; apply Nat.leb_le in Hle; rewrite Hle.
    split; [reflexivity|].
    intros i j Hi Hj; unfold ones; apply (get_build _ Hi Hj).
  - intros Hgt.
    destruct (Nat.leb_spec (Nat.min m n) 2) as [Hle|_]; [lia|].
    pose proof (rect_min_entropy Hs) as HM.
    split; [apply rect_mmap; exact HM|].
    intros i j Hi Hj.
    rewrite (get_mmap _ HM Hi Hj), (get_min_entropy Hs Hi Hj); reflexivity.
Qed.

(** ** The calibration protocol *)

Lemma length_insert_sorted (x : F) (l : list F) :
  length (insert_sorted x l) = Datatypes.S (length l).
Proof.
  induction l as [|y t IH]; simpl; [reflexivity|].
  destruct (Fltb x y); simpl; [reflexivity | rewrite IH; reflexivity].
Qed.

Lemma length_sorted (l : list F) : length (sorted l) = length l.
Proof.
  unfold sorted.
  assert (G : forall acc, length (fold_left (fun acc x => insert_sorted x acc) l acc)
                          = length l + length acc).
  { induction l as [|x t IH]; intros acc; simpl; [reflexivity|].
    rewrite IH, length_insert_sorted; lia. }
  rewrite G; simpl; lia.
Qed.

(** No rank selects a threshold from an empty pool. *)
Lemma percentile_threshold_empty (k v : F) :
  percentile_threshold k [] <> Ok v.
Proof.
  unfold percentile_threshold, threshold_rank; simpl.
  destruct (Ftrunc (Fmul k (Fofnat 0))) as [z| |]; simpl; try discriminate.
  unfold py_index; simpl length; simpl Z.of_nat.
  set (j := if (z <? 0)%Z then (z + 0)%Z else z).
  destruct (Z.leb_spec 0 j), (Z.ltb_spec j 0); simpl; try discriminate; lia.
Qed.

(** A rank inside the pool selects one of its elements. *)
Lemma py_index_in_range {A : Type} (l : list A) (z : Z) :
  (0 <= z < Z.of_nat (length l))%Z ->
  exists v, py_index l z = Ok v /\ nth_error l (Z.to_nat z) = Some v.
Proof.
  intros Hz; unfold py_index.
  destruct (Z.ltb_spec z 0) as [Hneg|_]; [lia|].
  destruct (Z.leb_spec 0 z) as [_|Hneg]; [|lia].
  destruct (Z.ltb_spec z (Z.of_nat (length l))) as [_|Hbig]; [|lia]; simpl.
  destruct (nth_error l (Z.to_nat z)) as [v|] eqn:E.
  - exists v; split; reflexivity.
  - apply nth_error_None in E; lia.
Qed.

Context {MF : Matchers F}.

(** With a keep-fraction that is not below 1 both guards of the run are
    off, and the run is the run without the filter. *)
Lemma main_without_filter (a : args) (corpus : list matrix) :
  Fltb (null_align a) F1 = false ->
  main a corpus = run_unfiltered a corpus.
Proof.
  intros Hk; unfold main, run_unfiltered; rewrite Hk; simpl.
  apply map_each_ext; intros raw.
  unfold align_sentence; rewrite Hk; simpl.
  destruct (get_alignment_matrix (apply_distortion raw (distortion a)))
    as [fwd rev].
  destruct (iter_max _ _ 1) as [itermax| |]; reflexivity.
Qed.

End Theory.

(** ** The real-number instance *)

Lemma Rltb_true (x y : R) : (x < y)%R -> Rltb x y = true.
Proof. intros H; unfold Rltb; destruct (Rlt_dec x y); [reflexivity | contradiction]. Qed.

Lemma Rltb_false (x y : R) : (y <= x)%R -> Rltb x y = false.
Proof. intros H; unfold Rltb; destruct (Rlt_dec x y); [lra | reflexivity]. Qed.

Lemma Reqb_refl (x : R) : Reqb x x = true.
Proof. unfold Reqb; destruct (Req_dec_T x x); [reflexivity | congruence]. Qed.

Lemma R_isnan (x : R) : Fisnan x = false.
Proof. unfold Fisnan; simpl; rewrite Reqb_refl; reflexivity. Qed.

Lemma R_minimum (x y : R) : Fminimum x y = Rmin x y.
Proof.
  unfold Fminimum; rewrite !R_isnan; simpl.
  unfold Rltb, Rmin.
  destruct (Rlt_dec y x), (Rle_dec x y); try reflexivity; lra.
Qed.

Lemma R_clip_bounds (x : R) : (0 <= Fclip F0 F1 x <= 1)%R.
Proof.
  unfold Fclip; rewrite R_isnan; simpl; unfold Rltb.
  destruct (Rlt_dec x 0); [lra|].
  destruct (Rlt_dec 1 x); lra.
Qed.

Lemma R_entr_0 : R_entr 0 = 0%R.
Proof. unfold R_entr; destruct (Rlt_dec 0 0); [lra | reflexivity]. Qed.

Lemma R_entr_1 : R_entr 1 = 0%R.
Proof. unfold R_entr; destruct (Rlt_dec 0 1); [rewrite ln_1; ring | reflexivity]. Qed.

(** A vector of L1 norm 1 is its own normalisation. *)
Lemma R_normalize_l1_unit (v : list R) :
  fold_right Rplus 0%R (map Rabs v) = 1%R -> R_normalize_l1 v = v.
Proof.
  intros Hn; unfold R_normalize_l1; rewrite Hn.
  destruct (Req_dec_T 1 0) as [E|_]; [lra|].
  rewrite <- (map_id v) at 2.
  apply map_ext; intros x; field.
Qed.

Lemma R_entropy_unit (v : list R) :
  fold_right Rplus 0%R v = 1%R ->
  R_entropy v = fold_right Rplus 0%R (map R_entr v).
Proof.
  intros Hs; unfold R_entropy; rewrite Hs.
  f_equal; apply map_ext; intros x; f_equal; field.
Qed.

(** A one-hot vector has entropy 0. *)
Lemma R_entropy_one_hot (v : list R) :
  In v [[1; 0; 0]; [0; 1; 0]; [0; 0; 1]]%R ->
  R_entropy (R_normalize_l1 v) = 0%R.
Proof.
  intros Hin.
  assert (Hn : fold_right Rplus 0%R (map Rabs v) = 1%R).
  { simpl in Hin; destruct Hin as [<-|[<-|[<-|[]]]]; simpl;
      rewrite ?Rabs_R1, ?Rabs_R0; lra. }
  rewrite (R_normalize_l1_unit v Hn).
  assert (Hs : fold_right Rplus 0%R v = 1%R).
  { simpl in Hin; destruct Hin as [<-|[<-|[<-|[]]]]; simpl; lra. }
  rewrite (R_entropy_unit v Hs).
  simpl in Hin; destruct Hin as [<-|[<-|[<-|[]]]]; simpl;
    rewrite ?R_entr_0, ?R_entr_1; lra.
Qed.

Lemma eye3_cell_score (i j : nat) :
  i < 3 -> j < 3 -> cell_score eye3 i j = 0%R.
Proof.
  intros Hi Hj; unfold cell_score; rewrite R_minimum.
  assert (Hr : row_entropy eye3 i = 0%R).
  { unfold row_entropy; simpl shape; cbv iota beta.
    change (@entropy R real_external) with R_entropy.
    change (@normalize_l1 R real_external) with R_normalize_l1.
    rewrite R_entropy_one_hot; [simpl; unfold Rdiv; ring|].
    destruct i as [|[|[|i]]]; simpl; auto; lia. }
  assert (Hc : col_entropy eye3 j = 0%R).
  { unfold col_entropy; simpl shape; cbv iota beta.
    change (@entropy R real_external) with R_entropy.
    change (@normalize_l1 R real_external) with R_normalize_l1.
    rewrite R_entropy_one_hot; [simpl; unfold Rdiv; ring|].
    destruct j as [|[|[|j]]]; simpl; auto; lia. }
  rewrite Hr, Hc; unfold Rmin; destruct (Rle_dec 0 0); reflexivity.
Qed.

Lemma rect_eye3 : rect 3 3 eye3.
Proof. split; [reflexivity | repeat constructor]. Qed.

Lemma filter_none {A : Type} (p : A -> bool) (l : list A) :
  Forall (fun x => p x = false) l -> filter p l = [].
Proof.
  induction 1 as [|x t Hx _ IH]; simpl; [reflexivity|].
  rewrite Hx; exact IH.
Qed.

Lemma gather_eye3 : gather_null_aligns eye3 eye3 = [].
Proof.
  rewrite (@gather_null_aligns_cells R _ _ eye3 eye3 3 3);
    [| reflexivity | simpl; lia | exact rect_eye3].
  apply filter_none.
  unfold build; cbn [seq map concat app].
  rewrite !eye3_cell_score by lia.
  repeat constructor; apply Rltb_false; simpl; lra.
Qed.

Lemma spec_scores_eye3 : spec_scores eye3 eye3 = [0; 0; 0]%R.
Proof.
  unfold spec_scores.
  change (shape eye3) with (3, 3); cbv iota beta.
  change (Nat.leb (Nat.min 3 3) 2) with false; cbv iota.
  cbn [seq flat_map app].
  rewrite !eye3_cell_score by lia.
  unfold get; cbn [nth eye3].
  change (@Fltb R real_arith) with Rltb; change (@F0 R real_arith) with 0%R.
  rewrite !(@Rltb_false 0%R 0%R) by lra.
  rewrite !(@Rltb_true 0%R 1%R) by lra.
  reflexivity.
Qed.

(** C4, refuted as stated.  On the 3 x 3 identity, with the identity
    as candidate alignment, every row and every column has entropy 0:
    the three cells with [A[i,j] > 0] have score 0, and the program
    returns no scalar at all where the claim has three. *)
Lemma gather_null_aligns_counterexample :
  gather_null_aligns eye3 eye3 = [] /\
  spec_scores eye3 eye3 = [0; 0; 0]%R /\
  ~ Permutation (gather_null_aligns eye3 eye3) (spec_scores eye3 eye3).
Proof.
  split; [exact gather_eye3|]; split; [exact spec_scores_eye3|].
  rewrite gather_eye3, spec_scores_eye3; intros HP.
  apply Permutation_length in HP; discriminate HP.
Qed.

(** ** The threshold rank *)

Lemma R_trunc_nonneg (x : R) : (0 <= x)%R -> R_trunc x = Zfloor x.
Proof. intros H; unfold R_trunc; destruct (Rle_dec 0 x); [reflexivity | contradiction]. Qed.

(** *** Rounding to nearest in binary64 *)

Section Rounding.

Local Open Scope Z_scope.

(** Powers of two and the value of a mantissa and exponent. *)
Lemma bpow_pos (e : Z) : (0 < bpow e)%R.
Proof. apply powerRZ_lt; lra. Qed.

Lemma bpow_add (a b : Z) : bpow (a + b) = (bpow a * bpow b)%R.
Proof. apply powerRZ_add; lra. Qed.

Lemma bpow_IZR (e : Z) : 0 <= e -> bpow e = IZR (2 ^ e).
Proof.
  intros He; unfold bpow.
  destruct e as [|p|p]; [reflexivity| |lia].
  rewrite <- Zpower_pos_powerRZ; reflexivity.
Qed.

Lemma bpow_le (a b : Z) : a <= b -> (bpow a <= bpow b)%R.
Proof.
  intros H; replace b with (a + (b - a)) by ring.
  rewrite bpow_add, (@bpow_IZR (b - a)) by lia.
  assert (1 <= 2 ^ (b - a)) by (apply Z.pow_le_mono_r with (b := 0); lia).
  apply IZR_le in H0.
  pose proof (bpow_pos a); nra.
Qed.

Lemma fval_shift (m e k : Z) : 0 <= k -> fval (m * 2 ^ k) e = fval m (e + k).
Proof.
  intros Hk; unfold fval.
  rewrite bpow_add, (bpow_IZR Hk), mult_IZR; ring.
Qed.

(** The number of binary digits of a mantissa. *)
Lemma digits2_pos_bounds (p : positive) :
  2 ^ (Zpos (digits2_pos p) - 1) <= Zpos p < 2 ^ Zpos (digits2_pos p).
Proof.
  induction p as [p IH|p IH|]; simpl digits2_pos.
  - rewrite Pos2Z.inj_succ.
    replace (Z.succ (Zpos (digits2_pos p)) - 1) with (Z.succ (Zpos (digits2_pos p) - 1)) by lia.
    rewrite !Z.pow_succ_r by lia. lia.
  - rewrite Pos2Z.inj_succ.
    replace (Z.succ (Zpos (digits2_pos p)) - 1) with (Z.succ (Zpos (digits2_pos p) - 1)) by lia.
    rewrite !Z.pow_succ_r by lia. lia.
  - simpl; lia.
Qed.

Lemma digits2_pos_le (p : positive) (n : Z) :
  Zpos p < 2 ^ n -> Zpos (digits2_pos p) <= n.
Proof.
  intros H; pose proof (digits2_pos_bounds p) as [Hlo _].
  destruct (Z.le_gt_cases (Zpos (digits2_pos p)) n) as [|Hgt]; [assumption|].
  assert (2 ^ n <= 2 ^ (Zpos (digits2_pos p) - 1)).
  { destruct (Z.le_gt_cases 0 n).
    - apply Z.pow_le_mono_r; lia.
    - rewrite (Z.pow_neg_r 2 n) by lia. apply Z.pow_nonneg; lia. }
  lia.
Qed.

(** Shifting a mantissa right, one bit at a time: the round bit and
    the sticky bit record what was shifted out. *)
Lemma shr_1_fields (mrs : shr_record) :
  0 <= shr_m mrs ->
  0 <= shr_m (shr_1 mrs) /\
  shr_m mrs = 2 * shr_m (shr_1 mrs) + Z.b2z (shr_r (shr_1 mrs)) /\
  shr_s (shr_1 mrs) = (shr_r mrs || shr_s mrs)%bool.
Proof.
  destruct mrs as [mm r s]; simpl.
  destruct mm as [|[p|p|]|p]; simpl; intros H; try lia; repeat split; lia.
Qed.

Lemma shr_1_inv (m k : Z) (mrs : shr_record) :
  0 <= k -> shr_inv m k mrs -> shr_inv m (k + 1) (shr_1 mrs).
Proof.
  intros Hk [low [Hm [E [Hlow Hs]]]]; unfold shr_inv.
  destruct (shr_1_fields mrs Hm) as [Hm' [Em Es]].
  rewrite Z.pow_add_r, Z.pow_1_r by lia.
  assert (HP : 0 < 2 ^ k) by (apply Z.pow_pos_nonneg; lia).
  set (P := 2 ^ k) in *; clearbody P.
  exists (Z.b2z (shr_r mrs) * P + low).
  rewrite Es.
  split; [exact Hm'|].
  split; [rewrite Em in E; rewrite E; ring|].
  split.
  - destruct (shr_r mrs); cbn [Z.b2z]; lia.
  - intros H; apply orb_false_iff in H as [Hr Hs0].
    rewrite Hr, (Hs Hs0); cbn [Z.b2z]; lia.
Qed.

Lemma iter_shr_1_inv (m : Z) (p : positive) :
  forall k mrs, 0 <= k -> shr_inv m k mrs ->
  shr_inv m (k + Zpos p) (iter_pos shr_1 p mrs).
Proof.
  induction p as [p IH|p IH|]; intros k mrs Hk H; simpl.
  - replace (k + Zpos p~1) with (k + 1 + Zpos p + Zpos p) by lia.
    apply IH; [lia|]. apply IH; [lia|]. apply shr_1_inv; assumption.
  - replace (k + Zpos p~0) with (k + Zpos p + Zpos p) by lia.
    apply IH; [lia|]. apply IH; assumption.
  - apply shr_1_inv; assumption.
Qed.

Lemma shr_inv_0 (m : Z) : 0 <= m -> shr_inv m 0 (Build_shr_record m false false).
Proof. intros Hm; exists 0; simpl; repeat split; lia. Qed.

Lemma shr_exact_inv (m e n : Z) :
  0 <= m ->
  let k := Z.max 0 n in
  shr_inv m k (fst (shr (Build_shr_record m false false) e n)) /\
  snd (shr (Build_shr_record m false false) e n) = e + k.
Proof.
  intros Hm k; unfold shr, k.
  destruct n as [|p|p]; simpl fst; simpl snd.
  - split; [apply shr_inv_0; exact Hm | lia].
  - split; [|lia].
    replace (Z.max 0 (Zpos p)) with (0 + Zpos p) by lia.
    apply iter_shr_1_inv; [lia | apply shr_inv_0; exact Hm].
  - split; [apply shr_inv_0; exact Hm | lia].
Qed.

(** The mantissa that [round_nearest_even] picks after a shift by [k]
    is within half a unit of the exact quotient. *)
Lemma round_nearest_even_near (m k : Z) (mrs : shr_record) :
  0 <= k -> shr_inv m k mrs ->
  let m2 := round_nearest_even (shr_m mrs) (loc_of_shr_record mrs) in
  0 <= m2 /\ 2 * Z.abs (m2 * 2 ^ k - m) <= 2 ^ k /\ m2 * 2 ^ k <= m + 2 ^ k.
Proof.
  intros Hk [low [Hm [E [Hlow Hs]]]] m2; unfold m2.
  assert (HP : 0 < 2 ^ k) by (apply Z.pow_pos_nonneg; lia).
  set (P := 2 ^ k) in *; clearbody P.
  destruct mrs as [mm [|] [|]];
    cbn [shr_m shr_r shr_s Z.b2z loc_of_shr_record round_nearest_even] in *.
  - lia.
  - specialize (Hs eq_refl); destruct (Z.even mm); lia.
  - lia.
  - specialize (Hs eq_refl); lia.
Qed.

(** A multiple within half a step of [m] is at least as near to [m] as
    every other multiple. *)
Lemma nearest_integer (m P a j : Z) :
  0 < P -> 2 * Z.abs (a * P - m) <= P ->
  Z.abs (a * P - m) <= Z.abs (j * P - m).
Proof.
  intros HP H.
  destruct (Z.eq_dec j a) as [->|Hne]; [lia|].
  assert (C : j <= a - 1 \/ a + 1 <= j) by lia.
  destruct C as [C|C].
  - assert (j * P <= a * P - P) by nia. lia.
  - assert (a * P + P <= j * P) by nia. lia.
Qed.

Lemma fexp_eq (x : Z) : fexp prec emax x = Z.max (x - 53) (-1074).
Proof. reflexivity. Qed.

Lemma shr_noop (mrs : shr_record) (e n : Z) : n <= 0 -> shr mrs e n = (mrs, e).
Proof. destruct n; try reflexivity; lia. Qed.

(** Rounding an exact mantissa [m] and exponent [e] to the format: the
    result has the exponent [e1] of the format (one more when the
    mantissa rounds up to [2^53]) and a mantissa within half a unit. *)
Lemma binary_round_aux_spec (s : bool) (m : positive) (e : Z) :
  let e1 := Z.max e (fexp prec emax (Zpos (digits2_pos m) + e)) in
  e1 < 971 ->
  exists m2 : Z,
    0 <= m2 <= 2 ^ 53 /\
    2 * Z.abs (m2 * 2 ^ (e1 - e) - Zpos m) <= 2 ^ (e1 - e) /\
    binary_round_aux prec emax s (Zpos m) e loc_Exact =
      (if m2 =? 0 then S754_zero s
       else if m2 =? 2 ^ 53 then S754_finite s 4503599627370496%positive (e1 + 1)
       else S754_finite s (Z.to_pos m2) e1).
Proof.
  intros e1 Hov.
  unfold binary_round_aux, shr_fexp.
  cbn [shr_record_of_loc Zdigits2].
  set (n := fexp prec emax (Zpos (digits2_pos m) + e) - e).
  assert (Hk : e1 - e = Z.max 0 n) by (unfold e1, n; lia).
  destruct (@shr_exact_inv (Zpos m) e n) as [Hinv Hsnd]; [lia|].
  rewrite <- Hk in Hinv, Hsnd.
  destruct (shr (Build_shr_record (Zpos m) false false) e n) as [mrs e'] eqn:E1.
  cbn [fst snd] in Hinv, Hsnd.
  replace e' with e1 by lia.
  assert (Hk0 : 0 <= e1 - e) by lia.
  destruct (round_nearest_even_near Hk0 Hinv) as [H0 [Hhalf Hup]].
  set (m2 := round_nearest_even (shr_m mrs) (loc_of_shr_record mrs)) in *.
  assert (HP : 0 < 2 ^ (e1 - e)) by (apply Z.pow_pos_nonneg; lia).
  assert (Hd : Zpos m < 2 ^ (e1 - e) * 2 ^ 53).
  { pose proof (digits2_pos_bounds m) as [_ Hd].
    rewrite <- Z.pow_add_r by lia.
    eapply Z.lt_le_trans; [exact Hd|].
    apply Z.pow_le_mono_r; [lia|].
    unfold e1; rewrite fexp_eq; lia. }
  assert (Hm2 : m2 <= 2 ^ 53) by nia.
  assert (He1 : -1074 <= e1) by (unfold e1; rewrite fexp_eq; lia).
  exists m2; split; [lia|]; split; [exact Hhalf|].
  destruct (Z.eqb_spec m2 0) as [Z0|NZ].
  - rewrite Z0; cbn [Zdigits2].
    rewrite shr_noop by (rewrite fexp_eq; lia).
    reflexivity.
  - destruct (Z.eqb_spec m2 (2 ^ 53)) as [Emax|Nmax].
    + rewrite Emax.
      change (Zdigits2 (2 ^ 53)) with 54.
      replace (fexp prec emax (54 + e1) - e1) with 1 by (rewrite fexp_eq; lia).
      cbn -[Z.leb Z.sub Z.add].
      change (emax - prec) with 971.
      destruct (Z.leb_spec (e1 + 1) 971); [reflexivity | lia].
    + destruct m2 as [|q|q] eqn:Eq; try lia.
      cbn [Zdigits2].
      pose proof (@digits2_pos_le q 53) as Hq.
      rewrite shr_noop by (rewrite fexp_eq; lia).
      cbn [shr_m]. change (emax - prec) with 971.
      destruct (Z.leb_spec e1 971); [reflexivity | lia].
Qed.

Lemma round_normal_lower (m : positive) (e : Z) :
  let e1 := Z.max e (fexp prec emax (Zpos (digits2_pos m) + e)) in
  e < e1 -> -1074 < e1 -> 2 ^ 52 * 2 ^ (e1 - e) <= Zpos m.
Proof.
  intros e1 H1 H2.
  pose proof (digits2_pos_bounds m) as [Hd _].
  unfold e1 in *; rewrite fexp_eq in *.
  rewrite <- Z.pow_add_r by lia.
  eapply Z.le_trans; [|exact Hd].
  apply Z.pow_le_mono_r; lia.
Qed.

Lemma canonical_bounds (m : positive) (e : Z) :
  canonical_mantissa prec emax m e = true ->
  -1074 <= e /\ Zpos m < 2 ^ 53 /\ (-1074 < e -> 2 ^ 52 <= Zpos m).
Proof.
  unfold canonical_mantissa; intros H; apply Z.eqb_eq in H.
  rewrite fexp_eq in H.
  pose proof (digits2_pos_bounds m) as [Hlo Hhi].
  split; [lia|]; split.
  - eapply Z.lt_le_trans; [exact Hhi|]. apply Z.pow_le_mono_r; lia.
  - intros He. eapply Z.le_trans; [|exact Hlo]. apply Z.pow_le_mono_r; lia.
Qed.

Lemma fval_sub_scaled (a m e e1 : Z) :
  e <= e1 ->
  (fval a e1 - fval m e = IZR (a * 2 ^ (e1 - e) - m) * bpow e)%R.
Proof.
  intros H; unfold fval.
  replace e1 with (e + (e1 - e)) at 1 by ring.
  rewrite bpow_add, (@bpow_IZR (e1 - e)) by lia.
  rewrite minus_IZR, mult_IZR; ring.
Qed.

Lemma Rabs_scaled (z e : Z) : Rabs (IZR z * bpow e) = (IZR (Z.abs z) * bpow e)%R.
Proof.
  rewrite Rabs_mult, (Rabs_pos_eq (bpow e)) by (left; apply bpow_pos).
  rewrite <- abs_IZR; reflexivity.
Qed.

(** Rounding gives a number of the format that is nearest to the
    exact value: no other number of the format is strictly nearer. *)
Lemma round_nearest (m : positive) (e : Z) :
  Z.max e (fexp prec emax (Zpos (digits2_pos m) + e)) < 971 ->
  let r := binary_round_aux prec emax false (Zpos m) e loc_Exact in
  (r = S754_zero false \/ exists m3 e3, r = S754_finite false m3 e3) /\
  forall (my : positive) (ey : Z),
    canonical_mantissa prec emax my ey = true ->
    (Rabs (SF2R r - fval (Zpos m) e) <= Rabs (fval (Zpos my) ey - fval (Zpos m) e))%R.
Proof.
  intros Hov r.
  destruct (@binary_round_aux_spec false m e Hov) as [m2 [Hm2 [Hhalf Er]]].
  fold r in Er.
  set (e1 := Z.max e (fexp prec emax (Zpos (digits2_pos m) + e))) in *.
  assert (He : e <= e1) by (unfold e1; lia).
  assert (HP : 0 < 2 ^ (e1 - e)) by (apply Z.pow_pos_nonneg; lia).
  assert (V : SF2R r = fval m2 e1).
  { rewrite Er.
    destruct (Z.eqb_spec m2 0) as [->|NZ]; [unfold fval; simpl; ring|].
    destruct (Z.eqb_spec m2 (2 ^ 53)) as [->|NM]; simpl SF2R.
    - rewrite <- (@fval_shift _ e1 1) by lia. reflexivity.
    - rewrite Z2Pos.id by lia; reflexivity. }
  split.
  { rewrite Er.
    destruct (m2 =? 0); [left; reflexivity|].
    destruct (m2 =? 2 ^ 53); right; eauto. }
  intros my ey Hc.
  destruct (canonical_bounds _ _ Hc) as [Hey [Hmy _]].
  rewrite V, (@fval_sub_scaled m2 (Zpos m) e e1 He), Rabs_scaled.
  destruct (Z.le_gt_cases e1 ey) as [Hge|Hlt].
  - replace (fval (Zpos my) ey) with (fval (Zpos my * 2 ^ (ey - e1)) e1)
      by (rewrite fval_shift by lia; f_equal; lia).
    rewrite (@fval_sub_scaled _ (Zpos m) e e1 He), Rabs_scaled.
    apply Rmult_le_compat_r; [left; apply bpow_pos|].
    apply IZR_le, nearest_integer; assumption.
  - destruct (Z.eq_dec e1 e) as [Eq|Ne].
    + assert (m2 = Zpos m).
      { rewrite Eq, Z.sub_diag in Hhalf. change (2 ^ 0) with 1 in Hhalf. lia. }
      subst m2; rewrite Eq, Z.sub_diag.
      replace (Zpos m * 2 ^ 0 - Zpos m) with 0 by (change (2 ^ 0) with 1; lia).
      simpl; rewrite Rmult_0_l; apply Rabs_pos.
    + assert (Hlow : 2 ^ 52 * 2 ^ (e1 - e) <= Zpos m)
        by (apply round_normal_lower; fold e1; lia).
      pose proof (@nearest_integer (Zpos m) (2 ^ (e1 - e)) m2 (2 ^ 52) HP Hhalf) as Hn.
      rewrite (Z.abs_neq (2 ^ 52 * 2 ^ (e1 - e) - Zpos m)) in Hn by lia.
      assert (Hy : (fval (Zpos my) ey < fval (2 ^ 52) e1)%R).
      { replace (fval (2 ^ 52) e1) with (fval (2 ^ 53) (e1 - 1))
          by (change (2 ^ 53) with (2 ^ 52 * 2 ^ 1);
              rewrite fval_shift by lia; f_equal; lia).
        unfold fval.
        assert (bpow ey <= bpow (e1 - 1))%R by (apply bpow_le; lia).
        pose proof (bpow_pos ey).
        apply IZR_lt in Hmy.
        assert (0 < IZR (Zpos my))%R by (apply IZR_lt; lia).
        nra. }
      pose proof (@fval_sub_scaled (2 ^ 52) (Zpos m) e e1 He) as Hs.
      apply IZR_le in Hn.
      pose proof (bpow_pos e) as Hbe.
      assert (Hx : (IZR (Z.abs (m2 * 2 ^ (e1 - e) - Zpos m)) * bpow e
                    <= fval (Zpos m) e - fval (2 ^ 52) e1)%R).
      { replace (fval (Zpos m) e - fval (2 ^ 52) e1)%R
          with (- (fval (2 ^ 52) e1 - fval (Zpos m) e))%R by ring.
        rewrite Hs, Ropp_mult_distr_l, <- opp_IZR.
        apply Rmult_le_compat_r; [lra|].
        exact Hn. }
      unfold Rabs; destruct (Rcase_abs _); lra.
Qed.

(** Aligning a mantissa to a smaller exponent keeps the value. *)
Lemma shl_align_spec (mx : positive) (ex ex' : Z) :
  Zpos (fst (shl_align mx ex ex')) = Zpos mx * 2 ^ (ex - snd (shl_align mx ex ex')) /\
  snd (shl_align mx ex ex') <= ex.
Proof.
  unfold shl_align.
  destruct (ex' - ex) as [|d|d] eqn:E; cbn [fst snd].
  - rewrite Z.sub_diag; change (2 ^ 0) with 1; lia.
  - rewrite Z.sub_diag; change (2 ^ 0) with 1; lia.
  - replace (ex - ex') with (Zpos d) by lia.
    split; [|lia].
    change (Pos.iter xO mx d) with (shift_pos d mx).
    rewrite shift_pos_correct. 
    change (Z.pow_pos 2 d) with (2 ^ Zpos d). lia.
Qed.

Lemma Prim2SF_zero : Prim2SF 0%float = S754_zero false.
Proof. reflexivity. Qed.

Lemma Prim2SF_one : Prim2SF 1%float = S754_finite false 4503599627370496 (-52).
Proof. reflexivity. Qed.

Lemma bpow_opp (e : Z) : 0 <= e -> (bpow (- e) * IZR (2 ^ e) = 1)%R.
Proof.
  intros He; rewrite <- (bpow_IZR He), <- bpow_add.
  replace (- e + e) with 0 by ring; reflexivity.
Qed.

(** A keep-fraction [0 <= k < 1] is a zero, or a positive number of
    value at most [1 - 2^-53]. *)
Lemma keep_fraction_cases (k : float) :
  PrimFloat.leb 0 k = true -> PrimFloat.ltb k 1 = true ->
  (exists s, Prim2SF k = S754_zero s) \/
  (exists mk ek,
     Prim2SF k = S754_finite false mk ek /\
     canonical_mantissa prec emax mk ek = true /\
     ek <= -52 /\
     (fval (Zpos mk) ek * IZR (2 ^ 53) <= IZR (2 ^ 53 - 1))%R).
Proof.
  rewrite leb_spec, ltb_spec, Prim2SF_zero, Prim2SF_one.
  pose proof (Prim2SF_valid k) as Hv.
  destruct (Prim2SF k) as [s|s| |s mk ek]; intros H0 H1.
  - left; eauto.
  - destruct s; discriminate.
  - discriminate.
  - right; exists mk, ek.
    destruct s; [discriminate|].
    unfold valid_binary, bounded in Hv; apply andb_true_iff in Hv as [Hc _].
    split; [reflexivity|]; split; [exact Hc|].
    destruct (canonical_bounds _ _ Hc) as [Hlo [Hhi _]].
    unfold SFltb, SFcompare in H1.
    assert (Hb : forall e, e <= -53 -> (fval (Zpos mk) e * IZR (2 ^ 53) <= IZR (2 ^ 53 - 1))%R).
    { intros e He; unfold fval.
      assert (bpow e <= bpow (-53))%R by (apply bpow_le; exact He).
      pose proof (@bpow_opp 53 ltac:(lia)) as Ho.
      pose proof (bpow_pos e).
      assert (IZR (Zpos mk) <= IZR (2 ^ 53 - 1))%R by (apply IZR_le; lia).
      assert (0 < IZR (Zpos mk))%R by (apply IZR_lt; lia).
      assert (0 < IZR (2 ^ 53))%R by (apply IZR_lt; lia).
      change (- (53)) with (-53) in Ho.
      replace (IZR (Zpos mk) * bpow e * IZR (2 ^ 53))%R
        with (IZR (Zpos mk) * (bpow e * IZR (2 ^ 53)))%R by ring.
      assert (bpow e * IZR (2 ^ 53) <= 1)%R by nra.
      nra. }
    destruct (Z.compare_spec ek (-52)) as [E|L|G]; try discriminate;
      (split; [lia|]).
    + rewrite Pos.compare_cont_spec in H1; cbn [Pos.switch_Eq] in H1.
      destruct (Pos.compare_spec mk 4503599627370496) as [|Hlt|]; try discriminate.
      assert (Hlt' : Zpos mk < 2 ^ 52) by (apply Pos2Z.pos_lt_pos; exact Hlt).
      clear Hlt H1.
      rewrite E; unfold fval.
      pose proof (@bpow_opp 52 ltac:(lia)) as Ho.
      change (- (52)) with (-52) in Ho.
      assert (IZR (Zpos mk) <= IZR (2 ^ 52 - 1))%R by (apply IZR_le; lia).
      replace (IZR (2 ^ 53)) with (2 * IZR (2 ^ 52))%R
        by (rewrite <- mult_IZR; reflexivity).
      replace (IZR (2 ^ 53 - 1)) with (2 * IZR (2 ^ 52 - 1) + 1)%R
        by (rewrite <- mult_IZR, <- plus_IZR; reflexivity).
      replace (IZR (Zpos mk) * bpow (-52) * (2 * IZR (2 ^ 52)))%R
        with (2 * IZR (Zpos mk) * (bpow (-52) * IZR (2 ^ 52)))%R by ring.
      rewrite Ho; lra.
    + apply Hb; lia.
Qed.


Lemma canonical_normal (m : positive) (e : Z) :
  2 ^ 52 <= Zpos m < 2 ^ 53 -> -1074 <= e ->
  canonical_mantissa prec emax m e = true.
Proof.
  intros [Hlo Hhi] He; unfold canonical_mantissa; apply Z.eqb_eq.
  rewrite fexp_eq.
  pose proof (@digits2_pos_le m 53 Hhi) as Hd.
  pose proof (digits2_pos_bounds m) as [_ Hup].
  assert (53 <= Zpos (digits2_pos m)); [|lia].
  destruct (Z.le_gt_cases 53 (Zpos (digits2_pos m))) as [|Hlt]; [assumption|].
  assert (2 ^ Zpos (digits2_pos m) <= 2 ^ 52) by (apply Z.pow_le_mono_r; lia).
  lia.
Qed.

(** [float(n)] for a length [0 < n < 2^63]: a positive binary64 number
    nearest to [n]. *)
Lemma float_of_Z_nearest (len : Z) :
  0 < len < 2 ^ 63 ->
  exists mL eL,
    Prim2SF (of_uint63 (of_Z len)) = S754_finite false mL eL /\
    canonical_mantissa prec emax mL eL = true /\
    forall (my : positive) (ey : Z),
      canonical_mantissa prec emax my ey = true ->
      (Rabs (fval (Zpos mL) eL - IZR len)
       <= Rabs (fval (Zpos my) ey - IZR len))%R.
Proof.
  intros Hn.
  pose proof (Prim2SF_valid (of_uint63 (of_Z len))) as Hv.
  rewrite of_uint63_spec, of_Z_spec in *.
  rewrite Z.mod_small in * by (change wB with (2 ^ 63); lia).
  destruct len as [|p|p]; try lia.
  cbn [binary_normalize] in *; unfold binary_round in *.
  destruct (shl_align_spec p 0 (fexp prec emax (Zpos (digits2_pos p) + 0)))
    as [Hmz Hez].
  destruct (shl_align p 0 (fexp prec emax (Zpos (digits2_pos p) + 0)))
    as [mz ez]; cbn [fst snd] in Hmz, Hez.
  assert (HP : 0 < 2 ^ (0 - ez)) by (apply Z.pow_pos_nonneg; lia).
  assert (Hov : Z.max ez (fexp prec emax (Zpos (digits2_pos mz) + ez)) < 971).
  { rewrite fexp_eq.
    assert (Zpos (digits2_pos mz) <= 63 - ez); [|lia].
    apply digits2_pos_le.
    replace (63 - ez) with (63 + (0 - ez)) by ring.
    rewrite Z.pow_add_r by lia. nia. }
  destruct (@round_nearest mz ez Hov) as [Hform Hnear]; cbv zeta in *.
  assert (Hval : fval (Zpos mz) ez = IZR (Zpos p)).
  { rewrite Hmz, fval_shift by lia.
    replace (ez + (0 - ez)) with 0 by ring.
    unfold fval, bpow; simpl; ring. }
  rewrite Hval in Hnear.
  destruct Hform as [Ez | [m3 [e3 Ef]]].
  - exfalso.
    specialize (Hnear 4503599627370496%positive (-52) eq_refl).
    rewrite Ez in Hnear; simpl SF2R in Hnear.
    assert (H1 : fval 4503599627370496 (-52) = 1%R).
    { unfold fval. pose proof (@bpow_opp 52 ltac:(lia)) as Ho.
      change (- (52)) with (-52) in Ho.
      change (2 ^ 52) with 4503599627370496 in Ho. lra. }
    rewrite H1 in Hnear.
    assert (1 <= IZR (Zpos p))%R by (apply IZR_le; lia).
    rewrite Rabs_left in Hnear by lra.
    rewrite Rabs_left1 in Hnear by lra.
    lra.
  - rewrite Ef in *.
    exists m3, e3; split; [reflexivity|].
    unfold valid_binary, bounded in Hv; apply andb_true_iff in Hv as [Hc _].
    split; [exact Hc|].
    intros my ey Hy; specialize (Hnear my ey Hy); exact Hnear.
Qed.


Lemma fval_0 (m : Z) : fval m 0 = IZR m.
Proof. unfold fval, bpow; simpl; ring. Qed.

Lemma fval_mul (a b e f : Z) : fval (a * b) (e + f) = (fval a e * fval b f)%R.
Proof. unfold fval; rewrite mult_IZR, bpow_add; ring. Qed.

(** [int(x)] of a positive finite number: an integer that is not
    negative and not above [x]. *)
Lemma float_trunc_below (x : float) (m : positive) (e : Z) :
  Prim2SF x = S754_finite false m e ->
  exists a, float_trunc x = Ok a /\ 0 <= a /\ (IZR a <= fval (Zpos m) e)%R.
Proof.
  intros E; unfold float_trunc; rewrite E.
  destruct e as [|p|p].
  - exists (Zpos m); split; [reflexivity|]; split; [lia|].
    rewrite fval_0; lra.
  - exists (Z.shiftl (Zpos m) (Zpos p)); split; [reflexivity|].
    rewrite Z.shiftl_mul_pow2 by lia.
    assert (0 < 2 ^ Zpos p) by (apply Z.pow_pos_nonneg; lia).
    split; [nia|].
    rewrite <- fval_0, fval_shift by lia.
    rewrite Z.add_0_l; lra.
  - exists (Z.shiftr (Zpos m) (Zpos p)); split; [reflexivity|].
    rewrite Z.shiftr_div_pow2 by lia.
    assert (HP : 0 < 2 ^ Zpos p) by (apply Z.pow_pos_nonneg; lia).
    pose proof (Z.mul_div_le (Zpos m) (2 ^ Zpos p) HP) as Hd.
    split; [apply Z.div_pos; lia|].
    apply IZR_le in Hd; rewrite mult_IZR in Hd.
    pose proof (@bpow_opp (Zpos p) ltac:(lia)) as Ho.
    change (- Zpos p) with (Zneg p) in Ho.
    pose proof (bpow_pos (Zneg p)) as Hb.
    unfold fval.
    set (a := IZR (Zpos m / 2 ^ Zpos p)) in *.
    replace a with (IZR (2 ^ Zpos p) * a * bpow (Zneg p))%R 
      by (transitivity (a * (bpow (Zneg p) * IZR (2 ^ Zpos p)))%R;
          [ring | rewrite Ho; ring]).
    apply Rmult_le_compat_r; lra.
Qed.

(** The rank [int(k * len)] in binary64: for a length [0 < n < 2^63]
    and a keep-fraction [0 <= k < 1] the product, rounded to nearest,
    stays below [n]. *)
Lemma float_rank_below (k : float) (len : Z) :
  0 < len < 2 ^ 63 ->
  PrimFloat.leb 0 k = true -> PrimFloat.ltb k 1 = true ->
  exists z, float_trunc (k * of_uint63 (of_Z len)) = Ok z /\ 0 <= z <= len - 1.
Proof.
  intros Hn Hk0 Hk1.
  destruct (@float_of_Z_nearest len Hn) as [mL [eL [EL [HcL HnearL]]]].
  set (N := IZR len) in *.
  set (L := fval (Zpos mL) eL) in *.
  assert (HN : (1 <= N)%R) by (apply IZR_le; lia).
  destruct (canonical_bounds _ _ HcL) as [HeL0 [HmL Hnorm]].
  assert (Hone : fval 4503599627370496 (-52) = 1%R).
  { unfold fval. pose proof (@bpow_opp 52 ltac:(lia)) as Ho.
    change (- (52)) with (-52) in Ho.
    change (2 ^ 52) with 4503599627370496 in Ho. lra. }
  assert (HL1 : (1 <= L)%R).
  { pose proof (HnearL 4503599627370496%positive (-52) eq_refl) as H.
    rewrite Hone in H.
    rewrite (Rabs_left1 (1 - N)) in H by lra.
    unfold Rabs in H; destruct (Rcase_abs (L - N)); lra. }
  assert (HeL : -52 <= eL).
  { destruct (Z.le_gt_cases (-52) eL) as [|Hlt]; [assumption|exfalso].
    assert (bpow eL <= bpow (-53))%R by (apply bpow_le; lia).
    pose proof (@bpow_opp 53 ltac:(lia)) as Ho.
    change (- (53)) with (-53) in Ho.
    pose proof (bpow_pos eL).
    assert (IZR (Zpos mL) < IZR (2 ^ 53))%R by (apply IZR_lt; lia).
    assert (0 < IZR (Zpos mL))%R by (apply IZR_lt; lia).
    unfold L, fval in HL1. nra. }
  assert (HmL52 : 2 ^ 52 <= Zpos mL) by (apply Hnorm; lia).
  assert (HeL11 : eL <= 11).
  { destruct (Z.le_gt_cases eL 11) as [|Hgt]; [assumption|exfalso].
    pose proof (HnearL 4503599627370496%positive 11 eq_refl) as H.
    assert (E63 : fval 4503599627370496 11 = IZR (2 ^ 63)).
    { unfold fval; rewrite bpow_IZR, <- mult_IZR by lia; reflexivity. }
    rewrite E63 in H.
    assert (N < IZR (2 ^ 63))%R by (apply IZR_lt; lia).
    assert (IZR (2 ^ 64) <= L)%R.
    { unfold L, fval.
      assert (bpow 12 <= bpow eL)%R by (apply bpow_le; lia).
      rewrite bpow_IZR in H1 by lia.
      apply IZR_le in HmL52.
      replace (IZR (2 ^ 64)) with (IZR (2 ^ 52) * IZR (2 ^ 12))%R
        by (rewrite <- mult_IZR; reflexivity).
      assert (0 < IZR (2 ^ 12))%R by (apply IZR_lt; lia).
      assert (0 < IZR (2 ^ 52))%R by (apply IZR_lt; lia).
      nra. }
    assert (IZR (2 ^ 63) < IZR (2 ^ 64))%R by (apply IZR_lt; lia).
    rewrite (Rabs_pos_eq (IZR (2 ^ 63) - N)) in H by lra.
    rewrite (Rabs_pos_eq (L - N)) in H by lra.
    lra. }
  pose proof (Prim2SF_valid (k * of_uint63 (of_Z len))) as Hv.
  pose proof (mul_spec k (of_uint63 (of_Z len))) as Em.
  rewrite EL in Em; unfold SF64mul in Em.
  destruct (@keep_fraction_cases k Hk0 Hk1)
    as [[s Ek] | [mk [ek [Ek [Hck [Hek Hkv]]]]]]; rewrite Ek in Em.
  { exists 0; split; [|lia].
    unfold float_trunc; rewrite Em; reflexivity. }
  cbn [SFmul xorb] in Em.
  destruct (canonical_bounds _ _ Hck) as [Hek0 [Hmk _]].
  assert (Hov : Z.max (ek + eL)
                  (fexp prec emax (Zpos (digits2_pos (mk * mL)) + (ek + eL))) < 971).
  { rewrite fexp_eq.
    assert (Zpos (digits2_pos (mk * mL)) <= 106); [|lia].
    apply digits2_pos_le; rewrite Pos2Z.inj_mul.
    change (2 ^ 106) with (2 ^ 53 * 2 ^ 53). nia. }
  destruct (@round_nearest (mk * mL) (ek + eL) Hov) as [Hform Hnear];
    cbv zeta in Hform, Hnear.
  rewrite <- Em in Hform, Hnear.
  destruct Hform as [Ez | [m3 [e3 Ef]]].
  { exists 0; split; [|lia].
    unfold float_trunc; rewrite Ez; reflexivity. }
  rewrite Ef in Hv, Hnear; simpl SF2R in Hnear.
  unfold valid_binary, bounded in Hv; apply andb_true_iff in Hv as [Hc3 _].
  set (V := fval (Zpos m3) e3) in *.
  rewrite Pos2Z.inj_mul, fval_mul in Hnear.
  fold L in Hnear.
  set (kv := fval (Zpos mk) ek) in *.
  set (u := bpow eL).
  assert (Hu : (0 < u)%R) by apply bpow_pos.
  assert (HP : (kv * L * IZR (2 ^ 53) <= IZR (2 ^ 53 - 1) * L)%R).
  { replace (kv * L * IZR (2 ^ 53))%R with (kv * IZR (2 ^ 53) * L)%R by ring.
    apply Rmult_le_compat_r; lra. }
  assert (H53 : IZR (2 ^ 53 - 1) = (IZR (2 ^ 53) - 1)%R)
    by (rewrite minus_IZR; reflexivity).
  assert (H53p : (0 < IZR (2 ^ 53))%R) by (apply IZR_lt; lia).
  set (P := (kv * L)%R) in *.
  assert (HPL : (P < L)%R) by nra.
  assert (HVL : (V < L)%R).
  { destruct (Rlt_le_dec V L) as [|Hge]; [assumption|exfalso].
    pose proof (Hnear mL eL HcL) as H1; fold L in H1.
    rewrite (Rabs_pos_eq (L - P)) in H1 by lra.
    rewrite (Rabs_pos_eq (V - P)) in H1 by lra.
    assert (EV : V = L) by lra.
    destruct (Z.eq_dec (Zpos mL) (2 ^ 52)) as [E52|N52].
    - assert (Hcp : canonical_mantissa prec emax 9007199254740991 (eL - 1) = true)
        by (apply canonical_normal; lia).
      pose proof (Hnear _ _ Hcp) as H2.
      set (h := bpow (eL - 1)) in *.
      assert (Hh : (0 < h)%R) by apply bpow_pos.
      assert (Eu : u = (2 * h)%R).
      { unfold u, h. replace eL with ((eL - 1) + 1) at 1 by ring.
        rewrite bpow_add. unfold bpow at 2; simpl. ring. }
      assert (EL' : L = (IZR (2 ^ 53) * h)%R).
      { unfold L, fval; fold u; rewrite Eu, E52.
        change (2 ^ 53) with (2 ^ 52 * 2); rewrite mult_IZR; ring. }
      unfold fval in H2; fold h in H2.
      change 9007199254740991 with (2 ^ 53 - 1) in H2.
      rewrite H53 in *.
      rewrite EV in H2.
      rewrite (Rabs_pos_eq (L - P)) in H2 by lra.
      unfold Rabs in H2; destruct (Rcase_abs _) in H2; nra.
    - assert (Hm1 : 2 ^ 52 <= Zpos (Pos.pred mL) < 2 ^ 53)
        by (rewrite Pos2Z.inj_pred by lia; lia).
      assert (Hcp : canonical_mantissa prec emax (Pos.pred mL) eL = true)
        by (apply canonical_normal; lia).
      pose proof (Hnear _ _ Hcp) as H2.
      unfold fval in H2; fold u in H2.
      replace (Zpos (Pos.pred mL)) with (Zpos mL - 1) in H2
        by (rewrite Pos2Z.inj_pred by lia; lia).
      rewrite minus_IZR in H2.
      assert (EL' : L = (IZR (Zpos mL) * u)%R) by reflexivity.
      assert (HmL' : (IZR (2 ^ 52) + 1 <= IZR (Zpos mL))%R).
      { rewrite <- plus_IZR; apply IZR_le; lia. }
      assert (HLu : ((IZR (2 ^ 52) + 1) * u <= L)%R)
        by (rewrite EL'; apply Rmult_le_compat_r; lra).
      assert (E2 : IZR (2 ^ 53) = (2 * IZR (2 ^ 52))%R)
        by (rewrite <- mult_IZR; reflexivity).
      rewrite EV in H2.
      rewrite (Rabs_pos_eq (L - P)) in H2 by lra.
      replace ((IZR (Zpos mL) - 1) * u - P)%R with (L - u - P)%R in H2
        by (rewrite EL'; ring).
      rewrite H53 in *.
      unfold Rabs in H2; destruct (Rcase_abs _) in H2; nra. }
  assert (HVN : (V < N)%R).
  { destruct (Rlt_le_dec V N) as [|Hge]; [assumption|exfalso].
    pose proof (HnearL m3 e3 Hc3) as H; fold V in H.
    rewrite (Rabs_pos_eq (V - N)) in H by lra.
    rewrite (Rabs_pos_eq (L - N)) in H by lra.
    lra. }
  destruct (float_trunc_below _ Ef) as [a [Ea [Ha0 HaV]]].
  exists a; split; [exact Ea|].
  fold V in HaV.
  assert (Hlt : (IZR a < N)%R) by lra.
  apply lt_IZR in Hlt; lia.
Qed.

(** The rank [int(k * len(pool))] in binary64.  A length below [2^63],
    as every Python length is, is converted to the nearest binary64
    number and the bound is [float_rank_below]; the conversion of the
    model wraps a larger number around, which keeps the rank below
    it. *)
Lemma float_threshold_rank (k : float) (n : nat) :
  0 < Z.of_nat n ->
  PrimFloat.leb 0 k = true -> PrimFloat.ltb k 1 = true ->
  exists z, threshold_rank k n = Ok z /\ 0 <= z <= Z.of_nat n - 1.
Proof.
  intros Hn Hk0 Hk1.
  unfold threshold_rank; cbn [Ftrunc Fmul Fofnat float_arith]; unfold float_of_nat.
  set (len := Z.of_nat n mod wB).
  assert (Hlen : 0 <= len < 2 ^ 63) by (apply Z.mod_pos_bound; reflexivity).
  assert (Hle : len <= Z.of_nat n) by (apply Z.mod_le; [lia | reflexivity]).
  assert (E : of_Z (Z.of_nat n) = of_Z len).
  { apply to_Z_inj; rewrite !of_Z_spec; unfold len.
    rewrite Z.mod_mod; [reflexivity | discriminate]. }
  rewrite E.
  destruct (Z.eq_dec len 0) as [E0|N0].
  - rewrite E0; exists 0; split; [|lia].
    pose proof (mul_spec k (of_uint63 (of_Z 0))) as Em.
    change (Prim2SF (of_uint63 (of_Z 0))) with (S754_zero false) in Em.
    unfold float_trunc.
    destruct (@keep_fraction_cases k Hk0 Hk1)
      as [[s Ek] | [mk [ek [Ek _]]]]; rewrite Ek in Em; rewrite Em; reflexivity.
  - destruct (@float_rank_below k len) as [z [Ez Hz]]; try assumption; [lia|].
    exists z; split; [exact Ez | lia].
Qed.

End Rounding.

(** C10.  For a non-empty pool of length [L] and a keep-fraction
    [0 <= k < 1], the rank [int(k * L)] lies in [0, L - 1], and the
    threshold is the element of the sorted pool at that rank: no index
    error.  First in binary64, as the program computes it: [L] is
    converted to the nearest binary64 number, the product is rounded
    to nearest, and [int] truncates; the rounded product stays below
    [L].  Then over the reals. *)
Theorem threshold_rank_in_bounds :
  (forall (k : float) (pool : list float),
     pool <> [] -> Fleb F0 k = true -> Fltb k F1 = true ->
     exists z : Z,
       threshold_rank k (length pool) = Ok z /\
       (0 <= z <= Z.of_nat (length pool) - 1)%Z /\
       exists v : float,
         percentile_threshold k pool = Ok v /\
         nth_error (sorted pool) (Z.to_nat z) = Some v) /\
  (forall (k : R) (pool : list R),
     pool <> [] -> (0 <= k < 1)%R ->
     exists z : Z,
       threshold_rank k (length pool) = Ok z /\
       (0 <= z <= Z.of_nat (length pool) - 1)%Z /\
       exists v : R,
         percentile_threshold k pool = Ok v /\
         nth_error (sorted pool) (Z.to_nat z) = Some v).
Proof.
  split.
  - intros k pool Hne Hk0 Hk1.
    assert (HL : (0 < Z.of_nat (length pool))%Z)
      by (destruct pool; [congruence | simpl; lia]).
    destruct (@float_threshold_rank k (length pool) HL Hk0 Hk1) as [z [Hrank Hz]].
    exists z; split; [exact Hrank|]; split; [exact Hz|].
    destruct (@py_index_in_range float (sorted pool) z) as [v [Hv Hnth]].
    { rewrite length_sorted; lia. }
    exists v; split; [|exact Hnth].
    unfold percentile_threshold; rewrite Hrank; simpl; exact Hv.
  - intros k pool Hne [Hk0 Hk1].
    assert (HL : (0 < INR (length pool))%R).
    { apply lt_0_INR; destruct pool; [congruence | simpl; lia]. }
    set (x := (k * INR (length pool))%R).
    assert (Hx0 : (0 <= x)%R) by (unfold x; nra).
    assert (Hx1 : (x < INR (length pool))%R) by (unfold x; nra).
    assert (Hz : (0 <= Zfloor x <= Z.of_nat (length pool) - 1)%Z).
    { split.
      - apply Zfloor_lub; simpl; exact Hx0.
      - pose proof (Zfloor_bound x) as [Hlo _].
        rewrite INR_IZR_INZ in Hx1.
        assert (Hlt : (IZR (Zfloor x) < IZR (Z.of_nat (length pool)))%R) by lra.
        apply lt_IZR in Hlt; lia. }
    exists (Zfloor x).
    assert (Hrank : threshold_rank k (length pool) = Ok (Zfloor x)).
    { unfold threshold_rank; simpl.
      fold x; rewrite (R_trunc_nonneg Hx0); reflexivity. }
    split; [exact Hrank|]; split; [exact Hz|].
    destruct (@py_index_in_range R (sorted pool) (Zfloor x)) as [v [Hv Hnth]].
    { rewrite length_sorted; lia. }
    exists v; split; [|exact Hnth].
    unfold percentile_threshold; rewrite Hrank; simpl; exact Hv.
Qed.

(** ** The claims on [iter_max] *)

(** C1, on the program.  The result follows the module-level [sim], not
    the argument: with [sim] bound to the 2 x 2 identity, the
    anti-diagonal argument and the identity argument both give the
    identity, while the anti-diagonal read as [sim] gives the
    anti-diagonal; and where [sim] is not bound the call raises
    [NameError]. *)
Theorem iter_max_reads_module_sim :
  iter_max {| g_sim := Some sim_diag |} sim_anti 3 = Ok sim_diag /\
  iter_max {| g_sim := Some sim_diag |} sim_diag 3 = Ok sim_diag /\
  iter_max {| g_sim := Some sim_anti |} sim_anti 3 = Ok sim_anti /\
  iter_max {| g_sim := None |} sim_anti 3 = Raise NameError.
Proof. repeat split; vm_compute; reflexivity. Qed.


Lemma iter_max_terminates_witness :
  exists j,
    j <= Z.to_nat 1 /\
    iter_max {| g_sim := Some sim_3x3 |} sim_3x3 1 =
      Ok (accumulated sim_3x3 3 3 j) /\
    (forall i, i < j ->
       converged sim_3x3 3 3 (accumulated sim_3x3 3 3 i) = false) /\
    (j = Z.to_nat 1 \/
     converged sim_3x3 3 3 (accumulated sim_3x3 3 3 j) = true).
Proof.
  apply (proj2 (proj2 (iter_max_terminates
                         {| g_sim := Some sim_3x3 |} sim_3x3 1%Z))).
  - lia.
  - reflexivity.
  - reflexivity.
  - simpl; lia.
Defined.

(** *** The masks of a round *)

Lemma rect_sim_3x3 : rect 3 3 sim_3x3.
Proof. split; [reflexivity | repeat constructor]. Qed.

(** Two float arrays differ when a cell of the first is [v] and the same
    cell of the second is not. *)
Lemma float_matrix_differ (A B : matrix float) (i j : nat) (v : float) :
  PrimFloat.eqb (get A i j) v = true ->
  PrimFloat.eqb (get B i j) v = false ->
  A <> B.
Proof. intros HA HB E; subst B; rewrite HA in HB; discriminate HB. Qed.

(** C6, on the program.  The round-0 intersection that [iter_max]
    returns for a small matrix is the one of the matrix bound to the
    module-level name [sim], not the one of its argument.  With [sim]
    bound to the 2 x 2 identity and the anti-diagonal passed as the
    argument, the call returns the identity for every budget, while
    the round-0 intersection of the argument is the anti-diagonal;
    with [sim] unbound the call raises [NameError]; and an array with
    no column raises [ValueError] even when it is both the argument
    and [sim].  What the code does give: for [S] bound to [sim], not
    empty, with [min(m, n) <= 2], the round-0 intersection of [S] for
    every budget and every argument, which is [[1]] on a 1 x 1 matrix,
    in binary64 and over the reals. *)
Theorem iter_max_small_matrix :
  (forall K : Z,
     iter_max {| g_sim := Some sim_diag |} sim_anti K = Ok sim_diag /\
     intersection0 sim_anti = sim_anti /\
     iter_max {| g_sim := Some sim_diag |} sim_anti K
       <> Ok (intersection0 sim_anti) /\
     iter_max {| g_sim := None |} sim_anti K = Raise NameError /\
     iter_max {| g_sim := Some [[]] |} ([[]] : matrix float) K
       = Raise ValueError) /\
  (forall (F : Type) (AF : Arith F) (g : globals) (p S : matrix F) (K : Z)
          (m n : nat),
     g_sim g = Some S -> shape S = (m, n) -> 0 < m -> 0 < n ->
     Nat.min m n <= 2 ->
     iter_max g p K = Ok (intersection0 S) /\
     intersection0 S = mmul (argmax_rows n S) (transpose m (argmax_cols m n S))) /\
  (forall (x : float) (p : matrix float) (K : Z),
     iter_max {| g_sim := Some [[x]] |} p K = Ok [[1%float]]) /\
  (forall (x : R) (p : matrix R) (K : Z),
     iter_max {| g_sim := Some [[x]] |} p K = Ok [[1%R]]).
Proof.
  split; [|split; [|split]].
  - intros K.
    assert (E : iter_max {| g_sim := Some sim_diag |} sim_anti K = Ok sim_diag).
    { rewrite (@iter_max_small float _ _ sim_anti sim_diag K 2 2);
        try reflexivity; try lia. }
    assert (I : intersection0 sim_anti = sim_anti) by (vm_compute; reflexivity).
    split; [exact E|]; split; [exact I|]; split; [|split].
    + rewrite E, I; intros H.
      apply (f_equal (fun o => match o with Ok v => v | _ => [] end)) in H.
      revert H; apply (@float_matrix_differ _ _ 0 0 1%float); reflexivity.
    + apply iter_max_unbound.
    + reflexivity.
  - intros F AF g p S K m n Hg Hs Hm Hn Hmin; split.
    + eapply iter_max_small; eauto.
    + unfold intersection0; rewrite Hs; reflexivity.
  - intros x p K.
    rewrite (@iter_max_small float _ _ p [[x]] K 1 1); try reflexivity; try lia.
    unfold intersection0, argmax_rows, argmax_cols, argmax; simpl.
    destruct (Fisnan x); reflexivity.
  - intros x p K.
    rewrite (@iter_max_small R _ _ p [[x]] K 1 1); try reflexivity; try lia.
    unfold intersection0, argmax_rows, argmax_cols, argmax; simpl.
    rewrite R_isnan; unfold mmul, mmap2, transpose, col, one_hot; simpl.
    rewrite Rmult_1_r; reflexivity.
Qed.

Lemma iter_max_small_matrix_witness :
  iter_max {| g_sim := Some sim_2x3 |} sim_2x3 7 = Ok (intersection0 sim_2x3) /\
  intersection0 sim_2x3 =
    mmul (argmax_rows 3 sim_2x3) (transpose 2 (argmax_cols 2 3 sim_2x3)).
Proof.
  apply (proj1 (proj2 iter_max_small_matrix) float float_arith
           {| g_sim := Some sim_2x3 |} sim_2x3 sim_2x3 7%Z 2 3).
  - reflexivity.
  - reflexivity.
  - lia.
  - lia.
  - simpl; lia.
Defined.

(** C3, refuted as stated.  On [[3,2,1],[2,1,0],[1,0,0]] round 0 matches
    cell (0, 0) alone, and this is the accumulator of the first
    refinement round.  There the guard does not fire, and each of the
    three objects differs from the claim's: the program's mask is 1 at
    cell (1, 1), whose row and column are both unmatched, where the
    claim's is 0; the damped similarity at (0, 1) is [2 * 0.9], not
    [2 * (1 - 0.9)]; the zero-mask at (0, 0) is 0, where the claim's
    formula gives 1. *)
Lemma iter_max_round_masks_counterexample :
  let inter := accumulated sim_3x3 3 3 0 in
  let mask_x := unmatched_rows 3 3 inter in
  let mask_y := unmatched_cols 3 3 inter in
  iter_max {| g_sim := Some sim_3x3 |} sim_3x3 0 = Ok inter /\
  inter = [[1; 0; 0]; [0; 0; 0]; [0; 0; 0]]%float /\
  exhausted mask_x mask_y = false /\
  competition_mask mask_x mask_y <> spec_damping_mask 3 3 inter /\
  damped_sim sim_3x3 3 3 inter <> spec_damped_sim sim_3x3 3 3 inter /\
  zero_mask mask_x mask_y <> spec_zero_mask 3 3 inter.
Proof.
  cbv zeta.
  split; [vm_compute; reflexivity|].
  split; [vm_compute; reflexivity|].
  split; [vm_compute; reflexivity|].
  split; [|split].
  - apply (@float_matrix_differ _ _ 1 1 1%float); vm_compute; reflexivity.
  - apply (@float_matrix_differ _ _ 0 1 0x1.ccccccccccccdp+0%float);
      vm_compute; reflexivity.
  - apply (@float_matrix_differ _ _ 0 0 0%float); vm_compute; reflexivity.
Qed.

(** ** The claims on the calibration run *)

(** C2, on the program.  With a keep-fraction of 0.5 and the 2 x 3
    matrix of the specification as the whole corpus, no sentence pair
    gives a score, every pool is empty, and the threshold computation
    raises [IndexError], whatever the entropy functions and the
    external matchers are. *)
Theorem empty_pool_raises (EF : External float) (MF : Matchers float) :
  main {| null_align := 0x1p-1%float;
          distortion := 0%float;
          matching_methods := ["mwmf"; "inter"; "itermax"]%string |}
       [sim_2x3]
  = Raise IndexError.
Proof.
  unfold main, calibrate; cbn [null_align distortion matching_methods].
  change (Fltb 0x1p-1%float F1) with true; cbv iota.
  cbn [for_each]; unfold pool_sentence; cbn [distortion].
  change (apply_distortion sim_2x3 0%float) with sim_2x3.
  destruct (get_alignment_matrix sim_2x3) as [fwd bwd].
  vm_compute; reflexivity.
Qed.

(** C9.  When the keep-fraction is not below 1 the run is the run
    without the filter, whatever the entropy functions are: no pool is
    gathered, no threshold computed, no mask built or applied, and the
    matrices of every method are those of the matchers.  The
    keep-fraction [1.0] is such a number, in binary64 and over the
    reals. *)
Theorem null_align_one_disables :
  (forall (F : Type) (AF : Arith F) (EF : External F) (MF : Matchers F)
          (a : args) (corpus : list (matrix F)),
     Fltb (null_align a) F1 = false ->
     main a corpus = run_unfiltered a corpus) /\
  (forall (EF : External float) (MF : Matchers float) (d : float)
          (methods : list string) (corpus : list (matrix float)),
     let a := {| null_align := 1%float; distortion := d;
                 matching_methods := methods |} in
     main a corpus = run_unfiltered a corpus) /\
  (forall (EF : External R) (MF : Matchers R) (d : R)
          (methods : list string) (corpus : list (matrix R)),
     let a := {| null_align := 1%R; distortion := d;
                 matching_methods := methods |} in
     main a corpus = run_unfiltered a corpus).
Proof.
  split; [|split].
  - intros F AF EF MF a corpus Hk; apply main_without_filter; exact Hk.
  - intros EF MF d methods corpus a; apply main_without_filter; reflexivity.
  - intros EF MF d methods corpus a; apply main_without_filter.
    apply Rltb_false; simpl; lra.
Qed.

Lemma null_align_one_disables_witness :
  let a := {| null_align := 1%R; distortion := 0%R;
              matching_methods := ["inter"; "itermax"]%string |} in
  main (MF := argmax_matchers) a [eye3] =
  run_unfiltered (MF := argmax_matchers) a [eye3].
Proof.
  intros a.
  apply (proj1 null_align_one_disables R real_arith real_external
               argmax_matchers a [eye3]).
  apply Rltb_false; simpl; lra.
Defined.

(** ** Instances of the general theorems *)

(** C5.  [apply_distortion] returns its input unchanged when a
    dimension is below 2 or the ratio compares equal to 0; otherwise
    the output has the shape of the input and its cell (i, j) is
    [S[i,j] * (1 - (j/(n-1) - i/(m-1))^2 * r)], the factor being
    computed in this order by the program.  Over the reals this is
    [S[i,j] * (1 - r * (j/(n-1) - i/(m-1))^2)]. *)
Theorem apply_distortion_spec :
  (forall (F : Type) (AF : Arith F) (S : matrix F) (r : F) (m n : nat),
     shape S = (m, n) ->
     (m < 2 \/ n < 2 \/ Feqb r F0 = true -> apply_distortion S r = S) /\
     (2 <= m -> 2 <= n -> Feqb r F0 = false -> rect m n S ->
      rect m n (apply_distortion S r) /\
      forall i j, i < m -> j < n ->
        get (apply_distortion S r) i j =
        Fmul (get S i j)
             (Fsub F1
                (Fmul (Fmul (Fsub (Fdiv (Fofnat j) (Fofnat (n - 1)))
                                  (Fdiv (Fofnat i) (Fofnat (m - 1))))
                            (Fsub (Fdiv (Fofnat j) (Fofnat (n - 1)))
                                  (Fdiv (Fofnat i) (Fofnat (m - 1)))))
                      r)))) /\
  (forall (S : matrix R) (r : R) (m n i j : nat),
     shape S = (m, n) -> rect m n S ->
     2 <= m -> 2 <= n -> r <> 0%R -> i < m -> j < n ->
     get (apply_distortion S r) i j =
     (get S i j *
      (1 - r * (INR j / INR (n - 1) - INR i / INR (m - 1)) ^ 2))%R).
Proof.
  split.
  - intros F AF S r m n Hs; apply apply_distortion_cells; exact Hs.
  - intros S r m n i j Hs HS Hm Hn Hr Hi Hj.
    assert (Hr' : Feqb r F0 = false).
    { simpl; unfold Reqb; destruct (Req_dec_T r 0); [contradiction | reflexivity]. }
    destruct (proj2 (apply_distortion_cells r Hs) Hm Hn Hr' HS) as [_ Hcell].
    rewrite (Hcell i j Hi Hj); simpl; ring.
Qed.

Lemma apply_distortion_spec_witness :
  rect 3 3 (apply_distortion sim_3x3 0x1p-1%float) /\
  forall i j, i < 3 -> j < 3 ->
    get (apply_distortion sim_3x3 0x1p-1%float) i j =
    Fmul (get sim_3x3 i j)
         (Fsub F1
            (Fmul (Fmul (Fsub (Fdiv (Fofnat j) (Fofnat (3 - 1)))
                              (Fdiv (Fofnat i) (Fofnat (3 - 1))))
                        (Fsub (Fdiv (Fofnat j) (Fofnat (3 - 1)))
                              (Fdiv (Fofnat i) (Fofnat (3 - 1)))))
                  0x1p-1%float)).
Proof.
  apply (proj2 (proj1 apply_distortion_spec float float_arith sim_3x3
                  0x1p-1%float 3 3 eq_refl)).
  - lia.
  - lia.
  - reflexivity.
  - exact rect_sim_3x3.
Defined.

(** The run of the specification's end-to-end example: the 2 x 3
    matrix gives the cells (0, 0) and (1, 2), for any budget. *)
Example iter_max_end_to_end :
  iter_max {| g_sim := Some sim_2x3 |} sim_2x3 5 =
  Ok [[1; 0; 0]; [0; 0; 1]]%float.
Proof. vm_compute; reflexivity. Qed.

(** Distortion with ratio 0.5 on the 3 x 3 sample, evaluated. *)
Example apply_distortion_sample :
  apply_distortion sim_3x3 0x1p-1%float =
  [[3; 0x1.cp+0; 0x1p-1]; [0x1.cp+0; 1; 0]; [0x1p-1; 0; 0]]%float.
Proof. vm_compute; reflexivity. Qed.

(** The largest keep-fraction below 1 still gives a rank inside a pool
    of three in binary64. *)
Example threshold_rank_float_sample :
  threshold_rank 0x1.fffffffffffffp-1%float 3 = Ok 2%Z.
Proof. vm_compute; reflexivity. Qed.

(** C4, as the program has it.  Entropy scoring returns nothing when
    [min(m, n) <= 2].  Otherwise it returns, in row-major order, the
    products [A[i,j] * min(rowEntropy[i], colEntropy[j])] that are
    greater than 0: a cell whose product is not positive gives no
    scalar, whatever [A[i,j]] is.  Over the reals, for a 0/1 matrix
    [A], these are the scores [min(rowEntropy[i], colEntropy[j])] of
    the cells with [A[i,j] = 1] whose score is positive. *)
Theorem gather_null_aligns_spec :
  (forall (F : Type) (AF : Arith F) (EF : External F) (S A : matrix F)
          (m n : nat),
     shape S = (m, n) ->
     (Nat.min m n <= 2 -> gather_null_aligns S A = []) /\
     (2 < Nat.min m n -> rect m n A ->
      gather_null_aligns S A =
      filter (fun x => Fltb F0 x)
             (concat (build m n
                        (fun i j => Fmul (get A i j) (cell_score S i j)))))) /\
  (forall (EF : External R) (S A : matrix R) (m n : nat),
     shape S = (m, n) -> 2 < Nat.min m n -> rect m n A ->
     (forall i j, i < m -> j < n -> get A i j = 0%R \/ get A i j = 1%R) ->
     gather_null_aligns S A =
     flat_map (fun i =>
       flat_map (fun j =>
         if Reqb (get A i j) 1 && Rltb 0 (cell_score S i j)
         then [cell_score S i j] else [])
         (seq 0 n))
       (seq 0 m)).
Proof.
  split.
  - intros F AF EF S A m n Hs; split.
    + apply gather_null_aligns_small; exact Hs.
    + apply gather_null_aligns_cells; exact Hs.
  - intros EF S A m n Hs Hgt HA Hbin.
    rewrite (gather_null_aligns_cells Hs Hgt HA).
    unfold build; rewrite filter_concat_map.
    apply flat_map_ext_in; intros i Hi; apply in_seq in Hi.
    rewrite filter_map_cells.
    apply flat_map_ext_in; intros j Hj; apply in_seq in Hj.
    simpl Fltb; simpl Fmul; simpl F0.
    destruct (Hbin i j) as [E|E]; try lia; rewrite E.
    + rewrite (@Rltb_false 0%R (0 * cell_score S i j)%R) by lra.
      unfold Reqb; destruct (Req_dec_T 0 1); [lra | reflexivity].
    + rewrite Reqb_refl, Rmult_1_l; reflexivity.
Qed.

Lemma gather_null_aligns_spec_witness :
  gather_null_aligns eye3 eye3 =
  filter (fun x => Fltb F0 x)
         (concat (build 3 3 (fun i j => Fmul (get eye3 i j) (cell_score eye3 i j)))).
Proof.
  apply (proj2 (proj1 gather_null_aligns_spec R real_arith real_external
                  eye3 eye3 3 3 eq_refl)).
  - simpl; lia.
  - exact rect_eye3.
Defined.

Lemma apply_percentile_null_aligns_spec_witness :
  rect 3 3 (apply_percentile_null_aligns eye3 (1 / 2)%R) /\
  forall i j, i < 3 -> j < 3 ->
    get (apply_percentile_null_aligns eye3 (1 / 2)%R) i j =
    if Fltb (1 / 2)%R (cell_score eye3 i j) then F0 else F1.
Proof.
  apply (proj2 (@apply_percentile_null_aligns_spec R real_arith real_external
                  eye3 (1 / 2)%R 3 3 eq_refl)).
  simpl; lia.
Defined.

Lemma threshold_rank_in_bounds_witness :
  exists z : Z,
    threshold_rank 0x1p-1%float (length [3; 1; 2]%float) = Ok z /\
    (0 <= z <= Z.of_nat (length [3; 1; 2]%float) - 1)%Z /\
    exists v : float,
      percentile_threshold 0x1p-1%float [3; 1; 2]%float = Ok v /\
      nth_error (sorted [3; 1; 2]%float) (Z.to_nat z) = Some v.
Proof.
  apply (proj1 threshold_rank_in_bounds 0x1p-1%float [3; 1; 2]%float).
  - discriminate.
  - reflexivity.
  - reflexivity.
Defined.

(** * Further properties of the program *)

Section Outcomes.

Context {F : Type} {AF : Arith F}.

Local Abbreviation matrix := (matrix F).

(** ** argmax and the one-hot matrices *)

Lemma argmax_from_bound (l : list F) :
  forall best mp i, best < i -> argmax_from best mp i l < i + length l.
Proof.
  induction l as [|x t IH]; simpl; intros best mp i Hb; [lia|].
  destruct (negb (Fleb x mp)).
  - destruct (Fisnan x); [lia|].
    specialize (IH i x (Datatypes.S i)); lia.
  - specialize (IH best mp (Datatypes.S i)); lia.
Qed.

Lemma argmax_in_range (l : list F) : l <> [] -> argmax l < length l.
Proof.
  destruct l as [|x t]; [congruence|]; intros _; simpl.
  destruct (Fisnan x); [lia|].
  pose proof (@argmax_from_bound t 0 x 1); lia.
Qed.

Lemma length_one_hot (n k : nat) : length (one_hot n k) = n.
Proof. unfold one_hot; rewrite length_map, length_seq; reflexivity. Qed.

Lemma rect_argmax_rows (n : nat) (M : matrix) :
  rect (length M) n (argmax_rows n M).
Proof.
  split; unfold argmax_rows.
  - apply length_map.
  - apply Forall_forall; intros r Hin.
    apply in_map_iff in Hin as [r' [<- _]]; apply length_one_hot.
Qed.

Lemma rect_argmax_cols (m n : nat) (M : matrix) :
  rect n m (argmax_cols m n M).
Proof.
  split; unfold argmax_cols.
  - rewrite length_map, length_seq; reflexivity.
  - apply Forall_forall; intros r Hin.
    apply in_map_iff in Hin as [j [<- _]]; apply length_one_hot.
Qed.

Lemma get_one_hot (n k j : nat) :
  j < n -> nth j (one_hot n k) F0 = if Nat.eqb j k then F1 else F0.
Proof.
  intros Hj; unfold one_hot.
  apply (nth_map_seq (fun j => if Nat.eqb j k then F1 else F0)); exact Hj.
Qed.

Lemma get_argmax_rows (n : nat) (M : matrix) (i j : nat) :
  i < length M -> j < n ->
  get (argmax_rows n M) i j =
  if Nat.eqb j (argmax (nth i M [])) then F1 else F0.
Proof.
  intros Hi Hj; unfold get, argmax_rows.
  rewrite (nth_indep _ [] (one_hot n (argmax []))) by (rewrite length_map; lia).
  rewrite (map_nth (fun r => one_hot n (argmax r))).
  apply get_one_hot; exact Hj.
Qed.

Lemma get_argmax_cols_t (m n : nat) (M : matrix) (i j : nat) :
  i < m -> j < n ->
  get (transpose m (argmax_cols m n M)) i j =
  if Nat.eqb i (argmax (col j M)) then F1 else F0.
Proof.
  intros Hi Hj.
  rewrite (get_transpose (rect_argmax_cols m n M) Hj Hi).
  unfold get, argmax_cols.
  rewrite (nth_map_seq (fun j => one_hot m (argmax (col j M)))) by exact Hj.
  apply get_one_hot; exact Hi.
Qed.

(** ** The shape of the result of iter_max *)

Lemma rect_intersection0 (S : matrix) (m n : nat) :
  shape S = (m, n) -> rect m n (intersection0 S).
Proof.
  intros Hs; unfold intersection0; rewrite Hs.
  assert (Hm : length S = m) by (unfold shape in Hs; congruence).
  apply rect_mmap2.
  - rewrite <- Hm; apply rect_argmax_rows.
  - apply rect_transpose, rect_argmax_cols.
Qed.

Lemma rect_zero_mask (m n : nat) (mx my : matrix) :
  rect m n mx -> rect m n my -> rect m n (zero_mask mx my).
Proof.
  intros Hx Hy; unfold zero_mask.
  assert (Hm : rect m n (mmap (Fsub F1)
                 (mmul (mmap (Fsub F1) mx) (mmap (Fsub F1) my))))
    by (apply rect_mmap, rect_mmap2; apply rect_mmap; assumption).
  destruct (exhausted mx my); [apply rect_mmap|]; exact Hm.
Qed.

Lemma length_damped_sim (S : matrix) (m n : nat) (inter : matrix) :
  length S = m -> length (damped_sim S m n inter) = m.
Proof.
  intros Hm; unfold damped_sim, mmul, mmap2.
  rewrite length_map2.
  pose proof (rect_competition_mask (rect_build m n _ : rect m n (unmatched_rows m n inter))
                                    (rect_build m n _ : rect m n (unmatched_cols m n inter)))
    as [Hl _].
  rewrite Hl, Hm; lia.
Qed.

Lemma rect_new_matches (S : matrix) (m n : nat) (inter : matrix) :
  length S = m -> rect m n (new_matches S m n inter).
Proof.
  intros Hm; unfold new_matches.
  pose proof (rect_zero_mask (rect_build m n _ : rect m n (unmatched_rows m n inter))
                             (rect_build m n _ : rect m n (unmatched_cols m n inter)))
    as Hz.
  apply rect_mmap2; apply rect_mmap2; try exact Hz.
  - rewrite <- (@length_damped_sim S m n inter Hm) at 1; apply rect_argmax_rows.
  - apply rect_transpose, rect_argmax_cols.
Qed.

Lemma rect_accumulated (S : matrix) (m n j : nat) :
  shape S = (m, n) -> rect m n (accumulated S m n j).
Proof.
  intros Hs.
  assert (Hm : length S = m) by (unfold shape in Hs; congruence).
  induction j as [|j IH]; simpl.
  - apply rect_mmap2; [apply rect_intersection0; exact Hs | apply rect_build].
  - apply rect_mmap2; [exact IH | apply rect_new_matches; exact Hm].
Qed.

(** The result of the loop, for a budget [K >= 0]: the accumulator of
    the first round that adds nothing, or of round [K]. *)
Lemma iter_max_rounds (g : globals) (p S : matrix) (K : Z) (m n : nat) :
  (0 <= K)%Z -> g_sim g = Some S -> shape S = (m, n) -> 2 < Nat.min m n ->
  exists j,
    j <= Z.to_nat K /\
    iter_max g p K = Ok (accumulated S m n j) /\
    (forall i, i < j -> converged S m n (accumulated S m n i) = false) /\
    (j = Z.to_nat K \/ converged S m n (accumulated S m n j) = true).
Proof.
  intros HK Hg Hs Hmin; unfold iter_max, iter_max_fuel.
  rewrite Hg, Hs.
  destruct (Nat.eqb_spec m 0) as [E|_]; [lia|].
  destruct (Nat.eqb_spec n 0) as [E|_]; [lia|]; simpl.
  destruct (Nat.leb_spec (Nat.min m n) 2) as [Hle|_]; [lia|].
  destruct (@while_loop_rounds F AF S m n K (Z.to_nat (K + 1)) 0
              (Z.to_nat (K + 1) + 1) (intersection0 S) (zeros m n))
    as [R [HR Hcase]]; [lia | lia | reflexivity |].
  simpl in HR; rewrite HR.
  destruct Hcase as [[Hd _] | [j [_ [HjK [HRj [Hbefore Hstop]]]]]]; [lia|].
  exists j; split; [lia|]; split; [rewrite HRj; reflexivity|].
  split; [intros i Hi; apply Hbefore; lia|].
  destruct Hstop as [Hlast | Hfix]; [left; lia | right; exact Hfix].
Qed.

Lemma iter_max_negative_large (g : globals) (p S : matrix) (K : Z) (m n : nat) :
  (K < 0)%Z -> g_sim g = Some S -> shape S = (m, n) -> 0 < m -> 0 < n ->
  iter_max g p K = Ok (intersection0 S).
Proof.
  intros HK Hg Hs Hm Hn; unfold iter_max, iter_max_fuel.
  rewrite Hg, Hs.
  destruct (Nat.eqb_spec m 0) as [E|_]; [lia|].
  destruct (Nat.eqb_spec n 0) as [E|_]; [lia|]; simpl.
  destruct (Nat.leb (Nat.min m n) 2); [reflexivity|].
  apply while_loop_negative; lia.
Qed.

End Outcomes.

Section Budget.

Context {F : Type} {AF : Arith F}.

Local Abbreviation matrix := (matrix F).

(** X1.  The three outcomes of [iter_max]: [NameError] when the name
    [sim] is not bound, [ValueError] when [sim] has no row or no
    column, and otherwise a matrix of the shape of [sim], whatever the
    argument and the budget are. *)
Theorem iter_max_outcome (g : globals) (p : matrix) (K : Z) :
  (g_sim g = None -> iter_max g p K = Raise NameError) /\
  (forall S m n, g_sim g = Some S -> shape S = (m, n) ->
     m = 0 \/ n = 0 -> iter_max g p K = Raise ValueError) /\
  (forall S m n, g_sim g = Some S -> shape S = (m, n) ->
     0 < m -> 0 < n ->
     exists R, iter_max g p K = Ok R /\ rect m n R).
Proof.
  split; [|split].
  - intros Hg; unfold iter_max, iter_max_fuel; rewrite Hg; reflexivity.
  - intros S m n Hg Hs Hz; unfold iter_max, iter_max_fuel; rewrite Hg, Hs.
    destruct Hz as [-> | ->]; [reflexivity|].
    rewrite orb_true_r; reflexivity.
  - intros S m n Hg Hs Hm Hn.
    destruct (Nat.leb_spec (Nat.min m n) 2) as [Hle|Hgt].
    + exists (intersection0 S); split.
      * eapply iter_max_small; eauto.
      * apply rect_intersection0; exact Hs.
    + destruct (Z.lt_ge_cases K 0) as [Hneg|Hpos].
      * exists (intersection0 S); split.
        -- eapply iter_max_negative_large; eauto.
        -- apply rect_intersection0; exact Hs.
      * destruct (@iter_max_rounds F AF g p S K m n Hpos Hg Hs Hgt)
          as [j [_ [HR _]]].
        exists (accumulated S m n j); split; [exact HR|].
        apply rect_accumulated; exact Hs.
Qed.

(** X2.  A budget below 0 runs no refinement round: the result is the
    round-0 intersection.  A budget of 0 runs the loop body once and
    returns the intersection with the all-zero [new_inter] added. *)
Theorem iter_max_no_round (g : globals) (p S : matrix) (K : Z) (m n : nat) :
  g_sim g = Some S -> shape S = (m, n) -> 0 < m -> 0 < n ->
  ((K < 0)%Z -> iter_max g p K = Ok (intersection0 S)) /\
  (K = 0%Z -> 2 < Nat.min m n ->
   iter_max g p K = Ok (madd (intersection0 S) (zeros m n))).
Proof.
  intros Hg Hs Hm Hn; split.
  - intros HK; eapply iter_max_negative_large; eauto.
  - intros -> Hgt.
    destruct (@iter_max_rounds F AF g p S 0 m n (Z.le_refl 0) Hg Hs Hgt)
      as [j [Hj [HR _]]].
    assert (j = 0) by (simpl in Hj; lia); subst j; exact HR.
Qed.

(** X3.  Once a round adds nothing, a larger budget changes nothing:
    if the result for budget [K1] is a fixed point of the round, every
    budget [K2 >= K1] gives the same result. *)
Theorem iter_max_budget_stable (g : globals) (p S : matrix) (K1 K2 : Z)
        (m n : nat) (R : matrix) :
  (0 <= K1 <= K2)%Z -> g_sim g = Some S -> shape S = (m, n) ->
  2 < Nat.min m n ->
  iter_max g p K1 = Ok R -> converged S m n R = true ->
  iter_max g p K2 = Ok R.
Proof.
  intros [HK1 HK12] Hg Hs Hgt HR Hfix.
  destruct (@iter_max_rounds F AF g p S K1 m n HK1 Hg Hs Hgt)
    as [j1 [Hj1 [HR1 [Hb1 _]]]].
  rewrite HR1 in HR; injection HR as HR; subst R.
  assert (HK2 : (0 <= K2)%Z) by lia.
  destruct (@iter_max_rounds F AF g p S K2 m n HK2 Hg Hs Hgt)
    as [j2 [Hj2 [HR2 [Hb2 Hs2]]]].
  rewrite HR2; do 2 f_equal.
  destruct (Nat.lt_trichotomy j2 j1) as [Hlt | [Heq | Hlt]]; [|exact Heq|].
  - destruct Hs2 as [Hlast | Hc2]; [lia|].
    rewrite (Hb1 j2 Hlt) in Hc2; discriminate Hc2.
  - rewrite (Hb2 j1 Hlt) in Hfix; discriminate Hfix.
Qed.

End Budget.

Lemma iter_max_outcome_witness :
  exists R, iter_max {| g_sim := Some sim_3x3 |} sim_anti 2 = Ok R /\ rect 3 3 R.
Proof.
  apply (proj2 (proj2 (iter_max_outcome {| g_sim := Some sim_3x3 |} sim_anti 2))
               sim_3x3 3 3); try reflexivity; lia.
Defined.

Lemma iter_max_no_round_witness :
  iter_max {| g_sim := Some sim_3x3 |} sim_3x3 (-2) = Ok (intersection0 sim_3x3).
Proof.
  apply (proj1 (@iter_max_no_round float float_arith
                  {| g_sim := Some sim_3x3 |} sim_3x3 sim_3x3 (-2) 3 3
                  eq_refl eq_refl (Nat.lt_0_succ 2) (Nat.lt_0_succ 2))).
  reflexivity.
Defined.

Lemma iter_max_budget_stable_witness :
  iter_max {| g_sim := Some sim_3x3 |} sim_3x3 9 =
  Ok [[1; 1; 1]; [1; 0; 0]; [1; 0; 0]]%float.
Proof.
  apply (@iter_max_budget_stable float float_arith
           {| g_sim := Some sim_3x3 |} sim_3x3 sim_3x3 2 9 3 3).
  - lia.
  - reflexivity.
  - reflexivity.
  - simpl; lia.
  - vm_compute; reflexivity.
  - vm_compute; reflexivity.
Defined.

(** ** argmax and round 0 over the reals *)

Lemma Rleb_true (x y : R) : (x <= y)%R -> Rleb x y = true.
Proof. intros H; unfold Rleb; destruct (Rle_dec x y); [reflexivity | contradiction]. Qed.

Lemma Rleb_false (x y : R) : (y < x)%R -> Rleb x y = false.
Proof. intros H; unfold Rleb; destruct (Rle_dec x y); [lra | reflexivity]. Qed.

(** The scan of [argmax], started after the prefix [pre] whose first
    maximum [mp] is at [best]. *)
Lemma R_argmax_from_spec (t : list R) :
  forall (pre : list R) (best : nat) (mp : R) (i : nat),
    i = length pre -> best < i -> nth best pre 0%R = mp ->
    (forall k, k < i -> (nth k pre 0 <= mp)%R) ->
    (forall k, k < best -> (nth k pre 0 < mp)%R) ->
    let r := argmax_from best mp i t in
    let l := pre ++ t in
    r < length l /\
    (forall k, k < length l -> (nth k l 0 <= nth r l 0)%R) /\
    (forall k, k < r -> (nth k l 0 < nth r l 0)%R).
Proof.
  induction t as [|x t IH]; intros pre best mp i Hi Hb Hmp Hmax Hfirst; simpl.
  - rewrite app_nil_r, Hmp; subst i; repeat split; auto.
  - rewrite R_isnan.
    assert (Hlen : Datatypes.S i = length (pre ++ [x]))
      by (rewrite length_app; simpl; lia).
    assert (Happ : pre ++ x :: t = (pre ++ [x]) ++ t)
      by (rewrite <- app_assoc; reflexivity).
    change (@Fleb R real_arith) with Rleb.
    destruct (Rle_dec x mp) as [Hle|Hgt].
    + rewrite (Rleb_true Hle); simpl; rewrite Happ.
      apply IH; auto.
      * rewrite app_nth1 by lia; exact Hmp.
      * intros k Hk.
        destruct (Nat.lt_ge_cases k i) as [Hki|Hki].
        -- rewrite app_nth1 by lia; apply Hmax; exact Hki.
        -- assert (k = i) by lia; subst k i.
           rewrite nth_middle; exact Hle.
      * intros k Hk; rewrite app_nth1 by lia; apply Hfirst; exact Hk.
    + assert (Hlt : (mp < x)%R) by lra.
      rewrite (Rleb_false Hlt); simpl; rewrite Happ.
      apply IH; auto.
      * subst i; apply nth_middle.
      * intros k Hk.
        destruct (Nat.lt_ge_cases k i) as [Hki|Hki].
        -- rewrite app_nth1 by lia; specialize (Hmax k Hki); lra.
        -- assert (k = i) by lia; subst k i.
           rewrite nth_middle; lra.
      * intros k Hk; rewrite app_nth1 by lia; specialize (Hmax k Hk); lra.
Qed.

Lemma R_argmax_first_max (l : list R) :
  l <> [] ->
  argmax l < length l /\
  (forall k, k < length l -> (nth k l 0 <= nth (argmax l) l 0)%R) /\
  (forall k, k < argmax l -> (nth k l 0 < nth (argmax l) l 0)%R).
Proof.
  destruct l as [|x t]; [congruence|]; intros _.
  unfold argmax; rewrite R_isnan.
  apply (@R_argmax_from_spec t [x] 0 x 1); simpl; auto.
  - intros k Hk; assert (k = 0) by lia; subst k; lra.
  - intros k Hk; lia.
Qed.

(** The first maximum is the only index with these properties. *)
Lemma R_argmax_unique (l : list R) (r : nat) :
  r < length l ->
  (forall k, k < length l -> (nth k l 0 <= nth r l 0)%R) ->
  (forall k, k < r -> (nth k l 0 < nth r l 0)%R) ->
  argmax l = r.
Proof.
  intros Hr Hmax Hfirst.
  assert (Hne : l <> []) by (destruct l; simpl in *; [lia | congruence]).
  destruct (R_argmax_first_max Hne) as [Ha [Hamax Hafirst]].
  destruct (Nat.lt_trichotomy (argmax l) r) as [Hlt | [Heq | Hlt]]; [|exact Heq|].
  - specialize (Hfirst _ Hlt); specialize (Hamax r Hr); lra.
  - specialize (Hafirst _ Hlt); specialize (Hmax _ Ha); lra.
Qed.

(** X4.  [argmax] of a non-empty vector is an index of the vector, for
    every number type; over the reals it is the index of the first
    maximum: no element is greater, and every earlier element is
    smaller. *)
Theorem argmax_first_maximum :
  (forall (F : Type) (AF : Arith F) (l : list F),
     l <> [] -> argmax l < length l) /\
  (forall l : list R,
     l <> [] ->
     (forall k, k < length l -> (nth k l 0 <= nth (argmax l) l 0)%R) /\
     (forall k, k < argmax l -> (nth k l 0 < nth (argmax l) l 0)%R)).
Proof.
  split.
  - intros F AF l Hne; apply argmax_in_range; exact Hne.
  - intros l Hne; destruct (R_argmax_first_max Hne) as [_ H]; exact H.
Qed.

Lemma argmax_first_maximum_witness :
  argmax [2; 5; 1; 5]%float < length [2; 5; 1; 5]%float.
Proof.
  apply (proj1 argmax_first_maximum float float_arith [2; 5; 1; 5]%float).
  discriminate.
Defined.

Lemma get_col {F : Type} {AF : Arith F} (M : matrix F) (i j : nat) :
  i < length M -> nth i (col j M) F0 = get M i j.
Proof.
  intros Hi; unfold col, get.
  rewrite (nth_indep _ F0 (nth j [] F0)) by (rewrite length_map; exact Hi).
  apply (map_nth (fun r => nth j r F0)).
Qed.

Lemma length_col {F : Type} {AF : Arith F} (M : matrix F) (j : nat) :
  length (col j M) = length M.
Proof. unfold col; apply length_map. Qed.

Lemma R_get_col (M : matrix R) (i j : nat) :
  i < length M -> nth i (col j M) 0%R = get M i j.
Proof. exact (@get_col R real_arith M i j). Qed.

(** A cell of round 0: the product of the two one-hot entries. *)
Lemma get_intersection0 {F : Type} {AF : Arith F} (S : matrix F)
      (m n i j : nat) :
  shape S = (m, n) -> i < m -> j < n ->
  get (intersection0 S) i j =
  Fmul (if Nat.eqb j (argmax (nth i S [])) then F1 else F0)
       (if Nat.eqb i (argmax (col j S)) then F1 else F0).
Proof.
  intros Hs Hi Hj; unfold intersection0; rewrite Hs.
  assert (Hm : length S = m) by (unfold shape in Hs; congruence).
  pose proof (rect_argmax_rows n S) as Hr; rewrite Hm in Hr.
  pose proof (rect_transpose (rect_argmax_cols m n S)) as Hc.
  unfold mmul; rewrite (get_mmap2 Fmul Hr Hc Hi Hj).
  rewrite get_argmax_rows by lia.
  rewrite (get_argmax_cols_t S Hi Hj); reflexivity.
Qed.

Lemma R_get_intersection0_cases (S : matrix R) (m n i j : nat) :
  shape S = (m, n) -> i < m -> j < n ->
  (get (intersection0 S) i j = 1%R /\
   j = argmax (nth i S []) /\ i = argmax (col j S)) \/
  (get (intersection0 S) i j = 0%R /\
   ~ (j = argmax (nth i S []) /\ i = argmax (col j S))).
Proof.
  intros Hs Hi Hj; rewrite (get_intersection0 Hs Hi Hj); simpl.
  destruct (Nat.eqb_spec j (argmax (nth i S []))) as [E1|N1];
    destruct (Nat.eqb_spec i (argmax (col j S))) as [E2|N2].
  - left; split; [ring | auto].
  - right; split; [ring | intros [_ H]; contradiction].
  - right; split; [ring | intros [H _]; contradiction].
  - right; split; [ring | intros [H _]; contradiction].
Qed.

Lemma R_intersection0_one (S : matrix R) (m n i j : nat) :
  shape S = (m, n) -> i < m -> j < n ->
  get (intersection0 S) i j = 1%R ->
  j = argmax (nth i S []) /\ i = argmax (col j S).
Proof.
  intros Hs Hi Hj H1.
  destruct (R_get_intersection0_cases Hs Hi Hj) as [[_ H] | [H0 _]];
    [exact H | lra].
Qed.

(** The first row that holds the greatest entry, and the first column
    of that row that holds it, are matched in round 0. *)
Lemma R_intersection0_nonempty (S : matrix R) (m n : nat) :
  shape S = (m, n) -> rect m n S -> 0 < m -> 0 < n ->
  exists i j, i < m /\ j < n /\ get (intersection0 S) i j = 1%R.
Proof.
  intros Hs HS Hm Hn.
  assert (HlenS : length S = m) by (destruct HS; assumption).
  set (v := map (fun r : list R => nth (argmax r) r 0%R) S).
  assert (Hlv : length v = m) by (unfold v; rewrite length_map; exact HlenS).
  assert (Hv : forall k, k < m ->
             nth k v 0%R = nth (argmax (nth k S [])) (nth k S []) 0%R).
  { intros k Hk; unfold v.
    rewrite (nth_indep _ 0%R (nth (argmax []) [] 0%R)) by (rewrite length_map; lia).
    apply (map_nth (fun r : list R => nth (argmax r) r 0%R)). }
  assert (Hrow : forall k, k < m -> nth k S [] <> []).
  { intros k Hk E; pose proof (rect_row HS Hk) as Hl.
    rewrite E in Hl; simpl in Hl; lia. }
  assert (Hvne : v <> []) by (destruct v; simpl in Hlv; [lia | congruence]).
  destruct (R_argmax_first_max Hvne) as [Hi [Hvmax Hvfirst]].
  rewrite Hlv in Hi, Hvmax.
  set (i := argmax v) in *.
  destruct (R_argmax_first_max (Hrow i Hi)) as [Hj _].
  rewrite (rect_row HS Hi) in Hj.
  set (j := argmax (nth i S [])) in *.
  exists i, j; split; [exact Hi|]; split; [exact Hj|].
  assert (Hcol : argmax (col j S) = i).
  { apply R_argmax_unique.
    - rewrite length_col; lia.
    - rewrite length_col, HlenS; intros k Hk.
      rewrite !R_get_col by lia.
      destruct (R_argmax_first_max (Hrow k Hk)) as [_ [Hkmax _]].
      rewrite (rect_row HS Hk) in Hkmax.
      specialize (Hkmax j Hj); specialize (Hvmax k Hk).
      rewrite (Hv k Hk), (Hv i Hi) in Hvmax.
      unfold get, j in *; change (@F0 R real_arith) with 0%R; lra.
    - intros k Hk.
      assert (Hkm : k < m) by lia.
      rewrite !R_get_col by lia.
      destruct (R_argmax_first_max (Hrow k Hkm)) as [_ [Hkmax _]].
      rewrite (rect_row HS Hkm) in Hkmax.
      specialize (Hkmax j Hj); specialize (Hvfirst k Hk).
      rewrite (Hv k Hkm), (Hv i Hi) in Hvfirst.
      unfold get, j in *; change (@F0 R real_arith) with 0%R; lra. }
  rewrite (get_intersection0 Hs Hi Hj); simpl.
  fold j; rewrite Hcol, !Nat.eqb_refl; ring.
Qed.

(** X5.  Round 0 over the reals.  The intersection is a 0/1 matrix; a
    matched cell holds the maximum of its row and of its column; no
    row and no column has two matches; and a matrix with at least one
    row and one column always has a match. *)
Theorem intersection0_mutual_best (S : matrix R) (m n : nat) :
  shape S = (m, n) -> rect m n S ->
  (forall i j, i < m -> j < n ->
     get (intersection0 S) i j = 0%R \/ get (intersection0 S) i j = 1%R) /\
  (forall i j, i < m -> j < n -> get (intersection0 S) i j = 1%R ->
     (forall j', j' < n -> (get S i j' <= get S i j)%R) /\
     (forall i', i' < m -> (get S i' j <= get S i j)%R)) /\
  (forall i j j', i < m -> j < n -> j' < n ->
     get (intersection0 S) i j = 1%R -> get (intersection0 S) i j' = 1%R ->
     j = j') /\
  (forall i i' j, i < m -> i' < m -> j < n ->
     get (intersection0 S) i j = 1%R -> get (intersection0 S) i' j = 1%R ->
     i = i') /\
  (0 < m -> 0 < n ->
   exists i j, i < m /\ j < n /\ get (intersection0 S) i j = 1%R).
Proof.
  intros Hs HS.
  assert (HlenS : length S = m) by (destruct HS; assumption).
  split; [|split; [|split; [|split]]].
  - intros i j Hi Hj.
    destruct (R_get_intersection0_cases Hs Hi Hj) as [[H _] | [H _]]; auto.
  - intros i j Hi Hj H1.
    destruct (R_intersection0_one Hs Hi Hj H1) as [Ej Ei].
    assert (Hrow : nth i S [] <> []).
    { intros E; pose proof (rect_row HS Hi) as Hl.
      rewrite E in Hl; simpl in Hl; lia. }
    assert (Hcolne : col j S <> []).
    { intros E; pose proof (length_col S j) as Hl.
      rewrite E in Hl; simpl in Hl; lia. }
    split.
    + intros j' Hj'.
      destruct (R_argmax_first_max Hrow) as [_ [Hmax _]].
      rewrite (rect_row HS Hi) in Hmax.
      specialize (Hmax j' Hj'); rewrite <- Ej in Hmax; exact Hmax.
    + intros i' Hi'.
      destruct (R_argmax_first_max Hcolne) as [_ [Hmax _]].
      rewrite length_col, HlenS in Hmax.
      specialize (Hmax i' Hi'); rewrite <- Ei in Hmax.
      rewrite !R_get_col in Hmax by lia; exact Hmax.
  - intros i j j' Hi Hj Hj' H1 H2.
    destruct (R_intersection0_one Hs Hi Hj H1) as [E1 _].
    destruct (R_intersection0_one Hs Hi Hj' H2) as [E2 _].
    congruence.
  - intros i i' j Hi Hi' Hj H1 H2.
    destruct (R_intersection0_one Hs Hi Hj H1) as [_ E1].
    destruct (R_intersection0_one Hs Hi' Hj H2) as [_ E2].
    congruence.
  - intros Hm Hn; apply R_intersection0_nonempty; assumption.
Qed.

Lemma intersection0_mutual_best_witness :
  exists i j, i < 3 /\ j < 3 /\ get (intersection0 eye3) i j = 1%R.
Proof.
  apply (proj2 (proj2 (proj2 (proj2
           (@intersection0_mutual_best eye3 3 3 eq_refl rect_eye3)))));
    lia.
Defined.

(** ** The accumulator of iter_max over the reals *)

Lemma R_fold_left_plus (t : list R) (x : R) :
  fold_left Rplus t x = (x + fold_right Rplus 0 t)%R.
Proof.
  revert x; induction t as [|y t IH]; intros x; simpl; [ring|].
  rewrite IH; ring.
Qed.

Lemma R_Fsum (l : list R) : Fsum l = fold_right Rplus 0%R l.
Proof.
  destruct l as [|x t]; simpl; [reflexivity|].
  apply R_fold_left_plus.
Qed.

(** A sum of zeros and ones is 0 when all are 0, and at least 1 when
    one of them is 1. *)
Lemma R_sum_01 (l : list R) :
  Forall (fun x => x = 0%R \/ x = 1%R) l ->
  (fold_right Rplus 0%R l = 0%R /\ Forall (fun x => x = 0%R) l) \/
  (1 <= fold_right Rplus 0%R l /\ Exists (fun x => x = 1%R) l)%R.
Proof.
  induction 1 as [|x t Hx _ IH]; simpl.
  - left; split; [reflexivity | constructor].
  - destruct IH as [[Hs Hall] | [Hs Hex]], Hx as [-> | ->].
    + left; split; [lra | constructor; auto].
    + right; split; [lra | constructor; reflexivity].
    + right; split; [lra | apply Exists_cons_tl; exact Hex].
    + right; split; [lra | constructor; reflexivity].
Qed.

Lemma R_clip_0 : Fclip F0 F1 0%R = 0%R.
Proof.
  unfold Fclip; rewrite R_isnan; simpl.
  rewrite (@Rltb_false 0%R 0%R), (@Rltb_false 1%R 0%R) by lra; reflexivity.
Qed.

Lemma R_clip_ge1 (s : R) : (1 <= s)%R -> Fclip F0 F1 s = 1%R.
Proof.
  intros Hs; unfold Fclip; rewrite R_isnan; simpl.
  rewrite (@Rltb_false s 0%R) by lra.
  unfold Rltb; destruct (Rlt_dec 1 s); [reflexivity | lra].
Qed.

(** The clipped sum of a 0/1 vector says whether it holds a 1. *)
Lemma R_satisfied_01 (l : list R) :
  Forall (fun x => x = 0%R \/ x = 1%R) l ->
  (Fclip F0 F1 (Fsum l) = 0%R /\ Forall (fun x => x = 0%R) l) \/
  (Fclip F0 F1 (Fsum l) = 1%R /\ Exists (fun x => x = 1%R) l).
Proof.
  intros H01; rewrite R_Fsum.
  destruct (R_sum_01 H01) as [[Hs Hall] | [Hs Hex]].
  - left; split; [rewrite Hs; apply R_clip_0 | exact Hall].
  - right; split; [apply R_clip_ge1; exact Hs | exact Hex].
Qed.

Lemma binary_row (m n : nat) (M : matrix R) (i : nat) :
  binary m n M -> i < m ->
  Forall (fun x => x = 0%R \/ x = 1%R) (nth i M []).
Proof.
  intros [HM H01] Hi; apply Forall_forall; intros x Hin.
  apply (In_nth _ _ 0%R) in Hin as [j [Hj <-]].
  rewrite (rect_row HM Hi) in Hj; apply (H01 i j Hi Hj).
Qed.

Lemma binary_col (m n : nat) (M : matrix R) (j : nat) :
  binary m n M -> j < n ->
  Forall (fun x => x = 0%R \/ x = 1%R) (col j M).
Proof.
  intros [HM H01] Hj; apply Forall_forall; intros x Hin.
  apply (In_nth _ _ 0%R) in Hin as [i [Hi <-]].
  rewrite length_col in Hi.
  rewrite R_get_col by exact Hi.
  destruct HM as [Hm _]; apply H01; [lia | exact Hj].
Qed.

(** In a 0/1 accumulator the satisfied indicators are 0 or 1, and
    both are 1 on a matched cell. *)
Lemma R_satisfied_cases (m n : nat) (M : matrix R) (i j : nat) :
  binary m n M -> i < m -> j < n ->
  (row_satisfied M i = 0%R \/ row_satisfied M i = 1%R) /\
  (col_satisfied M j = 0%R \/ col_satisfied M j = 1%R) /\
  (get M i j = 1%R -> row_satisfied M i = 1%R /\ col_satisfied M j = 1%R).
Proof.
  intros HB Hi Hj.
  pose proof HB as [HM _].
  assert (Hlen : length M = m) by (destruct HM; assumption).
  destruct (R_satisfied_01 (binary_row HB Hi)) as [[Hr Hr0] | [Hr Hr1]];
    destruct (R_satisfied_01 (binary_col HB Hj)) as [[Hc Hc0] | [Hc Hc1]];
    fold (row_satisfied M i) in Hr; fold (col_satisfied M j) in Hc;
    (split; [auto | split; [auto|]]); intros H1.
  - rewrite Forall_forall in Hr0.
    assert (get M i j = 0%R); [|lra].
    apply Hr0; unfold get; apply nth_In; rewrite (rect_row HM Hi); exact Hj.
  - rewrite Forall_forall in Hr0.
    assert (get M i j = 0%R); [|lra].
    apply Hr0; unfold get; apply nth_In; rewrite (rect_row HM Hi); exact Hj.
  - rewrite Forall_forall in Hc0.
    assert (get M i j = 0%R); [|lra].
    rewrite <- R_get_col by lia.
    apply Hc0, nth_In; rewrite length_col; lia.
  - split; assumption.
Qed.

(** The zero-mask of a round on a 0/1 accumulator: 0 or 1, and 1 only
    where the row or the column has no match yet. *)
Lemma R_zero_mask_cell (m n : nat) (M : matrix R) (i j : nat) :
  binary m n M -> i < m -> j < n ->
  let zm := get (zero_mask (unmatched_rows m n M) (unmatched_cols m n M)) i j in
  (zm = 0%R \/ zm = 1%R) /\
  (zm = 1%R -> row_satisfied M i = 0%R \/ col_satisfied M j = 0%R).
Proof.
  intros HB Hi Hj zm.
  destruct (R_satisfied_cases HB Hi Hj) as [Hr [Hc _]].
  pose proof (round_masks_cells M (rect_build m n (fun _ _ => 0%R)) Hi Hj)
    as H; cbv zeta in H.
  destruct H as [Hoff [Hon _]].
  destruct (exhausted (unmatched_rows m n M) (unmatched_cols m n M)).
  - destruct (Hon eq_refl) as [_ Hz]; fold zm in Hz; simpl in Hz.
    assert (zm = 0%R) by (rewrite Hz; ring).
    split; [left; assumption | intros; lra].
  - destruct (Hoff eq_refl) as [_ Hz]; fold zm in Hz; simpl in Hz.
    assert (E : zm = (1 - row_satisfied M i * col_satisfied M j)%R)
      by (rewrite Hz; ring).
    destruct Hr as [Hr|Hr], Hc as [Hc|Hc]; rewrite Hr, Hc in E;
      (split; [| intros; auto]); try (right; lra); try (left; lra).
Qed.

(** A cell of [new_inter]: the two one-hot entries, each times the
    zero-mask. *)
Lemma R_new_matches_cell (S M : matrix R) (m n i j : nat) :
  length S = m -> i < m -> j < n ->
  exists a b : R,
    (a = 0%R \/ a = 1%R) /\ (b = 0%R \/ b = 1%R) /\
    get (new_matches S m n M) i j =
    (a * get (zero_mask (unmatched_rows m n M) (unmatched_cols m n M)) i j *
     (b * get (zero_mask (unmatched_rows m n M) (unmatched_cols m n M)) i j))%R.
Proof.
  intros Hm Hi Hj; unfold new_matches.
  set (zmask := zero_mask (unmatched_rows m n M) (unmatched_cols m n M)).
  set (ns := damped_sim S m n M).
  assert (Hz : rect m n zmask)
    by (apply rect_zero_mask; apply rect_build).
  assert (Hns : length ns = m) by (apply length_damped_sim; exact Hm).
  pose proof (rect_argmax_rows n ns) as Hr; rewrite Hns in Hr.
  pose proof (rect_transpose (rect_argmax_cols m n ns)) as Hc.
  exists (get (argmax_rows n ns) i j), (get (transpose m (argmax_cols m n ns)) i j).
  split; [|split].
  - rewrite get_argmax_rows by lia.
    destruct (Nat.eqb j (argmax (nth i ns []))); simpl; auto.
  - rewrite (get_argmax_cols_t ns Hi Hj).
    destruct (Nat.eqb i (argmax (col j ns))); simpl; auto.
  - unfold mmul.
    rewrite (get_mmap2 Fmul (rect_mmap2 Fmul Hr Hz) (rect_mmap2 Fmul Hc Hz) Hi Hj).
    rewrite (get_mmap2 Fmul Hr Hz Hi Hj), (get_mmap2 Fmul Hc Hz Hi Hj).
    reflexivity.
Qed.

(** One round on a 0/1 accumulator: a new match is 0 or 1, and it is 1
    only on a cell whose row or column had no match. *)
Lemma R_new_matches_01 (S M : matrix R) (m n i j : nat) :
  length S = m -> binary m n M -> i < m -> j < n ->
  let nw := get (new_matches S m n M) i j in
  (nw = 0%R \/ nw = 1%R) /\
  (nw = 1%R -> row_satisfied M i = 0%R \/ col_satisfied M j = 0%R).
Proof.
  intros Hm HB Hi Hj nw.
  destruct (@R_new_matches_cell S M m n i j Hm Hi Hj) as [a [b [Ha [Hb E]]]].
  fold nw in E.
  destruct (R_zero_mask_cell HB Hi Hj) as [Hz Hz1].
  cbv zeta in Hz, Hz1.
  destruct Hz as [Hz|Hz]; rewrite Hz in E.
  - assert (nw = 0%R) by (rewrite E; ring).
    split; [left; assumption | intros; lra].
  - destruct Ha as [->| ->], Hb as [->| ->];
      (split; [| intros _; exact (Hz1 Hz)]); rewrite E;
      try (left; ring); right; ring.
Qed.

Lemma binary_step (S M : matrix R) (m n : nat) :
  length S = m -> binary m n M ->
  binary m n (madd M (new_matches S m n M)) /\
  forall i j, i < m -> j < n ->
    get M i j = 1%R -> get (madd M (new_matches S m n M)) i j = 1%R.
Proof.
  intros Hm HB.
  pose proof HB as [HM H01].
  pose proof (@rect_new_matches R real_arith S m n M Hm) as HN.
  assert (Hcell : forall i j, i < m -> j < n ->
            get (madd M (new_matches S m n M)) i j =
            (get M i j + get (new_matches S m n M) i j)%R).
  { intros i j Hi Hj; unfold madd.
    rewrite (get_mmap2 Fadd HM HN Hi Hj); reflexivity. }
  assert (Hone : forall i j, i < m -> j < n -> get M i j = 1%R ->
            get (new_matches S m n M) i j = 0%R).
  { intros i j Hi Hj H1.
    destruct (@R_new_matches_01 S M m n i j Hm HB Hi Hj) as [Hn Hn1]; cbv zeta in *.
    destruct Hn as [Hn|Hn]; [exact Hn|].
    destruct (R_satisfied_cases HB Hi Hj) as [_ [_ Hsat]].
    destruct (Hsat H1) as [Hr Hc].
    destruct (Hn1 Hn); lra. }
  split; [split|].
  - apply rect_mmap2; assumption.
  - intros i j Hi Hj; rewrite (Hcell i j Hi Hj).
    destruct (H01 i j Hi Hj) as [H0|H1].
    + destruct (@R_new_matches_01 S M m n i j Hm HB Hi Hj) as [Hn _]; cbv zeta in Hn.
      destruct Hn as [Hn|Hn]; rewrite H0, Hn; [left | right]; ring.
    + rewrite H1, (Hone i j Hi Hj H1); right; ring.
  - intros i j Hi Hj H1.
    rewrite (Hcell i j Hi Hj), H1, (Hone i j Hi Hj H1); ring.
Qed.

Lemma R_binary_intersection0 (S : matrix R) (m n : nat) :
  shape S = (m, n) -> binary m n (intersection0 S).
Proof.
  intros Hs; split; [apply rect_intersection0; exact Hs|].
  intros i j Hi Hj.
  destruct (R_get_intersection0_cases Hs Hi Hj) as [[H _] | [H _]]; auto.
Qed.

Lemma R_accumulated_inv (S : matrix R) (m n j : nat) :
  shape S = (m, n) ->
  binary m n (accumulated S m n j) /\
  forall i k, i < m -> k < n ->
    get (intersection0 S) i k = 1%R -> get (accumulated S m n j) i k = 1%R.
Proof.
  intros Hs.
  assert (Hm : length S = m) by (unfold shape in Hs; congruence).
  pose proof (R_binary_intersection0 Hs) as [HI HI01].
  induction j as [|j [IHb IHi]].
  - assert (Hcell : forall i k, i < m -> k < n ->
              get (accumulated S m n 0) i k = get (intersection0 S) i k).
    { intros i k Hi Hk; simpl; unfold madd, zeros.
      rewrite (get_mmap2 Fadd HI (rect_build m n _) Hi Hk).
      rewrite (get_build _ Hi Hk); simpl; ring. }
    split; [split|].
    + apply rect_accumulated; exact Hs.
    + intros i k Hi Hk; rewrite (Hcell i k Hi Hk); apply HI01; assumption.
    + intros i k Hi Hk H1; rewrite (Hcell i k Hi Hk); exact H1.
  - destruct (@binary_step S (accumulated S m n j) m n Hm IHb) as [Hb Hmono].
    split; [exact Hb|].
    intros i k Hi Hk H1; simpl; apply Hmono; auto.
Qed.

(** *** The guard of a round *)

Lemma In_concat_build (m n : nat) (f : nat -> nat -> R) (x : R) :
  In x (concat (build m n f)) <-> exists i j, i < m /\ j < n /\ x = f i j.
Proof.
  unfold build; rewrite in_concat; split.
  - intros [l [Hl Hx]].
    apply in_map_iff in Hl as [i [<- Hi]].
    apply in_map_iff in Hx as [j [<- Hj]].
    apply in_seq in Hi; apply in_seq in Hj.
    exists i, j; repeat split; lia.
  - intros [i [j [Hi [Hj ->]]]].
    exists (map (fun j => f i j) (seq 0 n)); split.
    + apply in_map_iff; exists i; split; [reflexivity | apply in_seq; lia].
    + apply in_map_iff; exists j; split; [reflexivity | apply in_seq; lia].
Qed.

(** The sum of a 0/1 array is below 1 exactly when no cell is 1. *)
Lemma R_msum_below_one (m n : nat) (f : nat -> nat -> R) :
  (forall i j, i < m -> j < n -> f i j = 0%R \/ f i j = 1%R) ->
  Fltb (msum (build m n f)) F1 = true <->
  forall i j, i < m -> j < n -> f i j = 0%R.
Proof.
  intros H01; unfold msum; rewrite R_Fsum.
  assert (HF : Forall (fun x => x = 0%R \/ x = 1%R) (concat (build m n f))).
  { apply Forall_forall; intros x Hx.
    apply In_concat_build in Hx as [i [j [Hi [Hj ->]]]]; auto. }
  destruct (R_sum_01 HF) as [[Hs Hall] | [Hs Hex]]; simpl.
  - rewrite Hs, (@Rltb_true 0%R 1%R) by lra.
    split; [intros _ i j Hi Hj | reflexivity].
    rewrite Forall_forall in Hall; apply Hall, In_concat_build.
    exists i, j; auto.
  - rewrite Rltb_false by lra.
    split; [discriminate | intros H0].
    apply Exists_exists in Hex as [x [Hx H1]].
    apply In_concat_build in Hx as [i [j [Hi [Hj E]]]].
    rewrite (H0 i j Hi Hj) in E; lra.
Qed.

(** Among finitely many 0/1 indicators, all are 1 or one of them is 0. *)
Lemma all_or_one_missing (f : nat -> R) (m : nat) :
  (forall i, i < m -> f i = 0%R \/ f i = 1%R) ->
  (forall i, i < m -> f i = 1%R) \/ (exists i, i < m /\ f i = 0%R).
Proof.
  induction m as [|m IH]; intros H01; [left; intros i Hi; lia|].
  destruct IH as [Hall | [i [Hi H0]]].
  - intros i Hi; apply H01; lia.
  - destruct (H01 m (Nat.lt_succ_diag_r m)) as [H0 | H1].
    + right; exists m; split; [lia | exact H0].
    + left; intros i Hi.
      destruct (Nat.eq_dec i m) as [-> | Hne]; [exact H1 | apply Hall; lia].
  - right; exists i; split; [lia | exact H0].
Qed.

(** The guard [mask_x.sum() < 1.0 or mask_y.sum() < 1.0] on a 0/1
    accumulator: it fires exactly when every row has a match or every
    column has one, and it is off exactly while a row and a column are
    both still unmatched. *)
Lemma R_exhausted_spec (m n : nat) (M : matrix R) :
  binary m n M -> 0 < m -> 0 < n ->
  let mask_x := unmatched_rows m n M in
  let mask_y := unmatched_cols m n M in
  (exhausted mask_x mask_y = true <->
   (forall i, i < m -> row_satisfied M i = 1%R) \/
   (forall j, j < n -> col_satisfied M j = 1%R)) /\
  (exhausted mask_x mask_y = false <->
   (exists i, i < m /\ row_satisfied M i = 0%R) /\
   (exists j, j < n /\ col_satisfied M j = 0%R)).
Proof.
  intros HB Hm Hn mask_x mask_y.
  assert (Hr : forall i, i < m ->
            row_satisfied M i = 0%R \/ row_satisfied M i = 1%R).
  { intros i Hi; destruct (R_satisfied_cases HB Hi Hn) as [H _]; exact H. }
  assert (Hc : forall j, j < n ->
            col_satisfied M j = 0%R \/ col_satisfied M j = 1%R).
  { intros j Hj; destruct (R_satisfied_cases HB Hm Hj) as [_ [H _]]; exact H. }
  assert (Ex : Fltb (msum mask_x) F1 = true <->
               forall i, i < m -> row_satisfied M i = 1%R).
  { unfold mask_x, unmatched_rows.
    rewrite R_msum_below_one.
    - split.
      + intros H i Hi; specialize (H i 0 Hi Hn).
        rewrite nth_row_sums in H; fold (row_satisfied M i) in H.
        simpl in H; lra.
      + intros H i j Hi _; rewrite nth_row_sums.
        fold (row_satisfied M i); rewrite (H i Hi); simpl; lra.
    - intros i j Hi _; rewrite nth_row_sums; fold (row_satisfied M i).
      destruct (Hr i Hi) as [-> | ->]; simpl; [right | left]; lra. }
  assert (Ey : Fltb (msum mask_y) F1 = true <->
               forall j, j < n -> col_satisfied M j = 1%R).
  { unfold mask_y, unmatched_cols.
    rewrite R_msum_below_one.
    - split.
      + intros H j Hj; specialize (H 0 j Hm Hj).
        rewrite (nth_map_seq (fun j => Fsum (col j M))) in H by exact Hj.
        fold (col_satisfied M j) in H; simpl in H; lra.
      + intros H i j _ Hj.
        rewrite (nth_map_seq (fun j => Fsum (col j M))) by exact Hj.
        fold (col_satisfied M j); rewrite (H j Hj); simpl; lra.
    - intros i j _ Hj.
      rewrite (nth_map_seq (fun j => Fsum (col j M))) by exact Hj.
      fold (col_satisfied M j).
      destruct (Hc j Hj) as [-> | ->]; simpl; [right | left]; lra. }
  assert (Hon : exhausted mask_x mask_y = true <->
                (forall i, i < m -> row_satisfied M i = 1%R) \/
                (forall j, j < n -> col_satisfied M j = 1%R)).
  { unfold exhausted; rewrite orb_true_iff, Ex, Ey; reflexivity. }
  split; [exact Hon|].
  split.
  - intros Hoff.
    destruct (all_or_one_missing (row_satisfied M) Hr) as [Hall | Hx].
    { rewrite (proj2 Hon (or_introl Hall)) in Hoff; discriminate. }
    destruct (all_or_one_missing (col_satisfied M) Hc) as [Hall | Hy].
    { rewrite (proj2 Hon (or_intror Hall)) in Hoff; discriminate. }
    split; assumption.
  - intros [[i [Hi Hi0]] [j [Hj Hj0]]].
    destruct (exhausted mask_x mask_y) eqn:E; [|reflexivity].
    destruct (proj1 Hon eq_refl) as [Hall | Hall].
    + rewrite (Hall i Hi) in Hi0; lra.
    + rewrite (Hall j Hj) in Hj0; lra.
Qed.

(** C3, as the program has it.  In a refinement round whose
    accumulator is [inter], let [ux = 1 - rowSatisfied[i]] and
    [uy = 1 - colSatisfied[j]] mark the unmatched row and column.
    While a row and a column are still unmatched (the guard is off) the
    mask at (i, j) is [clip(0.9 ux + 0.9 uy, 0, 1)] and the zero-mask
    is [1 - (1 - ux)(1 - uy)]; when the guard fires both are multiplied
    by 0.  The damped similarity is [S] times the mask, and the new
    matches are the two argmaxes of it, each times the zero-mask.  Over
    the reals the zero-mask is [1 - rowSatisfied[i] colSatisfied[j]]:
    it blanks a cell exactly when its row and its column are both
    satisfied; and on the accumulator of every round the guard is off
    exactly while some row and some column are both still unmatched,
    and fires exactly when every row is matched or every column is. *)
Theorem iter_max_round_masks :
  (forall (F : Type) (AF : Arith F) (S inter : matrix F) (m n i j : nat),
     rect m n S -> i < m -> j < n ->
     let mask_x := unmatched_rows m n inter in
     let mask_y := unmatched_cols m n inter in
     let ux := Fsub F1 (row_satisfied inter i) in
     let uy := Fsub F1 (col_satisfied inter j) in
     let soft := Fclip F0 F1 (Fadd (Fmul F09 ux) (Fmul F09 uy)) in
     let hard := Fsub F1 (Fmul (Fsub F1 ux) (Fsub F1 uy)) in
     (exhausted mask_x mask_y = false ->
        get (competition_mask mask_x mask_y) i j = soft /\
        get (zero_mask mask_x mask_y) i j = hard) /\
     (exhausted mask_x mask_y = true ->
        get (competition_mask mask_x mask_y) i j = Fmul soft F0 /\
        get (zero_mask mask_x mask_y) i j = Fmul hard F0) /\
     get (damped_sim S m n inter) i j =
       Fmul (get S i j) (get (competition_mask mask_x mask_y) i j) /\
     new_matches S m n inter =
       mmul (mmul (argmax_rows n (damped_sim S m n inter))
                  (zero_mask mask_x mask_y))
            (mmul (transpose m (argmax_cols m n (damped_sim S m n inter)))
                  (zero_mask mask_x mask_y))) /\
  (forall (inter : matrix R) (m n i j : nat),
     i < m -> j < n ->
     let mask_x := unmatched_rows m n inter in
     let mask_y := unmatched_cols m n inter in
     exhausted mask_x mask_y = false ->
     get (zero_mask mask_x mask_y) i j =
       (1 - row_satisfied inter i * col_satisfied inter j)%R /\
     (get (zero_mask mask_x mask_y) i j = 0%R <->
      row_satisfied inter i = 1%R /\ col_satisfied inter j = 1%R)) /\
  (forall (S : matrix R) (m n r : nat),
     shape S = (m, n) -> 0 < m -> 0 < n ->
     let inter := accumulated S m n r in
     let mask_x := unmatched_rows m n inter in
     let mask_y := unmatched_cols m n inter in
     (exhausted mask_x mask_y = false <->
      (exists i, i < m /\ row_satisfied inter i = 0%R) /\
      (exists j, j < n /\ col_satisfied inter j = 0%R)) /\
     (exhausted mask_x mask_y = true <->
      (forall i, i < m -> row_satisfied inter i = 1%R) \/
      (forall j, j < n -> col_satisfied inter j = 1%R))).
Proof.
  split; [|split].
  - intros F AF S inter m n i j HS Hi Hj.
    pose proof (round_masks_cells inter HS Hi Hj) as H; cbv zeta in *.
    destruct H as [H1 [H2 H3]].
    repeat split; try (apply H1; assumption); try (apply H2; assumption).
    exact H3.
  - intros inter m n i j Hi Hj mask_x mask_y Hg.
    pose proof (round_masks_cells inter (rect_build m n (fun _ _ => 0%R)) Hi Hj)
      as H; cbv zeta in H.
    destruct H as [H1 _].
    destruct (H1 Hg) as [_ Hz]; clear H1.
    fold mask_x mask_y in Hz.
    pose proof (R_clip_bounds (Fsum (nth i inter []))) as Hr.
    pose proof (R_clip_bounds (Fsum (col j inter))) as Hc.
    fold (row_satisfied inter i) in Hr; fold (col_satisfied inter j) in Hc.
    assert (E : get (zero_mask mask_x mask_y) i j =
                (1 - row_satisfied inter i * col_satisfied inter j)%R).
    { rewrite Hz; simpl; ring. }
    split; [exact E|].
    rewrite E; split; [intros H0 | intros [-> ->]; ring].
    split; nra.
  - intros S m n r Hs Hm Hn inter mask_x mask_y.
    destruct (@R_accumulated_inv S m n r Hs) as [HB _]; fold inter in HB.
    destruct (R_exhausted_spec HB Hm Hn) as [Hon Hoff].
    split; [exact Hoff | exact Hon].
Qed.

Lemma iter_max_round_masks_witness :
  let inter := accumulated sim_3x3 3 3 0 in
  let mask_x := unmatched_rows 3 3 inter in
  let mask_y := unmatched_cols 3 3 inter in
  get (damped_sim sim_3x3 3 3 inter) 0 1 =
    Fmul (get sim_3x3 0 1) (get (competition_mask mask_x mask_y) 0 1).
Proof.
  intros inter mask_x mask_y.
  assert (H0 : 0 < 3) by lia.
  assert (H1 : 1 < 3) by lia.
  exact (proj1 (proj2 (proj2
           (proj1 iter_max_round_masks float float_arith sim_3x3 inter
                  3 3 0 1 rect_sim_3x3 H0 H1)))).
Defined.

(** X6.  Over the reals the result of [iter_max] is a 0/1 matrix of
    the shape of [sim] that keeps every match of round 0, for every
    budget. *)
Theorem iter_max_binary (g : globals) (p S : matrix R) (K : Z) (m n : nat) :
  g_sim g = Some S -> shape S = (m, n) -> 0 < m -> 0 < n ->
  exists A,
    iter_max g p K = Ok A /\
    rect m n A /\
    (forall i j, i < m -> j < n -> get A i j = 0%R \/ get A i j = 1%R) /\
    (forall i j, i < m -> j < n ->
       get (intersection0 S) i j = 1%R -> get A i j = 1%R).
Proof.
  intros Hg Hs Hm Hn.
  pose proof (R_binary_intersection0 Hs) as [HI HI01].
  assert (Hsmall : forall A, A = intersection0 S ->
            rect m n A /\
            (forall i j, i < m -> j < n -> get A i j = 0%R \/ get A i j = 1%R) /\
            (forall i j, i < m -> j < n ->
               get (intersection0 S) i j = 1%R -> get A i j = 1%R)).
  { intros A ->; split; [exact HI | split; auto]. }
  destruct (Nat.leb_spec (Nat.min m n) 2) as [Hle|Hgt].
  - exists (intersection0 S); split; [eapply iter_max_small; eauto | auto].
  - destruct (Z.lt_ge_cases K 0) as [Hneg|Hpos].
    + exists (intersection0 S); split;
        [eapply iter_max_negative_large; eauto | auto].
    + destruct (@iter_max_rounds R real_arith g p S K m n Hpos Hg Hs Hgt)
        as [j [_ [HR _]]].
      destruct (@R_accumulated_inv S m n j Hs) as [[Hrect H01] Hkeep].
      exists (accumulated S m n j).
      split; [exact HR | split; [exact Hrect | split; auto]].
Qed.

Lemma iter_max_binary_witness :
  exists A,
    iter_max {| g_sim := Some eye3 |} eye3 1 = Ok A /\
    rect 3 3 A /\
    (forall i j, i < 3 -> j < 3 -> get A i j = 0%R \/ get A i j = 1%R) /\
    (forall i j, i < 3 -> j < 3 ->
       get (intersection0 eye3) i j = 1%R -> get A i j = 1%R).
Proof.
  apply (@iter_max_binary {| g_sim := Some eye3 |} eye3 eye3 1 3 3);
    try reflexivity; lia.
Defined.

(** X7.  Over the reals a refinement round never removes a match, and
    it adds a cell only if the row or the column of the cell had no
    match before the round. *)
Theorem iter_max_round_adds_unmatched (S : matrix R) (m n r i j : nat) :
  shape S = (m, n) -> i < m -> j < n ->
  let before := accumulated S m n r in
  let after := accumulated S m n (Datatypes.S r) in
  (get before i j = 1%R -> get after i j = 1%R) /\
  (get after i j = 1%R -> get before i j = 0%R ->
   row_satisfied before i = 0%R \/ col_satisfied before j = 0%R).
Proof.
  intros Hs Hi Hj before after.
  assert (Hm : length S = m) by (unfold shape in Hs; congruence).
  destruct (@R_accumulated_inv S m n r Hs) as [HB _]; fold before in HB.
  destruct (@binary_step S before m n Hm HB) as [_ Hmono].
  split; [apply Hmono; assumption|].
  intros H1 H0.
  pose proof HB as [HM _].
  pose proof (@rect_new_matches R real_arith S m n before Hm) as HN.
  assert (Hcell : get after i j =
                  (get before i j + get (new_matches S m n before) i j)%R).
  { unfold after; simpl; fold before; unfold madd.
    rewrite (get_mmap2 Fadd HM HN Hi Hj); reflexivity. }
  destruct (@R_new_matches_01 S before m n i j Hm HB Hi Hj) as [_ Hn1].
  cbv zeta in Hn1; apply Hn1; lra.
Qed.

Lemma iter_max_round_adds_unmatched_witness :
  let before := accumulated eye3 3 3 0 in
  let after := accumulated eye3 3 3 1 in
  (get before 0 1 = 1%R -> get after 0 1 = 1%R) /\
  (get after 0 1 = 1%R -> get before 0 1 = 0%R ->
   row_satisfied before 0 = 0%R \/ col_satisfied before 1 = 0%R).
Proof.
  apply (@iter_max_round_adds_unmatched eye3 3 3 0 0 1); try reflexivity; lia.
Defined.

(** ** The distortion factor over the reals *)

Lemma R_frac_01 (x y : R) : (0 <= x <= y)%R -> (0 < y)%R -> (0 <= x / y <= 1)%R.
Proof.
  intros [H0 Hxy] Hy; unfold Rdiv.
  pose proof (Rinv_0_lt_compat y Hy) as Hi.
  split; [nra|].
  rewrite <- (Rinv_r y) by lra.
  apply Rmult_le_compat_r; lra.
Qed.

Lemma R_position_01 (k d : nat) : k < d -> 2 <= d ->
  (0 <= INR k / INR (d - 1) <= 1)%R.
Proof.
  intros Hk Hd; apply R_frac_01.
  - split; [apply pos_INR | apply le_INR; lia].
  - apply lt_0_INR; lia.
Qed.

(** The cell of the output in the two branches of [apply_distortion]. *)
Lemma R_apply_distortion_cell (S : matrix R) (r : R) (m n i j : nat) :
  shape S = (m, n) -> rect m n S -> i < m -> j < n ->
  (get (apply_distortion S r) i j = get S i j /\
   (m < 2 \/ n < 2 \/ r = 0%R)) \/
  (get (apply_distortion S r) i j =
     (get S i j *
      (1 - (INR j / INR (n - 1) - INR i / INR (m - 1)) *
           (INR j / INR (n - 1) - INR i / INR (m - 1)) * r))%R /\
   2 <= m /\ 2 <= n).
Proof.
  intros Hs HS Hi Hj.
  destruct (apply_distortion_cells r Hs) as [Hsame Hcells].
  destruct (Nat.lt_ge_cases m 2) as [Hm|Hm];
    [left; split; [rewrite Hsame; auto | auto]|].
  destruct (Nat.lt_ge_cases n 2) as [Hn|Hn];
    [left; split; [rewrite Hsame; auto | auto]|].
  destruct (Req_dec_T r 0) as [Hr|Hr].
  - left; split; [|auto].
    rewrite Hsame; [reflexivity|].
    right; right; subst r; simpl; apply Reqb_refl.
  - right; split; [|auto].
    assert (Hr' : Feqb r F0 = false).
    { simpl; unfold Reqb; destruct (Req_dec_T r 0); [contradiction | reflexivity]. }
    destruct (Hcells Hm Hn Hr' HS) as [_ Hcell].
    rewrite (Hcell i j Hi Hj); reflexivity.
Qed.

(** X8.  Over the reals, with a ratio [r] in [0, 1], every cell of the
    output of [apply_distortion] is the cell of the input times a
    factor in [1 - r, 1]: no entry grows in magnitude and no entry
    changes sign. *)
Theorem apply_distortion_bounds (S : matrix R) (r : R) (m n i j : nat) :
  shape S = (m, n) -> rect m n S -> (0 <= r <= 1)%R -> i < m -> j < n ->
  (exists f : R,
     (1 - r <= f <= 1)%R /\
     get (apply_distortion S r) i j = (get S i j * f)%R) /\
  (Rabs (get (apply_distortion S r) i j) <= Rabs (get S i j))%R.
Proof.
  intros Hs HS [Hr0 Hr1] Hi Hj.
  assert (Hf : exists f : R,
             (1 - r <= f <= 1)%R /\
             get (apply_distortion S r) i j = (get S i j * f)%R).
  { destruct (R_apply_distortion_cell r Hs HS Hi Hj) as [[E _] | [E [Hm Hn]]].
    - exists 1%R; split; [lra | rewrite E; ring].
    - pose proof (R_position_01 Hj Hn) as Ha.
      pose proof (R_position_01 Hi Hm) as Hb.
      set (a := (INR j / INR (n - 1))%R) in *.
      set (b := (INR i / INR (m - 1))%R) in *.
      exists (1 - (a - b) * (a - b) * r)%R; split; [|exact E].
      set (d := (a - b)%R).
      assert (Hd1 : (-1 <= d <= 1)%R) by (unfold d; lra).
      assert (Hd : (0 <= d * d <= 1)%R).
      { split; [apply Rle_0_sqr|].
        pose proof (Rmult_le_pos (1 - d) (1 + d)); lra. }
      split.
      + pose proof (Rmult_le_pos (1 - d * d) r); lra.
      + pose proof (Rmult_le_pos (d * d) r); lra. }
  split; [exact Hf|].
  destruct Hf as [f [[Hlo Hhi] E]]; rewrite E, Rabs_mult.
  rewrite (Rabs_pos_eq f) by lra.
  pose proof (Rabs_pos (get S i j)); nra.
Qed.

Lemma apply_distortion_bounds_witness :
  (exists f : R,
     (1 - 1 / 2 <= f <= 1)%R /\
     get (apply_distortion eye3 (1 / 2)%R) 0 2 = (get eye3 0 2 * f)%R) /\
  (Rabs (get (apply_distortion eye3 (1 / 2)%R) 0 2) <= Rabs (get eye3 0 2))%R.
Proof.
  apply (@apply_distortion_bounds eye3 (1 / 2)%R 3 3 0 2 eq_refl rect_eye3);
    try lia; lra.
Defined.

(** X9.  Over the reals [apply_distortion] leaves unchanged every cell
    on the diagonal of the normalised positions,
    [j * (m - 1) = i * (n - 1)]: the two corners (0, 0) and
    (m - 1, n - 1), and the whole diagonal of a square matrix, whatever
    the ratio is. *)
Theorem apply_distortion_diagonal (S : matrix R) (r : R) (m n i j : nat) :
  shape S = (m, n) -> rect m n S -> i < m -> j < n ->
  j * (m - 1) = i * (n - 1) ->
  get (apply_distortion S r) i j = get S i j.
Proof.
  intros Hs HS Hi Hj Hdiag.
  destruct (R_apply_distortion_cell r Hs HS Hi Hj) as [[E _] | [E [Hm Hn]]];
    [exact E|].
  rewrite E.
  assert (Hn' : (0 < INR (n - 1))%R) by (apply lt_0_INR; lia).
  assert (Hm' : (0 < INR (m - 1))%R) by (apply lt_0_INR; lia).
  assert (Hd : (INR j / INR (n - 1) - INR i / INR (m - 1) = 0)%R).
  { apply (f_equal INR) in Hdiag; rewrite !mult_INR in Hdiag.
    field_simplify_eq; [lra | split; lra]. }
  rewrite Hd; ring.
Qed.

Lemma apply_distortion_diagonal_witness :
  get (apply_distortion eye3 (1 / 2)%R) 2 2 = get eye3 2 2.
Proof.
  apply (@apply_distortion_diagonal eye3 (1 / 2)%R 3 3 2 2 eq_refl rect_eye3);
    try lia; reflexivity.
Defined.

(** ** Masks and scores *)

Lemma length_filter_le {A : Type} (p : A -> bool) (l : list A) :
  length (filter p l) <= length l.
Proof.
  induction l as [|x t IH]; simpl; [lia|].
  destruct (p x); simpl; lia.
Qed.

Lemma length_concat_build {F : Type} {AF : Arith F} (m n : nat)
      (f : nat -> nat -> F) :
  length (concat (build m n f)) = m * n.
Proof.
  unfold build.
  assert (G : forall l : list nat,
            length (concat (map (fun i => map (fun j => f i j) (seq 0 n)) l))
            = length l * n).
  { induction l as [|i t IH]; simpl; [reflexivity|].
    rewrite length_app, length_map, length_seq, IH; reflexivity. }
  rewrite G, length_seq; reflexivity.
Qed.

(** A cell of the mask, for a matrix of any shape. *)
Lemma get_mask_cases {F : Type} {AF : Arith F} {EF : External F}
      (S : matrix F) (ratio : F) (m n i j : nat) :
  shape S = (m, n) -> i < m -> j < n ->
  (get (apply_percentile_null_aligns S ratio) i j = F1 /\
   (Nat.min m n <= 2 \/ Fltb ratio (cell_score S i j) = false)) \/
  (get (apply_percentile_null_aligns S ratio) i j = F0 /\
   2 < Nat.min m n /\ Fltb ratio (cell_score S i j) = true).
Proof.
  intros Hs Hi Hj; unfold apply_percentile_null_aligns; rewrite Hs.
  destruct (Nat.leb_spec (Nat.min m n) 2) as [Hle|Hgt].
  - left; split; [|left; exact Hle].
    unfold ones; apply (get_build _ Hi Hj).
  - rewrite (get_mmap _ (rect_min_entropy Hs) Hi Hj).
    rewrite (get_min_entropy Hs Hi Hj).
    destruct (Fltb ratio (cell_score S i j)); [right | left]; auto.
Qed.

(** X10.  Every cell of the mask of [apply_percentile_null_aligns] is
    0 or 1, for every number type and every entropy function; over the
    reals, raising the threshold never clears a cell, and a product
    with the mask (phase 2) is the cell itself or 0. *)
Theorem null_mask_binary_monotone :
  (forall (F : Type) (AF : Arith F) (EF : External F) (S : matrix F)
          (ratio : F) (m n i j : nat),
     shape S = (m, n) -> i < m -> j < n ->
     get (apply_percentile_null_aligns S ratio) i j = F0 \/
     get (apply_percentile_null_aligns S ratio) i j = F1) /\
  (forall (EF : External R) (S : matrix R) (t1 t2 : R) (m n i j : nat),
     shape S = (m, n) -> i < m -> j < n -> (t1 <= t2)%R ->
     (get (apply_percentile_null_aligns S t1) i j <=
      get (apply_percentile_null_aligns S t2) i j)%R) /\
  (forall (EF : External R) (S A : matrix R) (t : R) (m n i j : nat),
     shape S = (m, n) -> rect m n A -> i < m -> j < n ->
     get (mmul A (apply_percentile_null_aligns S t)) i j = get A i j \/
     get (mmul A (apply_percentile_null_aligns S t)) i j = 0%R).
Proof.
  split; [|split].
  - intros F AF EF S ratio m n i j Hs Hi Hj.
    destruct (get_mask_cases ratio Hs Hi Hj) as [[H _] | [H _]]; auto.
  - intros EF S t1 t2 m n i j Hs Hi Hj Ht.
    destruct (get_mask_cases t1 Hs Hi Hj) as [[H1 C1] | [H1 [_ C1]]];
      destruct (get_mask_cases t2 Hs Hi Hj) as [[H2 C2] | [H2 [G2 C2]]];
      rewrite H1, H2; simpl; try lra.
    destruct C1 as [C1|C1]; [lia|].
    simpl in C1, C2; unfold Rltb in C1, C2.
    destruct (Rlt_dec t1 (cell_score S i j)); [discriminate|].
    destruct (Rlt_dec t2 (cell_score S i j)); [lra | discriminate].
  - intros EF S A t m n i j Hs HA Hi Hj.
    assert (HM : rect m n (apply_percentile_null_aligns S t)).
    { unfold apply_percentile_null_aligns; rewrite Hs.
      destruct (Nat.leb (Nat.min m n) 2);
        [apply rect_build | apply rect_mmap, rect_min_entropy; exact Hs]. }
    unfold mmul; rewrite (get_mmap2 Fmul HA HM Hi Hj).
    destruct (get_mask_cases t Hs Hi Hj) as [[H _] | [H _]]; rewrite H; simpl.
    + left; ring.
    + right; ring.
Qed.

Lemma null_mask_binary_monotone_witness :
  (get (apply_percentile_null_aligns eye3 (1 / 4)%R) 0 0 <=
   get (apply_percentile_null_aligns eye3 (1 / 2)%R) 0 0)%R.
Proof.
  apply (proj1 (proj2 null_mask_binary_monotone) real_external eye3
               (1 / 4)%R (1 / 2)%R 3 3 0 0); try reflexivity; try lia; lra.
Defined.

(** X11.  Entropy scoring returns only scalars greater than 0, at most
    one per cell; over the reals an all-zero candidate matrix gives no
    scalar at all. *)
Theorem gather_null_aligns_positive :
  (forall (F : Type) (AF : Arith F) (EF : External F) (S A : matrix F),
     Forall (fun x => Fltb F0 x = true) (gather_null_aligns S A)) /\
  (forall (F : Type) (AF : Arith F) (EF : External F) (S A : matrix F)
          (m n : nat),
     shape S = (m, n) -> rect m n A ->
     length (gather_null_aligns S A) <= m * n) /\
  (forall (EF : External R) (S : matrix R) (m n : nat),
     shape S = (m, n) -> gather_null_aligns S (zeros m n) = []).
Proof.
  split; [|split].
  - intros F AF EF S A; unfold gather_null_aligns.
    destruct (shape S) as [m n].
    destruct (Nat.leb (Nat.min m n) 2); [constructor|].
    apply Forall_forall; intros x Hin.
    apply filter_In in Hin as [_ Hx]; exact Hx.
  - intros F AF EF S A m n Hs HA.
    destruct (Nat.leb_spec (Nat.min m n) 2) as [Hle|Hgt].
    + rewrite (gather_null_aligns_small A Hs Hle); simpl; lia.
    + rewrite (gather_null_aligns_cells Hs Hgt HA).
      etransitivity; [apply length_filter_le|].
      rewrite length_concat_build; lia.
  - intros EF S m n Hs.
    destruct (Nat.leb_spec (Nat.min m n) 2) as [Hle|Hgt].
    + apply (gather_null_aligns_small _ Hs Hle).
    + assert (HZ : rect m n (zeros m n)) by apply rect_build.
      rewrite (gather_null_aligns_cells Hs Hgt HZ).
      apply filter_none, Forall_forall; intros x Hin.
      apply in_concat in Hin as [row [Hrow Hx]].
      unfold build in Hrow; apply in_map_iff in Hrow as [i [<- Hi]].
      apply in_map_iff in Hx as [j [<- Hj]].
      apply in_seq in Hi, Hj; unfold zeros.
      rewrite (get_build (fun _ _ => F0)) by lia.
      simpl; apply Rltb_false; lra.
Qed.

Lemma gather_null_aligns_positive_witness :
  length (gather_null_aligns eye3 eye3) <= 3 * 3.
Proof.
  apply (proj1 (proj2 gather_null_aligns_positive) R real_arith real_external
               eye3 eye3 3 3 eq_refl rect_eye3).
Defined.

(** ** Sorting the pool and selecting the threshold *)

Lemma insert_sorted_perm {F : Type} {AF : Arith F} (x : F) (l : list F) :
  Permutation (insert_sorted x l) (x :: l).
Proof.
  induction l as [|y t IH]; simpl; [apply Permutation_refl|].
  destruct (Fltb x y); [apply Permutation_refl|].
  apply perm_trans with (y :: x :: t); [apply perm_skip; exact IH | apply perm_swap].
Qed.

Lemma sorted_perm {F : Type} {AF : Arith F} (l : list F) :
  Permutation (sorted l) l.
Proof.
  unfold sorted.
  assert (G : forall acc,
            Permutation (fold_left (fun acc x => insert_sorted x acc) l acc)
                        (l ++ acc)).
  { induction l as [|x t IH]; intros acc; simpl; [apply Permutation_refl|].
    apply perm_trans with (t ++ insert_sorted x acc); [apply IH|].
    apply perm_trans with (t ++ x :: acc).
    - apply Permutation_app_head, insert_sorted_perm.
    - apply Permutation_sym, Permutation_middle. }
  specialize (G []); rewrite app_nil_r in G; exact G.
Qed.

Lemma R_insert_sorted_sorted (x : R) (l : list R) :
  StronglySorted Rle l -> StronglySorted Rle (insert_sorted x l).
Proof.
  induction 1 as [|y t Hs IH Hall]; simpl.
  - constructor; constructor.
  - unfold Rltb; destruct (Rlt_dec x y) as [Hlt|Hge].
    + constructor; [constructor; assumption|].
      constructor; [lra|].
      eapply Forall_impl; [|exact Hall]; simpl; intros z Hz; lra.
    + constructor; [exact IH|].
      apply (Permutation_Forall (Permutation_sym (insert_sorted_perm x t))).
      constructor; [lra | exact Hall].
Qed.

Lemma R_sorted_sorted (l : list R) : StronglySorted Rle (sorted l).
Proof.
  unfold sorted.
  assert (G : forall acc, StronglySorted Rle acc ->
            StronglySorted Rle (fold_left (fun acc x => insert_sorted x acc) l acc)).
  { induction l as [|x t IH]; intros acc Hacc; simpl; [exact Hacc|].
    apply IH, R_insert_sorted_sorted; exact Hacc. }
  apply G; constructor.
Qed.

(** X12.  [sorted] returns a permutation of the pool, for every number
    type; over the reals the permutation is in ascending order. *)
Theorem sorted_is_sorted_permutation :
  (forall (F : Type) (AF : Arith F) (l : list F), Permutation (sorted l) l) /\
  (forall l : list R, StronglySorted Rle (sorted l)).
Proof.
  split.
  - intros F AF l; apply sorted_perm.
  - intros l; apply R_sorted_sorted.
Qed.

Lemma R_threshold_rank (k : R) (len : nat) :
  0 < len -> (0 <= k < 1)%R ->
  threshold_rank k len = Ok (Zfloor (k * INR len)) /\
  (0 <= Zfloor (k * INR len) < Z.of_nat len)%Z.
Proof.
  intros HL [Hk0 Hk1].
  assert (HLR : (0 < INR len)%R) by (apply lt_0_INR; exact HL).
  assert (Hx0 : (0 <= k * INR len)%R) by nra.
  assert (Hx1 : (k * INR len < INR len)%R) by nra.
  split.
  - unfold threshold_rank; simpl; rewrite (R_trunc_nonneg Hx0); reflexivity.
  - split; [apply Zfloor_lub; simpl; exact Hx0|].
    pose proof (Zfloor_bound (k * INR len)) as [Hlo _].
    apply lt_IZR; rewrite <- INR_IZR_INZ; lra.
Qed.

(** X13.  Over the reals, for a non-empty pool and a keep-fraction in
    [0, 1), the threshold is an element of the pool; with the
    keep-fraction 0 it is the smallest one. *)
Theorem percentile_threshold_member (k : R) (pool : list R) :
  pool <> [] -> (0 <= k < 1)%R ->
  exists v : R,
    percentile_threshold k pool = Ok v /\
    In v pool /\
    (k = 0%R -> forall x, In x pool -> (v <= x)%R).
Proof.
  intros Hne Hk.
  assert (HL : 0 < length pool) by (destruct pool; [congruence | simpl; lia]).
  destruct (R_threshold_rank HL Hk) as [Hrank Hz].
  destruct (@py_index_in_range R (sorted pool) (Zfloor (k * INR (length pool))))
    as [v [Hv Hnth]]; [rewrite length_sorted; lia|].
  exists v; split; [|split].
  - unfold percentile_threshold; rewrite Hrank; simpl; exact Hv.
  - apply (Permutation_in v (sorted_perm pool)).
    eapply nth_error_In; exact Hnth.
  - intros -> x Hx.
    replace (0 * INR (length pool))%R with 0%R in Hnth by ring.
    replace (Zfloor 0) with 0%Z in Hnth
      by (symmetry; apply Zfloor_eq; simpl; lra).
    simpl in Hnth.
    apply (Permutation_in x (Permutation_sym (sorted_perm pool))) in Hx.
    pose proof (R_sorted_sorted pool) as Hsorted.
    destruct (sorted pool) as [|y t]; [discriminate|].
    injection Hnth as ->.
    destruct Hx as [<-|Hx]; [lra|].
    inversion Hsorted as [|? ? _ Hall]; subst.
    rewrite Forall_forall in Hall; apply Hall; exact Hx.
Qed.

Lemma percentile_threshold_member_witness :
  exists v : R,
    percentile_threshold 0%R [3; 1; 2]%R = Ok v /\
    In v [3; 1; 2]%R /\
    (0%R = 0%R -> forall x, In x [3; 1; 2]%R -> (v <= x)%R).
Proof.
  apply (@percentile_threshold_member 0%R [3; 1; 2]%R).
  - discriminate.
  - lra.
Defined.

(** ** Dictionaries and loops *)

Lemma lookup_cases {V : Type} (d : dict V) (k : string) :
  (exists v, lookup d k = Ok v /\ In (k, v) d) \/
  (lookup d k = Raise KeyError /\ ~ In k (keys d)).
Proof.
  induction d as [|[k' v'] t IH]; simpl.
  - right; split; [reflexivity | tauto].
  - destruct (String.eqb_spec k' k) as [->|Hne].
    + left; exists v'; split; [reflexivity | left; reflexivity].
    + destruct IH as [[v [Hv Hin]] | [Hr Hnot]].
      * left; exists v; split; [exact Hv | right; exact Hin].
      * right; split; [exact Hr|].
        intros [E|Hin]; [contradiction | exact (Hnot Hin)].
Qed.

Lemma lookup_present {V : Type} (d : dict V) (k : string) :
  In k (keys d) -> exists v, lookup d k = Ok v /\ In (k, v) d.
Proof.
  intros Hin; destruct (lookup_cases d k) as [H | [_ Hnot]];
    [exact H | contradiction].
Qed.

Lemma lookup_ok_key {V : Type} (d : dict V) (k : string) (v : V) :
  lookup d k = Ok v -> In k (keys d).
Proof.
  intros H; destruct (lookup_cases d k) as [[v' [_ Hin]] | [Hr _]].
  - unfold keys; apply in_map_iff; exists (k, v'); auto.
  - rewrite Hr in H; discriminate H.
Qed.

Lemma keys_dict_set {V : Type} (d : dict V) (k : string) (v : V) :
  forall x, In x (keys (dict_set d k v)) <-> In x (keys d) \/ x = k.
Proof.
  intros x; induction d as [|[k' v'] t IH]; simpl.
  - split; [intros [E|[]]; auto | intros [[]|E]; auto].
  - destruct (String.eqb_spec k' k) as [->|Hne]; simpl.
    + split; [tauto | intros [H|E]; auto].
    + rewrite IH; tauto.
Qed.

Lemma keys_dict_set_present {V : Type} (d : dict V) (k : string) (v : V) :
  In k (keys d) -> keys (dict_set d k v) = keys d.
Proof.
  induction d as [|[k' v'] t IH]; simpl; [tauto|].
  destruct (String.eqb_spec k' k) as [->|Hne]; simpl; [reflexivity|].
  intros [E|Hin]; [contradiction|]; rewrite (IH Hin); reflexivity.
Qed.

(** Storing the value that is already there changes nothing. *)
Lemma dict_set_same {V : Type} (d : dict V) (k : string) (v : V) :
  lookup d k = Ok v -> dict_set d k v = d.
Proof.
  induction d as [|[k' v'] t IH]; simpl; [discriminate|].
  destruct (String.eqb_spec k' k) as [->|Hne].
  - intros H; injection H as ->; reflexivity.
  - intros H; rewrite (IH H); reflexivity.
Qed.

Lemma keys_dict_of {V : Type} (l : list (string * V)) :
  forall x, In x (keys (dict_of l)) <-> In x (map fst l).
Proof.
  unfold dict_of.
  assert (G : forall (d : dict V) x,
            In x (keys (fold_left (fun d kv => dict_set d (fst kv) (snd kv)) l d))
            <-> In x (keys d) \/ In x (map fst l)).
  { induction l as [|[k v] t IH]; intros d x; simpl; [tauto|].
    rewrite IH, keys_dict_set.
    split; intros H; intuition (subst; auto). }
  intros x; rewrite G; simpl; tauto.
Qed.

Lemma values_dict_set {V : Type} (P : V -> Prop) (d : dict V) (k : string) (v : V) :
  Forall (fun kv => P (snd kv)) d -> P v ->
  Forall (fun kv => P (snd kv)) (dict_set d k v).
Proof.
  induction 1 as [|[k' v'] t Hx Ht IH]; intros Hv; simpl.
  - constructor; [exact Hv | constructor].
  - destruct (String.eqb k' k).
    + constructor; [exact Hv | exact Ht].
    + constructor; [exact Hx | apply IH; exact Hv].
Qed.

Lemma values_dict_of {V : Type} (P : V -> Prop) (l : list (string * V)) :
  Forall (fun kv => P (snd kv)) l ->
  Forall (fun kv => P (snd kv)) (dict_of l).
Proof.
  unfold dict_of.
  assert (G : forall d : dict V,
            Forall (fun kv => P (snd kv)) d ->
            Forall (fun kv => P (snd kv)) l ->
            Forall (fun kv => P (snd kv))
                   (fold_left (fun d kv => dict_set d (fst kv) (snd kv)) l d)).
  { induction l as [|[k v] t IH]; intros d Hd Hl; simpl; [exact Hd|].
    inversion Hl; subst; apply IH; [apply values_dict_set|]; assumption. }
  intros Hl; apply G; [constructor | exact Hl].
Qed.

(** When every element of the list maps to a pair keyed by itself, the
    keys of the result are the list. *)
Lemma map_each_keys {A B : Type} (f : A -> outcome (A * B)) (l : list A)
      (ys : list (A * B)) :
  (forall x y, f x = Ok y -> fst y = x) ->
  map_each f l = Ok ys -> map fst ys = l.
Proof.
  intros Hf; revert ys; induction l as [|x t IH]; intros ys; simpl.
  - intros H; injection H as <-; reflexivity.
  - destruct (f x) as [y| |] eqn:Ey; simpl; try discriminate.
    destruct (map_each f t) as [ys'| |]; simpl; try discriminate.
    intros H; injection H as <-; simpl.
    rewrite (Hf x y Ey), (IH ys' eq_refl); reflexivity.
Qed.

Lemma iter_max_returns {F : Type} {AF : Arith F} (g : globals) (p S : matrix F)
      (K : Z) (m n : nat) :
  g_sim g = Some S -> shape S = (m, n) -> 0 < m -> 0 < n ->
  exists A, iter_max g p K = Ok A.
Proof.
  intros Hg Hs Hm Hn.
  destruct (Nat.leb_spec (Nat.min m n) 2) as [Hle|Hgt].
  - exists (intersection0 S); eapply iter_max_small; eauto.
  - destruct (Z.lt_ge_cases K 0) as [Hneg|Hpos].
    + exists (intersection0 S); eapply iter_max_negative_large; eauto.
    + destruct (@iter_max_rounds F AF g p S K m n Hpos Hg Hs Hgt)
        as [j [_ [HR _]]].
      exists (accumulated S m n j); exact HR.
Qed.

(** ** The run of [__main__] with the filter on *)

Section Run.

Context {F : Type} {AF : Arith F} {EF : External F} {MF : Matchers F}.

Local Abbreviation matrix := (matrix F).

(** [apply_distortion] keeps the shape. *)
Lemma shape_apply_distortion (S : matrix) (r : F) (m n : nat) :
  shape S = (m, n) -> rect m n S -> shape (apply_distortion S r) = (m, n).
Proof.
  intros Hs HS.
  destruct (apply_distortion_cells r Hs) as [Hsame Hcells].
  destruct (Nat.lt_ge_cases m 2) as [Hm|Hm]; [rewrite Hsame; auto|].
  destruct (Nat.lt_ge_cases n 2) as [Hn|Hn]; [rewrite Hsame; auto|].
  destruct (Feqb r F0) eqn:Hr; [rewrite Hsame; auto|].
  destruct (Hcells Hm Hn eq_refl HS) as [Hrect _].
  apply shape_rect; [exact Hrect | lia].
Qed.

(** The body of the loop over the pools, for one sentence pair. *)
Definition pool_step (sim : matrix) (methods_matrix : dict matrix)
           (ents : dict (list F)) (m : string) : outcome (dict (list F)) :=
  pool <- lookup ents m ;;
  mat <- lookup methods_matrix m ;;
  Ok (dict_set ents m (pool ++ gather_null_aligns sim mat)).

(** A method with no entry in [methods_matrix] stops the loop with
    [KeyError]. *)
Lemma for_each_pool_keyerror (sim : matrix) (MM : dict matrix) (l : list string) :
  forall ents : dict (list F),
    (forall x, In x l -> In x (keys ents)) ->
    (exists bad, In bad l /\ ~ In bad (keys MM)) ->
    for_each l (pool_step sim MM) ents = Raise KeyError.
Proof.
  induction l as [|x t IH]; intros ents Hkeys [bad [Hin Hbad]];
    [destruct Hin|].
  simpl; unfold pool_step at 1.
  destruct (lookup_present ents x (Hkeys x (or_introl eq_refl)))
    as [pool [Hpool _]].
  rewrite Hpool; simpl.
  destruct (lookup_cases MM x) as [[mat [Hmat HinM]] | [Hr _]].
  - rewrite Hmat; simpl.
    apply IH.
    + intros y Hy; apply keys_dict_set; left; apply Hkeys; right; exact Hy.
    + exists bad; split; [|exact Hbad].
      destruct Hin as [->|Hin]; [|exact Hin].
      exfalso; apply Hbad, (lookup_ok_key _ _ Hmat).
  - rewrite Hr; reflexivity.
Qed.

(** With only empty scores to add, the loop leaves empty pools as they
    are. *)
Lemma for_each_pool_small (sim : matrix) (MM : dict matrix) (l : list string) :
  (forall mat, gather_null_aligns sim mat = []) ->
  forall ents ents' : dict (list F),
    Forall (fun kv => snd kv = []) ents ->
    for_each l (pool_step sim MM) ents = Ok ents' -> ents' = ents.
Proof.
  intros Hg; induction l as [|x t IH]; intros ents ents' Hall; simpl.
  - intros H; injection H as <-; reflexivity.
  - unfold pool_step at 1.
    destruct (lookup_cases ents x) as [[pool [Hpool Hin]] | [Hr _]];
      [|rewrite Hr; discriminate].
    rewrite Hpool; simpl.
    destruct (lookup MM x) as [mat| |]; simpl; try discriminate.
    rewrite Hg, app_nil_r, (dict_set_same _ _ Hpool).
    apply IH; exact Hall.
Qed.

Lemma pool_sentence_unfold (a : args) (ents : dict (list F)) (raw : matrix) :
  pool_sentence a ents raw =
  let sim := apply_distortion raw (distortion a) in
  itermax <- iter_max {| g_sim := Some sim |} sim 1 ;;
  for_each (keys ents)
    (pool_step sim
       [("forward", fst (get_alignment_matrix sim));
        ("backward", snd (get_alignment_matrix sim));
        ("inter", symmetrize (fst (get_alignment_matrix sim))
                             (snd (get_alignment_matrix sim)));
        ("mwmf", max_weight_matching sim); ("itermax", itermax)]%string)
    ents.
Proof.
  unfold pool_sentence; cbv zeta.
  destruct (get_alignment_matrix (apply_distortion raw (distortion a)));
    reflexivity.
Qed.

(** X14.  With the filter on ([--null-align] below 1), a selected
    method that has no entry in [methods_matrix], whose keys are
    forward, backward, inter, mwmf and itermax, stops the run at the
    first sentence pair with [KeyError]: so do the selectable methods
    [fwd] and [rev]. *)
Theorem main_filter_unknown_method (a : args) (raw : matrix)
        (rest : list matrix) (bad : string) (m n : nat) :
  Fltb (null_align a) F1 = true ->
  shape raw = (m, n) -> rect m n raw -> 0 < m -> 0 < n ->
  In bad (matching_methods a) ->
  ~ In bad ["forward"; "backward"; "inter"; "mwmf"; "itermax"]%string ->
  main a (raw :: rest) = Raise KeyError.
Proof.
  intros Hk Hs HS Hm Hn Hin Hbad.
  unfold main, calibrate; rewrite Hk; simpl for_each.
  rewrite pool_sentence_unfold; cbv zeta.
  pose proof (shape_apply_distortion (distortion a) Hs HS) as Hs'.
  destruct (@iter_max_returns F AF
              {| g_sim := Some (apply_distortion raw (distortion a)) |}
              (apply_distortion raw (distortion a))
              (apply_distortion raw (distortion a)) 1 m n eq_refl Hs' Hm Hn)
    as [A HA].
  rewrite HA; simpl bind.
  rewrite for_each_pool_keyerror; [reflexivity | auto |].
  exists bad; split; [|exact Hbad].
  apply keys_dict_of; rewrite map_map; simpl; rewrite map_id; exact Hin.
Qed.

(** X15.  With the filter on, a run never completes on a corpus whose
    similarity matrices all have [min(m, n) <= 2], the empty corpus
    included, when at least one method is selected: every pool stays
    empty and no threshold can be taken from it. *)
Theorem main_filter_small_corpus (a : args) (corpus : list matrix) :
  Fltb (null_align a) F1 = true ->
  matching_methods a <> [] ->
  (forall raw, In raw corpus ->
     exists m n, shape raw = (m, n) /\ rect m n raw /\ Nat.min m n <= 2) ->
  forall v, main a corpus <> Ok v.
Proof.
  intros Hk Hne Hsmall v Hmain.
  unfold main in Hmain; rewrite Hk in Hmain.
  destruct (calibrate a corpus) as [thr| |] eqn:Hcal; try discriminate.
  clear Hmain; unfold calibrate in Hcal.
  set (ents0 := dict_of (map (fun x : string => (x, @nil F)) (matching_methods a)))
    in Hcal.
  assert (Hall : Forall (fun kv : string * list F => snd kv = []) ents0).
  { apply (values_dict_of (fun l : list F => l = [])).
    apply Forall_forall; intros kv Hin.
    apply in_map_iff in Hin as [x [<- _]]; reflexivity. }
  assert (Hloop : forall ents',
            for_each corpus (pool_sentence a) ents0 = Ok ents' -> ents' = ents0).
  { clear Hcal; generalize dependent ents0; intros ents0 Hall.
    induction corpus as [|raw t IH]; intros ents'; simpl.
    - intros H; injection H as <-; reflexivity.
    - destruct (pool_sentence a ents0 raw) as [e1| |] eqn:E1; simpl;
        try discriminate.
      destruct (Hsmall raw (or_introl eq_refl)) as [m [n [Hs [HS Hmin]]]].
      pose proof (shape_apply_distortion (distortion a) Hs HS) as Hs'.
      rewrite pool_sentence_unfold in E1; cbv zeta in E1.
      destruct (iter_max _ _ 1) as [A| |]; simpl in E1; try discriminate.
      apply for_each_pool_small in E1; [|
        intros mat; apply (gather_null_aligns_small mat Hs' Hmin) | exact Hall].
      subst e1; apply IH.
      intros raw' Hin; apply Hsmall; right; exact Hin. }
  destruct (for_each corpus (pool_sentence a) ents0) as [ents'| |] eqn:Efor;
    simpl in Hcal; try discriminate.
  rewrite (Hloop ents' eq_refl) in Hcal.
  destruct (keys ents0) as [|k0 ks] eqn:Hkeys.
  - destruct (matching_methods a) as [|x t] eqn:Hmeth; [congruence|].
    assert (Hin : In x (keys ents0)).
    { apply keys_dict_of; rewrite map_map; simpl; left; reflexivity. }
    rewrite Hkeys in Hin; destruct Hin.
  - simpl in Hcal.
    assert (Hk0 : In k0 (keys ents0)) by (rewrite Hkeys; left; reflexivity).
    destruct (lookup_present ents0 k0 Hk0) as [pool [Hpool Hin]].
    rewrite Hpool in Hcal; simpl in Hcal.
    rewrite Forall_forall in Hall; specialize (Hall _ Hin); simpl in Hall.
    subst pool.
    destruct (percentile_threshold (null_align a) []) as [t| |] eqn:Et;
      simpl in Hcal; try discriminate.
    exact (@percentile_threshold_empty F AF (null_align a) t Et).
Qed.

(** X16.  With the filter on, the second loop completes a sentence
    pair only if inter, mwmf and itermax are all among the selected
    methods (each of their masks is looked up, selected or not); the
    forward and reverse matrices are returned as the matcher gave
    them. *)
Theorem align_sentence_filter_methods (a : args) (null_thresh : dict F)
        (raw : matrix) (mats : dict matrix) :
  Fltb (null_align a) F1 = true ->
  align_sentence a null_thresh raw = Ok mats ->
  (In "inter"%string (matching_methods a) /\
   In "mwmf"%string (matching_methods a) /\
   In "itermax"%string (matching_methods a)) /\
  (forall m, In m (matching_methods a) -> In m (keys null_thresh)) /\
  lookup mats "fwd"%string =
    Ok (fst (get_alignment_matrix (apply_distortion raw (distortion a)))) /\
  lookup mats "rev"%string =
    Ok (snd (get_alignment_matrix (apply_distortion raw (distortion a)))).
Proof.
  intros Hk H; unfold align_sentence in H; rewrite Hk in H.
  set (sim := apply_distortion raw (distortion a)) in *.
  set (f := fun mmethod : string =>
              t <- lookup null_thresh mmethod ;;
              Ok (mmethod, apply_percentile_null_aligns sim t)) in H.
  destruct (map_each f (matching_methods a)) as [pairs| |] eqn:Epairs;
    simpl in H; try discriminate.
  assert (Hf : forall x y, f x = Ok y -> fst y = x).
  { intros x y; unfold f.
    destruct (lookup null_thresh x); simpl; try discriminate.
    intros E; injection E as <-; reflexivity. }
  pose proof (map_each_keys f _ Hf Epairs) as Hkeys.
  assert (Hthr : forall m, In m (matching_methods a) -> In m (keys null_thresh)).
  { clear H Hkeys; revert pairs Epairs.
    induction (matching_methods a) as [|x t IH]; intros pairs Epairs m Hin;
      [destruct Hin|].
    simpl in Epairs.
    destruct (f x) as [y| |] eqn:Ey; simpl in Epairs; try discriminate.
    destruct (map_each f t) as [ys| |] eqn:Et; simpl in Epairs; try discriminate.
    destruct Hin as [<-|Hin]; [|exact (IH ys eq_refl m Hin)].
    unfold f in Ey.
    destruct (lookup null_thresh x) as [t0| |] eqn:El; simpl in Ey;
      try discriminate.
    exact (lookup_ok_key _ _ El). }
  destruct (get_alignment_matrix sim) as [fwd rev] eqn:Egam.
  destruct (iter_max _ _ 1) as [itermax| |]; simpl in H; try discriminate.
  destruct (lookup (dict_of pairs) "inter") as [mi| |] eqn:Ei; simpl in H;
    try discriminate.
  destruct (lookup (dict_of pairs) "mwmf") as [mm| |] eqn:Em; simpl in H;
    try discriminate.
  destruct (lookup (dict_of pairs) "itermax") as [mt| |] eqn:Et; simpl in H;
    try discriminate.
  injection H as <-.
  apply lookup_ok_key in Ei, Em, Et.
  apply (proj1 (keys_dict_of pairs _)) in Ei, Em, Et.
  rewrite Hkeys in Ei, Em, Et.
  split; [auto|]; split; [exact Hthr|]; split; reflexivity.
Qed.

End Run.

Lemma main_filter_unknown_method_witness :
  main (MF := argmax_matchers) filter_args_fwd [eye3] = Raise KeyError.
Proof.
  apply (@main_filter_unknown_method R real_arith real_external argmax_matchers
           filter_args_fwd eye3 [] "fwd"%string 3 3).
  - apply Rltb_true; simpl; lra.
  - reflexivity.
  - exact rect_eye3.
  - lia.
  - lia.
  - simpl; auto.
  - simpl; intros H; repeat (destruct H as [H|H]; [discriminate H|]); exact H.
Defined.

Lemma main_filter_small_corpus_witness :
  match main (MF := argmax_matchers) filter_args [[[1%R]]] with
  | Ok _ => False
  | _ => True
  end.
Proof.
  destruct (main (MF := argmax_matchers) filter_args [[[1%R]]])
    as [v| |] eqn:E; [|exact I|exact I].
  refine (@main_filter_small_corpus R real_arith real_external argmax_matchers
            filter_args [[[1%R]]] _ _ _ v E).
  - apply Rltb_true; simpl; lra.
  - discriminate.
  - intros raw [<-|[]]; exists 1, 1; split; [reflexivity|].
    split; [split; [reflexivity | repeat constructor] | simpl; lia].
Defined.

Lemma align_sentence_filter_methods_witness :
  In "inter"%string (matching_methods filter_args) /\
  In "mwmf"%string (matching_methods filter_args) /\
  In "itermax"%string (matching_methods filter_args).
Proof.
  refine (proj1 (@align_sentence_filter_methods R real_arith real_external
                   argmax_matchers filter_args filter_thresholds [[1%R]]
                   _ _ _)).
  - apply Rltb_true; simpl; lra.
  - unfold align_sentence, filter_args.
    cbn [null_align distortion matching_methods].
    change (Fltb (1 / 2)%R F1) with (Rltb (1 / 2) 1).
    rewrite (@Rltb_true (1 / 2)%R 1%R) by lra.
    change (apply_distortion [[1%R]] 0%R) with [[1%R]].
    unfold filter_thresholds.
    cbn [map_each lookup String.eqb Ascii.eqb Bool.eqb bind].
    cbn [get_alignment_matrix argmax_matchers].
    change (shape [[1%R]]) with (1, 1); cbv iota beta.
    rewrite (@iter_max_small R _ {| g_sim := Some [[1%R]] |} [[1%R]] [[1%R]]
               1 1 1 eq_refl eq_refl); try lia.
    cbn [bind]; unfold dict_of.
    cbn [fold_left fst snd dict_set String.eqb Ascii.eqb Bool.eqb lookup bind].
    reflexivity.
Defined.

(** ** The model name *)

Lemma substring_0_all (s : string) : substring 0 (String.length s) s = s.
Proof. induction s as [|c s IH]; simpl; [reflexivity | rewrite IH; reflexivity]. Qed.

Lemma string_length3 (p : string) :
  String.length p = 3 ->
  exists a b c, p = String a (String b (String c EmptyString)).
Proof.
  destruct p as [|a [|b [|c [|d p]]]]; simpl; intros H; try discriminate H.
  exists a, b, c; reflexivity.
Qed.

Lemma drop3_append (p name : string) :
  String.length p = 3 -> drop3 (p ++ name) = name.
Proof.
  intros Hp; destruct (@string_length3 p Hp) as [a [b [c ->]]].
  unfold drop3; simpl; rewrite Nat.sub_0_r; apply substring_0_all.
Qed.

Lemma TR_Models_long (name : string) :
  In name TR_Models -> 12 <= String.length name.
Proof.
  unfold TR_Models; simpl.
  intros H; repeat (destruct H as [<-|H]; [simpl; lia|]); destruct H.
Qed.

Lemma length_string_append (s1 s2 : string) :
  String.length (s1 ++ s2) = String.length s1 + String.length s2.
Proof. induction s1 as [|c s1 IH]; simpl; [reflexivity | rewrite IH; reflexivity]. Qed.

Lemma eqb_long_false (s short : string) :
  String.length short < String.length s -> String.eqb s short = false.
Proof.
  intros Hlen; apply String.eqb_neq; intros E; subst s; lia.
Qed.

Lemma prefix_cons (x y : Ascii.ascii) (s1 s2 : string) :
  prefix (String x s1) (String y s2) =
  if Ascii.ascii_dec x y then prefix s1 s2 else false.
Proof. reflexivity. Qed.

(** X17.  The check of the model name looks at the name without its
    first three characters only.  A name of [TR_Models] behind any
    three characters is accepted as it is; unless these are "tr:",
    the loader then builds no tokenizer.  A name of [TR_Models]
    written without a prefix is refused. *)
Theorem resolve_model_prefix_unchecked (p name : string) :
  String.length p = 3 -> In name TR_Models ->
  resolve_model (p ++ name) = Some (p ++ name)%string /\
  (p <> "tr:"%string -> loader_has_tokenizer (p ++ name) = false) /\
  loader_has_tokenizer ("tr:" ++ name) = true /\
  resolve_model name = None.
Proof.
  intros Hp Hin.
  pose proof (@TR_Models_long name Hin) as Hlong.
  split; [|split; [|split]].
  - unfold resolve_model.
    rewrite !eqb_long_false
      by (rewrite length_string_append, Hp; simpl; lia).
    rewrite (@drop3_append p name Hp).
    assert (E : existsb (String.eqb name) TR_Models = true).
    { apply existsb_exists; exists name; split; [exact Hin | apply String.eqb_refl]. }
    rewrite E; reflexivity.
  - intros Hne; destruct (@string_length3 p Hp) as [a [b [c ->]]].
    unfold loader_has_tokenizer.
    change ((String a (String b (String c "")) ++ name)%string)
      with (String a (String b (String c name))).
    rewrite prefix_cons.
    destruct (Ascii.ascii_dec _ a) as [<-|]; [|reflexivity].
    rewrite prefix_cons.
    destruct (Ascii.ascii_dec _ b) as [<-|]; [|reflexivity].
    rewrite prefix_cons.
    destruct (Ascii.ascii_dec _ c) as [<-|]; [|reflexivity].
    congruence.
  - unfold loader_has_tokenizer; simpl.
    destruct name; reflexivity.
  - unfold TR_Models in Hin; simpl in Hin.
    repeat (destruct Hin as [<-|Hin]; [vm_compute; reflexivity|]); destruct Hin.
Qed.

Lemma resolve_model_prefix_unchecked_witness :
  resolve_model "xx:roberta-base" = Some "xx:roberta-base"%string /\
  ("xx:"%string <> "tr:"%string ->
   loader_has_tokenizer "xx:roberta-base" = false) /\
  loader_has_tokenizer "tr:roberta-base" = true /\
  resolve_model "roberta-base" = None.
Proof.
  apply (@resolve_model_prefix_unchecked "xx:" "roberta-base").
  - reflexivity.
  - unfold TR_Models; simpl; auto 10.
Defined.

(** ** Loading the two corpora *)

Lemma py_index_middle {A : Type} (pre : list A) (x : A) (t : list A) :
  py_index (pre ++ x :: t) (Z.of_nat (length pre)) = Ok x.
Proof.
  destruct (@py_index_in_range A (pre ++ x :: t) (Z.of_nat (length pre)))
    as [v [Hv Hnth]].
  - rewrite length_app; simpl; lia.
  - rewrite Nat2Z.id, nth_error_app2, Nat.sub_diag in Hnth by lia.
    simpl in Hnth; injection Hnth as <-; exact Hv.
Qed.

Lemma py_index_at_length {A : Type} (l : list A) :
  py_index l (Z.of_nat (length l)) = Raise IndexError.
Proof.
  unfold py_index.
  destruct (Z.ltb_spec (Z.of_nat (length l)) 0) as [Hneg|_]; [lia|].
  destruct (Z.ltb_spec (Z.of_nat (length l)) (Z.of_nat (length l))) as [Hlt|_];
    [lia|].
  rewrite andb_false_r; reflexivity.
Qed.

(** The loop over the sentence pairs, entered after [k] pairs. *)
Lemma load_pairs {Sent Toks : Type} (tokenize : Sent -> Toks) (l1 : list Sent) :
  forall (pre1 pre2 l2 : list Sent),
    length pre1 = length pre2 ->
    map_each (fun sent_id =>
                s1 <- py_index (pre1 ++ l1) (Z.of_nat sent_id) ;;
                s2 <- py_index (pre2 ++ l2) (Z.of_nat sent_id) ;;
                Ok (tokenize s1, tokenize s2))
             (seq (length pre1) (length l1)) =
    if Nat.leb (length l1) (length l2)
    then Ok (map (fun p => (tokenize (fst p), tokenize (snd p))) (combine l1 l2))
    else Raise IndexError.
Proof.
  induction l1 as [|x l1 IH]; intros pre1 pre2 l2 Hlen; [reflexivity|].
  cbn [length seq map_each].
  rewrite py_index_middle; cbn [bind].
  destruct l2 as [|y l2].
  - rewrite app_nil_r, Hlen, py_index_at_length; reflexivity.
  - rewrite Hlen at 1; rewrite py_index_middle; cbn [bind].
    replace (pre1 ++ x :: l1) with ((pre1 ++ [x]) ++ l1)
      by (rewrite <- app_assoc; reflexivity).
    replace (pre2 ++ y :: l2) with ((pre2 ++ [y]) ++ l2)
      by (rewrite <- app_assoc; reflexivity).
    replace (Datatypes.S (length pre1)) with (length (pre1 ++ [x]))
      by (rewrite length_app; simpl; lia).
    rewrite (IH (pre1 ++ [x]) (pre2 ++ [y]) l2)
      by (rewrite !length_app; simpl; lia).
    cbn [length Nat.leb combine map fst snd].
    destruct (Nat.leb (length l1) (length l2)); reflexivity.
Qed.

(** The three outcomes of the loading loop and of the length check. *)
Lemma load_corpora_cases {Sent Toks : Type} (tokenize : Sent -> Toks)
        (corpus1 corpus2 : list Sent) (max_sent_id : Z) :
  let c1 := py_slice_to corpus1 max_sent_id in
  let c2 := py_slice_to corpus2 max_sent_id in
  (length c2 < length c1 ->
   load_corpora tokenize corpus1 corpus2 max_sent_id = Raise IndexError) /\
  (length c1 < length c2 ->
   load_corpora tokenize corpus1 corpus2 max_sent_id = Raise ValueError) /\
  (length c1 = length c2 ->
   load_corpora tokenize corpus1 corpus2 max_sent_id =
   Ok (map (fun p => (tokenize (fst p), tokenize (snd p))) (combine c1 c2))).
Proof.
  intros c1 c2; unfold load_corpora; fold c1 c2.
  pose proof (@load_pairs Sent Toks tokenize c1 [] [] c2 eq_refl) as H.
  simpl app in H; simpl length in H at 1; rewrite H; clear H.
  split; [|split]; intros Hlen.
  - destruct (Nat.leb_spec (length c1) (length c2)); [lia | reflexivity].
  - destruct (Nat.leb_spec (length c1) (length c2)); [|lia]; cbn [bind].
    destruct (Nat.eqb_spec (Nat.min (length c1) (length c2))
                           (Nat.max (length c1) (length c2))); [lia | reflexivity].
  - destruct (Nat.leb_spec (length c1) (length c2)); [|lia]; cbn [bind].
    destruct (Nat.eqb_spec (Nat.min (length c1) (length c2))
                           (Nat.max (length c1) (length c2))); [reflexivity | lia].
Qed.

(** X18.  The outcome of loading the two corpora, after both are cut
    at [max_sent_id]: [IndexError] when the second one is shorter,
    [ValueError] (the check of line 195) when it is longer, and the
    pairs of tokenized sentences, in order, when the lengths agree. *)
Theorem load_corpora_outcome {Sent Toks : Type} (tokenize : Sent -> Toks)
        (corpus1 corpus2 : list Sent) (max_sent_id : Z) :
  let c1 := py_slice_to corpus1 max_sent_id in
  let c2 := py_slice_to corpus2 max_sent_id in
  (length c2 < length c1 ->
   load_corpora tokenize corpus1 corpus2 max_sent_id = Raise IndexError) /\
  (length c1 < length c2 ->
   load_corpora tokenize corpus1 corpus2 max_sent_id = Raise ValueError) /\
  (length c1 = length c2 ->
   load_corpora tokenize corpus1 corpus2 max_sent_id =
   Ok (map (fun p => (tokenize (fst p), tokenize (snd p))) (combine c1 c2))).
Proof. exact (load_corpora_cases tokenize corpus1 corpus2 max_sent_id). Qed.

Lemma load_corpora_outcome_witness :
  load_corpora (fun s : nat => s) [1; 2; 3] [4; 5] 7 = Raise IndexError.
Proof.
  apply (proj1 (@load_corpora_outcome nat nat (fun s => s) [1; 2; 3] [4; 5] 7)).
  simpl; lia.
Defined.

Lemma length_py_slice_to {A : Type} (l : list A) (k : Z) :
  Z.of_nat (length (py_slice_to l k)) =
  if (k <? 0)%Z then Z.max 0 (k + Z.of_nat (length l))
  else Z.min k (Z.of_nat (length l)).
Proof.
  unfold py_slice_to; rewrite length_firstn.
  destruct (Z.ltb_spec k 0); lia.
Qed.

(** X19.  The cut [corpus[:max_sent_id]].  With the default [-1] the
    last sentence of a corpus is dropped; a limit at or above the
    length keeps the corpus; and with a limit [0 <= k] that both
    corpora reach, the run loads [k] pairs whatever the two lengths
    are: the length check sees the corpora after the cut. *)
Theorem load_corpora_cut {Sent Toks : Type} (tokenize : Sent -> Toks)
        (corpus1 corpus2 : list Sent) :
  py_slice_to corpus1 (-1) = removelast corpus1 /\
  (forall k, (Z.of_nat (length corpus1) <= k)%Z ->
     py_slice_to corpus1 k = corpus1) /\
  (forall k : nat, k <= length corpus1 -> k <= length corpus2 ->
     load_corpora tokenize corpus1 corpus2 (Z.of_nat k) =
     Ok (map (fun p => (tokenize (fst p), tokenize (snd p)))
             (combine (firstn k corpus1) (firstn k corpus2)))).
Proof.
  split; [|split].
  - unfold py_slice_to; cbn [Z.ltb Z.compare].
    destruct corpus1 as [|x t]; [reflexivity|].
    replace (Z.to_nat (Z.max 0 (-1 + Z.of_nat (length (x :: t)))))
      with (length t) by (simpl length; lia).
    symmetry; apply (removelast_firstn_len (x :: t)).
  - intros k Hk; unfold py_slice_to.
    destruct (Z.ltb_spec k 0); [lia|].
    apply firstn_all2; lia.
  - intros k H1 H2.
    assert (E : forall l : list Sent, k <= length l ->
              py_slice_to l (Z.of_nat k) = firstn k l).
    { intros l Hl; unfold py_slice_to.
      destruct (Z.ltb_spec (Z.of_nat k) 0); [lia|].
      f_equal; lia. }
    pose proof (@load_corpora_cases Sent Toks tokenize corpus1 corpus2
                  (Z.of_nat k)) as H; cbv zeta in H.
    rewrite (E corpus1 H1), (E corpus2 H2) in H.
    apply H; rewrite !length_firstn; lia.
Qed.

Lemma load_corpora_cut_witness :
  load_corpora (fun s : nat => s) [1; 2; 3] [4; 5] 2 =
  Ok (map (fun p => (fst p, snd p)) (combine (firstn 2 [1; 2; 3]) (firstn 2 [4; 5]))).
Proof.
  apply (proj2 (proj2 (@load_corpora_cut nat nat (fun s => s) [1; 2; 3] [4; 5])) 2);
    simpl; lia.
Defined.

(** ** The maps between sub-tokens and words *)

Lemma append_last_snoc {A : Type} (m : list (list A)) (l : list A) (x : A) :
  append_last (m ++ [l]) x = m ++ [l ++ [x]].
Proof.
  induction m as [|a m IH]; [reflexivity|].
  simpl app; simpl append_last.
  destruct (m ++ [l]) as [|b t] eqn:E.
  - destruct m; discriminate E.
  - rewrite IH; reflexivity.
Qed.

Lemma w2b_word_spec {T : Type} (wlist : list T) :
  forall (m : list (list nat)) (l : list nat) (cnt : nat),
    w2b_word wlist (m ++ [l], cnt) =
    (m ++ [l ++ seq cnt (length wlist)], cnt + length wlist).
Proof.
  induction wlist as [|x t IH]; intros m l cnt; simpl.
  - rewrite app_nil_r, Nat.add_0_r; reflexivity.
  - rewrite append_last_snoc, IH.
    rewrite <- app_assoc; simpl; f_equal; lia.
Qed.

Lemma w2b_words_spec {T : Type} (tokens : list (list T)) :
  forall (m : list (list nat)) (cnt : nat),
    w2b_words tokens (m, cnt) =
    (m ++ word_spans cnt tokens, cnt + length (concat tokens)).
Proof.
  induction tokens as [|w t IH]; intros m cnt; simpl.
  - rewrite app_nil_r, Nat.add_0_r; reflexivity.
  - rewrite w2b_word_spec, IH; simpl.
    rewrite <- app_assoc, length_app; simpl; f_equal; lia.
Qed.

Lemma w2b_map_spans {T : Type} (tokens : list (list T)) :
  w2b_map tokens = word_spans 0 tokens.
Proof. unfold w2b_map; rewrite w2b_words_spec; reflexivity. Qed.

Lemma map_const_repeat {A : Type} (i : nat) (l : list A) :
  map (fun _ => i) l = repeat i (length l).
Proof. induction l as [|x t IH]; simpl; [reflexivity | rewrite IH; reflexivity]. Qed.

Lemma b2w_words_spec {T : Type} (tokens : list (list T)) :
  forall (i : nat) (acc : list nat),
    b2w_words i tokens acc = acc ++ token_owners i tokens.
Proof.
  induction tokens as [|w t IH]; intros i acc; simpl.
  - rewrite app_nil_r; reflexivity.
  - rewrite IH, map_const_repeat, <- app_assoc; reflexivity.
Qed.

Lemma b2w_map_owners {T : Type} (tokens : list (list T)) :
  b2w_map tokens = token_owners 0 tokens.
Proof. unfold b2w_map; rewrite b2w_words_spec; reflexivity. Qed.

Lemma length_token_owners {T : Type} (tokens : list (list T)) (i : nat) :
  length (token_owners i tokens) = length (concat tokens).
Proof.
  revert i; induction tokens as [|w t IH]; intros i; simpl; [reflexivity|].
  rewrite !length_app, repeat_length, IH; reflexivity.
Qed.

Lemma concat_word_spans {T : Type} (tokens : list (list T)) (cnt : nat) :
  concat (word_spans cnt tokens) = seq cnt (length (concat tokens)).
Proof.
  revert cnt; induction tokens as [|w t IH]; intros cnt; simpl; [reflexivity|].
  rewrite IH, length_app, seq_app; reflexivity.
Qed.

Lemma lengths_word_spans {T : Type} (tokens : list (list T)) (cnt : nat) :
  map (@length nat) (word_spans cnt tokens) = map (@length T) tokens.
Proof.
  revert cnt; induction tokens as [|w t IH]; intros cnt; simpl; [reflexivity|].
  rewrite length_seq, IH; reflexivity.
Qed.

(** A position of the span of word [w] belongs to word [w]. *)
Lemma span_owner {T : Type} (tokens : list (list T)) :
  forall (cnt i w : nat) (span : list nat) (p : nat),
    nth_error (word_spans cnt tokens) w = Some span -> In p span ->
    cnt <= p /\ nth_error (token_owners i tokens) (p - cnt) = Some (i + w).
Proof.
  induction tokens as [|wl t IH]; intros cnt i w span p Hw Hp.
  - destruct w; discriminate Hw.
  - destruct w as [|w]; simpl in Hw.
    + injection Hw as <-; apply in_seq in Hp; split; [lia|]; simpl.
      rewrite nth_error_app1 by (rewrite repeat_length; lia).
      rewrite nth_error_repeat by lia; f_equal; lia.
    + destruct (IH (cnt + length wl) (Datatypes.S i) w span p Hw Hp) as [Hle Hn].
      split; [lia|]; simpl.
      rewrite nth_error_app2 by (rewrite repeat_length; lia).
      rewrite repeat_length.
      replace (p - cnt - length wl) with (p - (cnt + length wl)) by lia.
      rewrite Hn; f_equal; lia.
Qed.

(** Every position belongs to the span of its word. *)
Lemma owner_span {T : Type} (tokens : list (list T)) :
  forall (cnt i q : nat),
    q < length (concat tokens) ->
    exists w span,
      nth_error (token_owners i tokens) q = Some (i + w) /\
      nth_error (word_spans cnt tokens) w = Some span /\
      In (cnt + q) span.
Proof.
  induction tokens as [|wl t IH]; intros cnt i q Hq; simpl in Hq; [lia|].
  rewrite length_app in Hq.
  destruct (Nat.lt_ge_cases q (length wl)) as [Hlt|Hge].
  - exists 0, (seq cnt (length wl)); simpl; split; [|split].
    + rewrite nth_error_app1 by (rewrite repeat_length; lia).
      rewrite nth_error_repeat by lia; f_equal; lia.
    + reflexivity.
    + apply in_seq; lia.
  - destruct (IH (cnt + length wl) (Datatypes.S i) (q - length wl))
      as [w [span [Ho [Hs Hin]]]]; [lia|].
    exists (Datatypes.S w), span; simpl; split; [|split].
    + rewrite nth_error_app2 by (rewrite repeat_length; lia).
      rewrite repeat_length, Ho; f_equal; lia.
    + exact Hs.
    + replace (cnt + q) with (cnt + length wl + (q - length wl)) by lia.
      exact Hin.
Qed.

(** X20.  The two maps built from the tokens of a sentence agree.
    [b2w_map] has one word index per sub-token; [w2b_map] has one list
    per word, as long as the word, and the lists in order count the
    sub-tokens from 0; a position in the list of word [w] is mapped
    back to [w], and every position is in the list of its word. *)
Theorem token_maps_round_trip {T : Type} (tokens : list (list T)) :
  length (b2w_map tokens) = length (concat tokens) /\
  map (@length nat) (w2b_map tokens) = map (@length T) tokens /\
  concat (w2b_map tokens) = seq 0 (length (concat tokens)) /\
  (forall w span p,
     nth_error (w2b_map tokens) w = Some span -> In p span ->
     nth_error (b2w_map tokens) p = Some w) /\
  (forall p, p < length (concat tokens) ->
     exists w span,
       nth_error (b2w_map tokens) p = Some w /\
       nth_error (w2b_map tokens) w = Some span /\ In p span).
Proof.
  rewrite w2b_map_spans, b2w_map_owners.
  split; [apply length_token_owners|].
  split; [apply lengths_word_spans|].
  split; [apply concat_word_spans|].
  split.
  - intros w span p Hw Hp.
    destruct (@span_owner T tokens 0 0 w span p Hw Hp) as [_ H].
    rewrite Nat.sub_0_r in H; exact H.
  - intros p Hp.
    destruct (@owner_span T tokens 0 0 p Hp) as [w [span [Ho [Hs Hin]]]].
    exists w, span; auto.
Qed.

(** ** The shape of the output of a run *)

Lemma map_each_Forall {A B : Type} (f : A -> outcome B) (P : B -> Prop)
      (l : list A) :
  (forall x y, f x = Ok y -> P y) ->
  forall ys, map_each f l = Ok ys -> length ys = length l /\ Forall P ys.
Proof.
  intros Hf; induction l as [|x t IH]; intros ys; simpl.
  - intros H; injection H as <-; split; [reflexivity | constructor].
  - destruct (f x) as [y| |] eqn:Ey; simpl; try discriminate.
    destruct (map_each f t) as [ys'| |]; simpl; try discriminate.
    intros H; injection H as <-.
    destruct (IH ys' eq_refl) as [Hlen Hall].
    split; [simpl; rewrite Hlen; reflexivity|].
    constructor; [exact (Hf x y Ey) | exact Hall].
Qed.

Lemma align_sentence_keys {F : Type} {AF : Arith F} {EF : External F}
      {MF : Matchers F} (a : args) (null_thresh : dict F) (raw : matrix F)
      (mats : dict (matrix F)) :
  align_sentence a null_thresh raw = Ok mats ->
  keys mats = ["fwd"; "rev"; "inter"; "mwmf"; "itermax"]%string.
Proof.
  unfold align_sentence.
  destruct (Fltb (null_align a) F1).
  - destruct (map_each _ (matching_methods a)) as [pairs| |]; simpl;
      try discriminate.
    destruct (get_alignment_matrix _) as [fwd rev].
    destruct (iter_max _ _ 1) as [itermax| |]; simpl; try discriminate.
    destruct (lookup (dict_of pairs) "inter") as [mi| |]; simpl;
      try discriminate.
    destruct (lookup (dict_of pairs) "mwmf") as [mm| |]; simpl;
      try discriminate.
    destruct (lookup (dict_of pairs) "itermax") as [mt| |]; simpl;
      try discriminate.
    intros H; injection H as <-; reflexivity.
  - simpl.
    destruct (get_alignment_matrix _) as [fwd rev].
    destruct (iter_max _ _ 1) as [itermax| |]; simpl; try discriminate.
    intros H; injection H as <-; reflexivity.
Qed.

(** X21.  A run that completes, with the filter on or off, returns one
    table per sentence pair of the corpus, in order, and every table
    holds the five matrices fwd, rev, inter, mwmf and itermax,
    whichever methods were selected. *)
Theorem main_output_tables {F : Type} {AF : Arith F} {EF : External F}
        {MF : Matchers F} (a : args) (corpus : list (matrix F))
        (out : list (dict (matrix F))) :
  main a corpus = Ok out ->
  length out = length corpus /\
  Forall (fun mats => keys mats = ["fwd"; "rev"; "inter"; "mwmf"; "itermax"]%string)
         out.
Proof.
  unfold main; intros H.
  destruct (if Fltb (null_align a) F1 then calibrate a corpus else Ok [])
    as [thr| |]; simpl in H; try discriminate.
  apply (map_each_Forall (align_sentence a thr)); [|exact H].
  intros raw mats; apply align_sentence_keys.
Qed.

Lemma main_output_tables_witness :
  let a := {| null_align := 1%R; distortion := 0%R;
              matching_methods := ["itermax"]%string |} in
  exists out,
    main (MF := argmax_matchers) a [[[1%R]]] = Ok out /\
    length out = length [[[1%R]]] /\
    Forall (fun mats => keys mats = ["fwd"; "rev"; "inter"; "mwmf"; "itermax"]%string)
           out.
Proof.
  intros a.
  assert (H : exists out, main (MF := argmax_matchers) a [[[1%R]]] = Ok out).
  { rewrite main_without_filter by (apply Rltb_false; simpl; lra).
    unfold run_unfiltered, a; cbn [distortion map_each].
    change (apply_distortion [[1%R]] 0%R) with [[1%R]].
    cbn [get_alignment_matrix argmax_matchers].
    change (shape [[1%R]]) with (1, 1); cbv iota beta.
    rewrite (@iter_max_small R _ {| g_sim := Some [[1%R]] |} [[1%R]] [[1%R]]
               1 1 1 eq_refl eq_refl); try lia.
    cbn [bind]; eexists; reflexivity. }
  destruct H as [out Hout]; exists out; split; [exact Hout|].
  exact (@main_output_tables R real_arith real_external argmax_matchers
           a [[[1%R]]] out Hout).
Defined.
